(** * OS simulator: CPU scheduling and contiguous memory allocation

  A shallow embedding of [process.py], [memory_manager.py] and
  [scheduler.py], followed by the properties the specification states
  about them.

  Python objects are mutable and shared by reference.  The embedding keeps
  that: a [MemoryBlock] or a [Process] lives in an object store (a function
  from references to records), and lists, the ownership dictionary and the
  ready queue hold references.  Python integers are unbounded and are
  modelled by [Z]; list positions and loop indices are [nat]. *)

From Equations Require Import Equations.
From Stdlib Require Import ZArith QArith Lia String.
From stdpp Require Import base option list functions gmap.

Open Scope Z_scope.

(** References into an object store (Python object identities). *)
Abbreviation ref := nat (only parsing).

(** A value together with the equation that names it, for the loops below
  that branch on the outcome of one turn. *)
Definition inspect {A} (a : A) : {b | a = b} := exist _ a eq_refl.

(* ===================================================================== *)
(** * process.py *)
(* ===================================================================== *)

Module Process.

Record t := mk {
  pid : Z;
  arrival_time : Z;
  burst_time : Z;
  remaining_time : Z;
  memory_required : Z;
  priority : Z;
  start_time : Z;
  completion_time : Z;
  waiting_time : Z;
  turnaround_time : Z;
  response_time : Z;
  memory_allocated : bool;
  memory_start : Z;
  memory_end : Z;
  state : string
}.

(** [Process.__init__(pid, arrival_time, burst_time, memory_required, priority)]. *)
Definition __init__ (pid arrival_time burst_time memory_required priority : Z) : t :=
  {| pid := pid;
     arrival_time := arrival_time;
     burst_time := burst_time;
     remaining_time := burst_time;
     memory_required := memory_required;
     priority := priority;
     start_time := -1;
     completion_time := 0;
     waiting_time := 0;
     turnaround_time := 0;
     response_time := -1;
     memory_allocated := false;
     memory_start := -1;
     memory_end := -1;
     state := "NEW" |}.

(** [Process.__lt__]: [self.priority < other.priority]. *)
Definition __lt__ (self other : t) : bool := priority self <? priority other.

(** Attribute assignments [p.field = v]. *)
Definition set_remaining_time (v : Z) (p : t) : t :=
  mk (pid p) (arrival_time p) (burst_time p) v (memory_required p) (priority p)
     (start_time p) (completion_time p) (waiting_time p) (turnaround_time p)
     (response_time p) (memory_allocated p) (memory_start p) (memory_end p) (state p).

Definition set_start_time (v : Z) (p : t) : t :=
  mk (pid p) (arrival_time p) (burst_time p) (remaining_time p) (memory_required p)
     (priority p) v (completion_time p) (waiting_time p) (turnaround_time p)
     (response_time p) (memory_allocated p) (memory_start p) (memory_end p) (state p).

Definition set_completion_time (v : Z) (p : t) : t :=
  mk (pid p) (arrival_time p) (burst_time p) (remaining_time p) (memory_required p)
     (priority p) (start_time p) v (waiting_time p) (turnaround_time p)
     (response_time p) (memory_allocated p) (memory_start p) (memory_end p) (state p).

Definition set_waiting_time (v : Z) (p : t) : t :=
  mk (pid p) (arrival_time p) (burst_time p) (remaining_time p) (memory_required p)
     (priority p) (start_time p) (completion_time p) v (turnaround_time p)
     (response_time p) (memory_allocated p) (memory_start p) (memory_end p) (state p).

Definition set_turnaround_time (v : Z) (p : t) : t :=
  mk (pid p) (arrival_time p) (burst_time p) (remaining_time p) (memory_required p)
     (priority p) (start_time p) (completion_time p) (waiting_time p) v
     (response_time p) (memory_allocated p) (memory_start p) (memory_end p) (state p).

Definition set_response_time (v : Z) (p : t) : t :=
  mk (pid p) (arrival_time p) (burst_time p) (remaining_time p) (memory_required p)
     (priority p) (start_time p) (completion_time p) (waiting_time p)
     (turnaround_time p) v (memory_allocated p) (memory_start p) (memory_end p) (state p).

Definition set_memory_allocated (v : bool) (p : t) : t :=
  mk (pid p) (arrival_time p) (burst_time p) (remaining_time p) (memory_required p)
     (priority p) (start_time p) (completion_time p) (waiting_time p)
     (turnaround_time p) (response_time p) v (memory_start p) (memory_end p) (state p).

Definition set_memory_start (v : Z) (p : t) : t :=
  mk (pid p) (arrival_time p) (burst_time p) (remaining_time p) (memory_required p)
     (priority p) (start_time p) (completion_time p) (waiting_time p)
     (turnaround_time p) (response_time p) (memory_allocated p) v (memory_end p) (state p).

Definition set_memory_end (v : Z) (p : t) : t :=
  mk (pid p) (arrival_time p) (burst_time p) (remaining_time p) (memory_required p)
     (priority p) (start_time p) (completion_time p) (waiting_time p)
     (turnaround_time p) (response_time p) (memory_allocated p) (memory_start p) v (state p).

Definition set_state (v : string) (p : t) : t :=
  mk (pid p) (arrival_time p) (burst_time p) (remaining_time p) (memory_required p)
     (priority p) (start_time p) (completion_time p) (waiting_time p)
     (turnaround_time p) (response_time p) (memory_allocated p) (memory_start p)
     (memory_end p) v.

End Process.

(* ===================================================================== *)
(** * memory_manager.py *)
(* ===================================================================== *)

Module MemoryBlock.

Record t := mk {
  start : Z;
  size : Z;
  allocated : bool;
  process_id : option Z
}.

(** [MemoryBlock.__init__(start, size)]: a free block without owner. *)
Definition __init__ (start size : Z) : t :=
  {| start := start; size := size; allocated := false; process_id := None |}.

Definition set_size (v : Z) (b : t) : t :=
  mk (start b) v (allocated b) (process_id b).
Definition set_allocated (v : bool) (b : t) : t :=
  mk (start b) (size b) v (process_id b).
Definition set_process_id (v : option Z) (b : t) : t :=
  mk (start b) (size b) (allocated b) v.

End MemoryBlock.

Module MemoryManager.

(** The manager's attributes, together with the store of the [MemoryBlock]
    objects it has created ([objects], with [next_ref] the next unused
    reference).  [memory_blocks] is the Python list of block objects and
    [allocated_blocks] the dictionary from pid to block object: both hold
    references, so a block reached through the dictionary is the very
    object the list holds. *)
Record t := mk {
  total_memory : Z;
  strategy : string;
  objects : ref → MemoryBlock.t;
  next_ref : ref;
  memory_blocks : list ref;
  allocated_blocks : gmap Z ref
}.

(** The block list as values: what [get_memory_state] walks over. *)
Definition block_list (m : t) : list MemoryBlock.t := objects m <$> memory_blocks m.

(** [MemoryManager.__init__(total_memory, strategy)]: one free block
    [MemoryBlock(0, total_memory)], no owner on record.  The constructor
    has no check and no [raise]. *)
Definition __init__ (total_memory : Z) (strategy : string) : t :=
  {| total_memory := total_memory;
     strategy := strategy;
     objects := λ _, MemoryBlock.__init__ 0 total_memory;
     next_ref := 1%nat;
     memory_blocks := [0%nat];
     allocated_blocks := ∅ |}.

(** The test of the three search loops:
    [not block.allocated and block.size >= size]. *)
Definition fits (b : MemoryBlock.t) (size : Z) : bool :=
  negb (MemoryBlock.allocated b) && (size <=? MemoryBlock.size b).

(** [_first_fit]: the first block of the list that fits. *)
Fixpoint first_fit_loop (objs : ref → MemoryBlock.t) (blocks : list ref) (size : Z)
  : option ref :=
  match blocks with
  | [] => None
  | r :: rest => if fits (objs r) size then Some r else first_fit_loop objs rest size
  end.

Definition _first_fit (m : t) (size : Z) : option ref :=
  first_fit_loop (objects m) (memory_blocks m) size.

(** [_best_fit]: the loop state is [(best_block, min_size_diff)];
    [min_size_diff = None] stands for [float('inf')], below which every
    integer lies. *)
Definition best_fit_step (objs : ref → MemoryBlock.t) (size : Z)
    (acc : option ref * option Z) (r : ref) : option ref * option Z :=
  if fits (objs r) size then
    let size_diff := MemoryBlock.size (objs r) - size in
    match snd acc with
    | None => (Some r, Some size_diff)
    | Some min_size_diff =>
        if size_diff <? min_size_diff then (Some r, Some size_diff) else acc
    end
  else acc.

Definition _best_fit (m : t) (size : Z) : option ref :=
  fst (fold_left (best_fit_step (objects m) size) (memory_blocks m) (None, None)).

(** [_worst_fit]: the loop state is [(worst_block, max_size)], starting at
    [(None, -1)]. *)
Definition worst_fit_step (objs : ref → MemoryBlock.t) (size : Z)
    (acc : option ref * Z) (r : ref) : option ref * Z :=
  if fits (objs r) size then
    if snd acc <? MemoryBlock.size (objs r)
    then (Some r, MemoryBlock.size (objs r)) else acc
  else acc.

Definition _worst_fit (m : t) (size : Z) : option ref :=
  fst (fold_left (worst_fit_step (objects m) size) (memory_blocks m) (None, -1)).

(** [list.index(x)]: the position of the first occurrence.  Python raises
    [ValueError] when there is none; [allocate] only looks up a block that
    a search loop has just returned from the same list, so the model's
    answer for an absent element (the length) is never used. *)
Fixpoint index (x : ref) (l : list ref) : nat :=
  match l with
  | [] => 0%nat
  | y :: rest => if Nat.eqb y x then 0%nat else S (index x rest)
  end.

(** [list.insert(i, x)]: [x] goes before position [i], at the end when
    [i] is past it. *)
Definition list_insert_at {A} (i : nat) (x : A) (l : list A) : list A :=
  take i l ++ x :: drop i l.

(** The value of the local variable [suitable_block] of [allocate] after
    the dispatch on [self.strategy]; it stays [None] for a strategy name
    that is none of the three. *)
Definition suitable_block (m : t) (size_needed : Z) : option ref :=
  if String.eqb (strategy m) "First-Fit" then _first_fit m size_needed
  else if String.eqb (strategy m) "Best-Fit" then _best_fit m size_needed
  else if String.eqb (strategy m) "Worst-Fit" then _worst_fit m size_needed
  else None.

(** [allocate(process)]: returns the result, the manager and the process
    after the call. *)
Definition allocate (m : t) (process : Process.t) : bool * t * Process.t :=
  let size_needed := Process.memory_required process in
  match suitable_block m size_needed with
  | Some r =>
      let b := objects m r in
      let process' :=
        Process.set_memory_end (MemoryBlock.start b + size_needed - 1)
          (Process.set_memory_start (MemoryBlock.start b)
             (Process.set_memory_allocated true process)) in
      (* split the block when it is larger than needed *)
      let '(objs1, next1, blocks1) :=
        if size_needed <? MemoryBlock.size b then
          let new_block :=
            MemoryBlock.__init__ (MemoryBlock.start b + size_needed)
                                 (MemoryBlock.size b - size_needed) in
          let block_index := index r (memory_blocks m) in
          (<[next_ref m := new_block]> (objects m),
           S (next_ref m),
           list_insert_at (block_index + 1) (next_ref m) (memory_blocks m))
        else (objects m, next_ref m, memory_blocks m) in
      (* update the allocated block *)
      let b' :=
        MemoryBlock.set_process_id (Some (Process.pid process))
          (MemoryBlock.set_allocated true
             (MemoryBlock.set_size size_needed (objs1 r))) in
      (true,
       {| total_memory := total_memory m;
          strategy := strategy m;
          objects := <[r := b']> objs1;
          next_ref := next1;
          memory_blocks := blocks1;
          allocated_blocks := <[Process.pid process := r]> (allocated_blocks m) |},
       process')
  | None => (false, m, process)
  end.

(** One turn of the [while] loop of [_merge_free_blocks] at index [i]:
    [None] when the loop condition [i < len(self.memory_blocks) - 1]
    fails, otherwise the store, the list and the index after the body. *)
Definition merge_step (objs : ref → MemoryBlock.t) (blocks : list ref) (i : nat)
  : option ((ref → MemoryBlock.t) * list ref * nat) :=
  if (i <? length blocks - 1)%nat then
    let current := blocks !!! i in
    let next_block := blocks !!! S i in
    if negb (MemoryBlock.allocated (objs current))
       && negb (MemoryBlock.allocated (objs next_block)) then
      let merged :=
        MemoryBlock.set_size
          (MemoryBlock.size (objs current) + MemoryBlock.size (objs next_block))
          (objs current) in
      Some (<[current := merged]> objs, delete (S i) blocks, i)
    else Some (objs, blocks, S i)
  else None.

(** The loop itself.  Every turn either removes a block or moves the index
    forward, which bounds the number of turns. *)
Equations? merge_loop (objs : ref → MemoryBlock.t) (blocks : list ref) (i : nat)
  : (ref → MemoryBlock.t) * list ref
  by wf (length blocks + (length blocks - i))%nat lt :=
  merge_loop objs blocks i with inspect (merge_step objs blocks i) => {
    | exist _ (Some (objs', blocks', i')) _ := merge_loop objs' blocks' i' ;
    | exist _ None _ := (objs, blocks) }.
Proof.
  clear merge_loop. unfold merge_step in e.
  destruct (i <? length blocks - 1)%nat eqn:Hi; [|discriminate].
  apply Nat.ltb_lt in Hi.
  destruct (_ && _); simplify_eq.
  - rewrite length_delete; [lia|]. apply lookup_lt_is_Some. lia.
  - lia.
Qed.

(** [_merge_free_blocks]. *)
Definition _merge_free_blocks (m : t) : t :=
  let '(objs', blocks') := merge_loop (objects m) (memory_blocks m) 0 in
  {| total_memory := total_memory m;
     strategy := strategy m;
     objects := objs';
     next_ref := next_ref m;
     memory_blocks := blocks';
     allocated_blocks := allocated_blocks m |}.

(** [deallocate(process)]. *)
Definition deallocate (m : t) (process : Process.t) : bool * t * Process.t :=
  match allocated_blocks m !! Process.pid process with
  | None => (false, m, process)
  | Some block =>
      let freed :=
        MemoryBlock.set_process_id None
          (MemoryBlock.set_allocated false (objects m block)) in
      let m1 :=
        {| total_memory := total_memory m;
           strategy := strategy m;
           objects := <[block := freed]> (objects m);
           next_ref := next_ref m;
           memory_blocks := memory_blocks m;
           allocated_blocks := delete (Process.pid process) (allocated_blocks m) |} in
      (true, _merge_free_blocks m1, Process.set_memory_allocated false process)
  end.

(** [max(iterable)] raises [ValueError] on an empty iterable, and the true
    division [a / b] raises [ZeroDivisionError] when [b] is 0: [None]
    stands for the raised exception. *)
Definition py_max (l : list Z) : option Z :=
  match l with
  | [] => None
  | x :: rest => Some (fold_left Z.max rest x)
  end.

Definition py_truediv (a b : Z) : option Q :=
  if b =? 0 then None else Some (inject_Z a / inject_Z b)%Q.

(** [sum(iterable)] of integers. *)
Definition py_sum (l : list Z) : Z := fold_left Z.add l 0.

(** [get_fragmentation()].  The Python result is a float; the model gives
    the exact rational the float expression rounds, [None] if the call
    raised. *)
Definition get_fragmentation (m : t) : option Q :=
  let free_blocks := filter (λ b, MemoryBlock.allocated b = false) (block_list m) in
  match free_blocks with
  | [] => Some 0%Q
  | _ :: _ =>
      let total_free := py_sum (MemoryBlock.size <$> free_blocks) in
      largest_free ←
        (match free_blocks with
         | [] => Some 0
         | _ :: _ => py_max (MemoryBlock.size <$> free_blocks)
         end);
      if total_free =? 0 then Some 0%Q
      else
        q ← py_truediv (total_free - largest_free) total_free;
        Some (q * 100)%Q
  end.

(** [get_utilization()]: the exact rational of the float result, [None]
    if the division raised. *)
Definition get_utilization (m : t) : option Q :=
  let used_memory :=
    py_sum (MemoryBlock.size <$>
              filter (λ b, MemoryBlock.allocated b = true) (block_list m)) in
  q ← py_truediv used_memory (total_memory m);
  Some (q * 100)%Q.

(** A call made on the manager by its driver, and the manager after a
    sequence of calls. *)
Inductive call :=
| Allocate (process : Process.t)
| Deallocate (process : Process.t).

Definition do_call (m : t) (c : call) : t :=
  match c with
  | Allocate process => (allocate m process).1.2
  | Deallocate process => (deallocate m process).1.2
  end.

Definition run (m : t) (calls : list call) : t := fold_left do_call calls m.

End MemoryManager.

(* ===================================================================== *)
(** * heapq (Python standard library), as scheduler.py uses it *)
(* ===================================================================== *)

(** [heapq.heappush] and [heapq.heappop] on a Python list, with the
    comparison [less] standing for the [<] of the items.  The two sift
    loops are CPython's: [_siftdown] moves the new item towards the root,
    [_siftup] moves the hole at the root down to a leaf along the smaller
    children and then sifts the displaced last item back up. *)
Module Heapq.
Section Heapq.
Context {A : Type} `{!Inhabited A} (less : A → A → bool).

(** One turn of the [while pos > startpos] loop of [_siftdown]; [None]
    when the loop ends (by its condition or by [break]). *)
Definition siftdown_step (heap : list A) (startpos pos : nat) (newitem : A)
  : option (list A * nat) :=
  if (startpos <? pos)%nat then
    let parentpos := ((pos - 1) / 2)%nat in
    let parent := heap !!! parentpos in
    if less newitem parent then Some (<[pos := parent]> heap, parentpos)
    else None
  else None.

Equations? siftdown_loop (heap : list A) (startpos pos : nat) (newitem : A)
  : list A * nat by wf pos lt :=
  siftdown_loop heap startpos pos newitem
    with inspect (siftdown_step heap startpos pos newitem) => {
    | exist _ (Some (heap', pos')) _ := siftdown_loop heap' startpos pos' newitem ;
    | exist _ None _ := (heap, pos) }.
Proof.
clear siftdown_loop. unfold siftdown_step in e.
destruct (startpos <? pos)%nat eqn:Hpos; [|discriminate].
apply Nat.ltb_lt in Hpos. destruct (less _ _); [|discriminate].
injection e as _ <-.
pose proof (Nat.Div0.mul_div_le (pos - 1) 2).
change (Nat.divmod (pos - 1) 1 0 1).1 with ((pos - 1) / 2)%nat. lia.
Qed.

(** [_siftdown(heap, startpos, pos)]. *)
Definition _siftdown (heap : list A) (startpos pos : nat) : list A :=
  let newitem := heap !!! pos in
  let '(heap', pos') := siftdown_loop heap startpos pos newitem in
  <[pos' := newitem]> heap'.

(** One turn of the [while childpos < endpos] loop of [_siftup], where
    [childpos = 2*pos + 1] at the head of every turn. *)
Definition siftup_step (heap : list A) (endpos pos : nat) : option (list A * nat) :=
  let childpos := (2 * pos + 1)%nat in
  if (childpos <? endpos)%nat then
    let rightpos := (childpos + 1)%nat in
    let childpos' :=
      if (rightpos <? endpos)%nat && negb (less (heap !!! childpos) (heap !!! rightpos))
      then rightpos else childpos in
    Some (<[pos := heap !!! childpos']> heap, childpos')
  else None.

Equations? siftup_loop (heap : list A) (endpos pos : nat) : list A * nat
  by wf (endpos - pos)%nat lt :=
  siftup_loop heap endpos pos with inspect (siftup_step heap endpos pos) => {
    | exist _ (Some (heap', pos')) _ := siftup_loop heap' endpos pos' ;
    | exist _ None _ := (heap, pos) }.
Proof.
clear siftup_loop. unfold siftup_step in e.
destruct (2 * pos + 1 <? endpos)%nat eqn:Hc; [|discriminate].
apply Nat.ltb_lt in Hc.
destruct (_ && _) eqn:Hr; injection e as _ <-; [|lia].
apply andb_true_iff in Hr as [Hr _]. apply Nat.ltb_lt in Hr. lia.
Qed.

(** [_siftup(heap, pos)]. *)
Definition _siftup (heap : list A) (pos : nat) : list A :=
  let endpos := length heap in
  let startpos := pos in
  let newitem := heap !!! pos in
  let '(heap', pos') := siftup_loop heap endpos pos in
  _siftdown (<[pos' := newitem]> heap') startpos pos'.

(** [heappush(heap, item)]. *)
Definition heappush (heap : list A) (item : A) : list A :=
  let heap' := heap ++ [item] in
  _siftdown heap' 0 (length heap' - 1).

(** [heappop(heap)]: the popped item and the list afterwards; [None] for
    the [IndexError] of [heap.pop()] on an empty list. *)
Definition heappop (heap : list A) : option (A * list A) :=
  match last heap with
  | None => None
  | Some lastelt =>
      let heap' := take (length heap - 1) heap in
      match heap' with
      | [] => Some (lastelt, heap')
      | returnitem :: _ => Some (returnitem, _siftup (<[0%nat := lastelt]> heap') 0)
      end
  end.

End Heapq.
End Heapq.

(* ===================================================================== *)
(** * scheduler.py *)
(* ===================================================================== *)

Module Scheduler.

(** What [ready_queue] holds: a [Process] object under FCFS and RR, the
    tuple [(key, arrival_time, process)] under SJF and Priority. *)
Inductive entry :=
| EProc (process : ref)
| ETuple (key arrival_time : Z) (process : ref).

#[global] Instance entry_inhabited : Inhabited entry := populate (EProc 0%nat).

(** The process of an entry: the object itself, or component [2] of the
    tuple. *)
Definition entry_process (e : entry) : ref :=
  match e with
  | EProc r => r
  | ETuple _ _ r => r
  end.

(** An entry of the Gantt chart: the dictionary with keys [pid], [start]
    and [end]. *)
Record gantt_entry := mk_gantt { g_pid : Z; g_start : Z; g_end : Z }.

Record t := mk {
  algorithm : string;
  time_quantum : Z;
  ready_queue : list entry;
  current_time : Z;
  completed_processes : list ref;
  gantt_chart : list gantt_entry
}.

(** The store of the [Process] objects the scheduler is handed. *)
Abbreviation store := (ref → Process.t) (only parsing).

(** [Scheduler.__init__(algorithm, time_quantum)].  The constructor has no
    check and no [raise]. *)
Definition __init__ (algorithm : string) (time_quantum : Z) : t :=
  {| algorithm := algorithm;
     time_quantum := time_quantum;
     ready_queue := [];
     current_time := 0;
     completed_processes := [];
     gantt_chart := [] |}.

Definition set_ready_queue (v : list entry) (s : t) : t :=
  mk (algorithm s) (time_quantum s) v (current_time s) (completed_processes s)
     (gantt_chart s).
Definition set_current_time (v : Z) (s : t) : t :=
  mk (algorithm s) (time_quantum s) (ready_queue s) v (completed_processes s)
     (gantt_chart s).
Definition set_completed_processes (v : list ref) (s : t) : t :=
  mk (algorithm s) (time_quantum s) (ready_queue s) (current_time s) v
     (gantt_chart s).
Definition set_gantt_chart (v : list gantt_entry) (s : t) : t :=
  mk (algorithm s) (time_quantum s) (ready_queue s) (current_time s)
     (completed_processes s) v.

(** The [<] that [heapq] applies to the items of [ready_queue].  Python
    compares tuples item by item: the first pair of items that are not
    [==] decides, and equal tuples are not less.  Integers compare by
    value; two [Process] objects are [==] only when they are the same
    object, and their [<] is [Process.__lt__].  A tuple is never compared
    with a bare [Process] (one scheduler uses one kind of entry; Python
    would raise [TypeError]): the model answers [false] there. *)
Definition entry_lt (σ : store) (e1 e2 : entry) : bool :=
  match e1, e2 with
  | ETuple k1 a1 r1, ETuple k2 a2 r2 =>
      if negb (k1 =? k2) then k1 <? k2
      else if negb (a1 =? a2) then a1 <? a2
      else if negb (Nat.eqb r1 r2) then Process.__lt__ (σ r1) (σ r2)
      else false
  | EProc r1, EProc r2 => Process.__lt__ (σ r1) (σ r2)
  | _, _ => false
  end.

(** [add_process(process)]. *)
Definition add_process (s : t) (σ : store) (process : ref) : t * store :=
  let σ := <[process := Process.set_state "READY" (σ process)]> σ in
  if String.eqb (algorithm s) "FCFS" then
    (set_ready_queue (ready_queue s ++ [EProc process]) s, σ)
  else if String.eqb (algorithm s) "SJF" then
    (set_ready_queue
       (Heapq.heappush (entry_lt σ) (ready_queue s)
          (ETuple (Process.remaining_time (σ process))
                  (Process.arrival_time (σ process)) process)) s, σ)
  else if String.eqb (algorithm s) "Priority" then
    (set_ready_queue
       (Heapq.heappush (entry_lt σ) (ready_queue s)
          (ETuple (Process.priority (σ process))
                  (Process.arrival_time (σ process)) process)) s, σ)
  else if String.eqb (algorithm s) "RR" then
    (set_ready_queue (ready_queue s ++ [EProc process]) s, σ)
  else (s, σ).

(** [get_next_process()]: the process returned ([None] for Python's
    [None]) and the scheduler afterwards. *)
Definition get_next_process (s : t) (σ : store) : option ref * t :=
  match ready_queue s with
  | [] => (None, s)
  | first :: rest =>
      if String.eqb (algorithm s) "SJF" || String.eqb (algorithm s) "Priority" then
        match Heapq.heappop (entry_lt σ) (ready_queue s) with
        | Some (item, heap) => (Some (entry_process item), set_ready_queue heap s)
        | None => (None, s)
        end
      else (Some (entry_process first), set_ready_queue rest s)
  end.

(** [execute(process, time_slice)]: the result, the scheduler and the store
    afterwards. *)
Definition execute (s : t) (σ : store) (process : ref) (time_slice : Z)
  : bool * t * store :=
  let p := Process.set_state "RUNNING" (σ process) in
  (* record the start time at the first execution *)
  let p :=
    if Process.start_time p =? -1 then
      Process.set_response_time (current_time s - Process.arrival_time p)
        (Process.set_start_time (current_time s) p)
    else p in
  let execution_time := Z.min time_slice (Process.remaining_time p) in
  let p := Process.set_remaining_time (Process.remaining_time p - execution_time) p in
  let s := set_current_time (current_time s + execution_time) s in
  let s :=
    set_gantt_chart
      (gantt_chart s ++
       [mk_gantt (Process.pid p) (current_time s - execution_time) (current_time s)]) s in
  if Process.remaining_time p =? 0 then
    let p := Process.set_state "TERMINATED" p in
    let p := Process.set_completion_time (current_time s) p in
    let p :=
      Process.set_turnaround_time
        (Process.completion_time p - Process.arrival_time p) p in
    let p :=
      Process.set_waiting_time (Process.turnaround_time p - Process.burst_time p) p in
    (true, set_completed_processes (completed_processes s ++ [process]) s,
     <[process := p]> σ)
  else (false, s, <[process := p]> σ).

(** [sorted(processes, key=lambda p: p.arrival_time)]: Python's sort is
    stable, and a stable sort has one possible result; the model builds it
    by insertion, each process going behind those that arrive no later. *)
Fixpoint insert_by_arrival (σ : store) (x : ref) (l : list ref) : list ref :=
  match l with
  | [] => [x]
  | y :: rest =>
      if Process.arrival_time (σ y) <=? Process.arrival_time (σ x)
      then y :: insert_by_arrival σ x rest
      else x :: y :: rest
  end.

Definition sorted_by_arrival (σ : store) (processes : list ref) : list ref :=
  fold_left (λ acc x, insert_by_arrival σ x acc) processes [].

(** One turn of the inner [while] loop of [schedule], which admits the
    processes that have arrived. *)
Definition admit_step (all_processes : list ref) (s : t) (σ : store)
    (process_index : nat) : option (t * store * nat) :=
  if (process_index <? length all_processes)%nat
     && (Process.arrival_time (σ (all_processes !!! process_index)) <=? current_time s)
  then
    let '(s', σ') := add_process s σ (all_processes !!! process_index) in
    Some (s', σ', S process_index)
  else None.

Equations? admit_loop (all_processes : list ref) (s : t) (σ : store)
    (process_index : nat) : t * store * nat
  by wf (length all_processes - process_index)%nat lt :=
  admit_loop all_processes s σ process_index
    with inspect (admit_step all_processes s σ process_index) => {
    | exist _ (Some (s', σ', process_index')) _ :=
        admit_loop all_processes s' σ' process_index' ;
    | exist _ None _ := (s, σ, process_index) }.
Proof.
clear admit_loop. unfold admit_step in e.
destruct (_ && _) eqn:Hc; [|discriminate].
apply andb_true_iff in Hc as [Hc _]. apply Nat.ltb_lt in Hc.
destruct (add_process _ _ _). injection e as _ _ <-. lia.
Qed.

(** One turn of the outer [while] loop of [schedule]; [None] when its
    condition [process_index < len(all_processes) or self.ready_queue]
    fails.  The last case cannot arise ([get_next_process] is called on a
    queue that has just been seen non-empty; Python would fail on [None]):
    the model makes no progress there. *)
Definition schedule_step (all_processes : list ref) (st : t * store * nat)
  : option (t * store * nat) :=
  let '(s, σ, process_index) := st in
  if (process_index <? length all_processes)%nat
     || negb (bool_decide (ready_queue s = [])) then
    let '(s, σ, process_index) := admit_loop all_processes s σ process_index in
    if bool_decide (ready_queue s = []) then
      if (process_index <? length all_processes)%nat then
        Some (set_current_time
                (Process.arrival_time (σ (all_processes !!! process_index))) s,
              σ, process_index)
      else Some (s, σ, process_index)
    else
      match get_next_process s σ with
      | (Some current_process, s) =>
          if String.eqb (algorithm s) "RR" then
            let '(completed, s, σ) := execute s σ current_process (time_quantum s) in
            if negb completed then
              let '(s, σ) := add_process s σ current_process in
              Some (s, σ, process_index)
            else Some (s, σ, process_index)
          else
            let '(_, s, σ) :=
              execute s σ current_process
                (Process.remaining_time (σ current_process)) in
            Some (s, σ, process_index)
      | (None, s) => Some (s, σ, process_index)
      end
  else None.

#[global] Arguments schedule_step : simpl never.
#[global] Arguments add_process : simpl never.
#[global] Arguments get_next_process : simpl never.
#[global] Arguments execute : simpl never.

(** The outer loop, for at most [fuel] turns after the first test of its
    condition: [None] when the loop is still running after them. *)
Fixpoint schedule_loop (fuel : nat) (all_processes : list ref) (st : t * store * nat)
  : option (t * store * nat) :=
  match schedule_step all_processes st with
  | None => Some st
  | Some st' =>
      match fuel with
      | O => None
      | S fuel' => schedule_loop fuel' all_processes st'
      end
  end.

(** [schedule(processes)]: the scheduler and the store when the call
    returns; the value returned is [completed_processes] of that
    scheduler. *)
Definition schedule (fuel : nat) (s : t) (σ : store) (processes : list ref)
  : option (t * store) :=
  match schedule_loop fuel (sorted_by_arrival σ processes) (s, σ, 0%nat) with
  | Some (s', σ', _) => Some (s', σ')
  | None => None
  end.


(** The chart as [(pid, start, end)] triples. *)
Definition trace (s : t) : list (Z * Z * Z) :=
  (λ g, (g_pid g, g_start g, g_end g)) <$> gantt_chart s.

(** A store that holds the processes of a list at the references
    [0, 1, ...]. *)
#[global] Instance process_inhabited : Inhabited Process.t :=
  populate (Process.__init__ 0 0 0 0 0).

Definition store_of (l : list Process.t) : store :=
  λ r, l !!! r.

End Scheduler.

(* ===================================================================== *)
(** * Vocabulary for the block list *)
(* ===================================================================== *)

Module Layout.
Import MemoryBlock.

(** The sum of the sizes of a list of blocks. *)
Fixpoint total_size (V : list MemoryBlock.t) : Z :=
  match V with
  | [] => 0
  | b :: rest => size b + total_size rest
  end.

(** Blocks laid end to end from address [a]. *)
Fixpoint contiguous_from (a : Z) (V : list MemoryBlock.t) : Prop :=
  match V with
  | [] => True
  | b :: rest => start b = a ∧ contiguous_from (a + size b) rest
  end.

(** No two neighbours of the list are both free. *)
Fixpoint no_adjacent_free (V : list MemoryBlock.t) : Prop :=
  match V with
  | [] => True
  | b :: rest =>
      match rest with
      | [] => True
      | b' :: _ => (allocated b = true ∨ allocated b' = true) ∧ no_adjacent_free rest
      end
  end.

(** The four parts of the partition invariant, on positions of the list. *)
Definition sorted_by_start (V : list MemoryBlock.t) : Prop :=
  ∀ i j bi bj, V !! i = Some bi → V !! j = Some bj → (i < j)%nat → start bi < start bj.

Definition contiguous (V : list MemoryBlock.t) : Prop :=
  ∀ i b b', V !! i = Some b → V !! S i = Some b' → start b + size b = start b'.

Definition non_overlapping (V : list MemoryBlock.t) : Prop :=
  ∀ i j bi bj, V !! i = Some bi → V !! j = Some bj → (i < j)%nat →
    start bi + size bi ≤ start bj.

(** Every address of [[0, total)] lies in exactly one block. *)
Definition covers (total : Z) (V : list MemoryBlock.t) : Prop :=
  ∀ x, 0 ≤ x < total →
    ∃ i b, V !! i = Some b ∧ start b ≤ x < start b + size b ∧
      ∀ j b', V !! j = Some b' → start b' ≤ x < start b' + size b' → j = i.

Definition partition_invariant (total : Z) (V : list MemoryBlock.t) : Prop :=
  sorted_by_start V ∧ contiguous V ∧ non_overlapping V ∧
  total_size V = total ∧ covers total V.

(** What one pass of the merge loop does to the list of values: [cur] is
    the block under the index, [rest] the blocks after it. *)
Fixpoint coalesce_from (cur : MemoryBlock.t) (rest : list MemoryBlock.t)
  : list MemoryBlock.t :=
  match rest with
  | [] => [cur]
  | nb :: rest' =>
      if negb (allocated cur) && negb (allocated nb)
      then coalesce_from (set_size (size cur + size nb) cur) rest'
      else cur :: coalesce_from nb rest'
  end.

Definition coalesce (V : list MemoryBlock.t) : list MemoryBlock.t :=
  match V with
  | [] => []
  | b :: rest => coalesce_from b rest
  end.

(** The block the process receives, and the free remainder of a split. *)
Definition granted (b : MemoryBlock.t) (process : Process.t) : MemoryBlock.t :=
  MemoryBlock.mk (MemoryBlock.start b) (Process.memory_required process) true
                 (Some (Process.pid process)).

Definition remainder (b : MemoryBlock.t) (process : Process.t) : list MemoryBlock.t :=
  if Process.memory_required process <? MemoryBlock.size b
  then [MemoryBlock.__init__ (MemoryBlock.start b + Process.memory_required process)
                             (MemoryBlock.size b - Process.memory_required process)]
  else [].

(** The calls the specification allows: a process asks for a positive
    amount of memory. *)
Definition valid_call (c : MemoryManager.call) : Prop :=
  match c with
  | MemoryManager.Allocate process => 0 < Process.memory_required process
  | MemoryManager.Deallocate _ => True
  end.

(** The store holds each block of the list once, under a reference that
    has been handed out. *)
Definition store_ok (m : MemoryManager.t) : Prop :=
  NoDup (MemoryManager.memory_blocks m) ∧
  Forall (λ r, (r < MemoryManager.next_ref m)%nat) (MemoryManager.memory_blocks m).

Definition layout_ok (m : MemoryManager.t) : Prop :=
  store_ok m ∧
  contiguous_from 0 (MemoryManager.block_list m) ∧
  total_size (MemoryManager.block_list m) = MemoryManager.total_memory m ∧
  no_adjacent_free (MemoryManager.block_list m).

Definition sizes_positive (V : list MemoryBlock.t) : Prop :=
  Forall (λ b, 0 < size b) V.

(** The first block of [l] and its left neighbour [x] are not both free. *)
Definition head_ok (x : MemoryBlock.t) (l : list MemoryBlock.t) : Prop :=
  match l with
  | [] => True
  | y :: _ => allocated x = true ∨ allocated y = true
  end.

(** The free blocks of the manager, in list order. *)
Definition free_blocks (m : MemoryManager.t) : list MemoryBlock.t :=
  filter (λ b, allocated b = false) (MemoryManager.block_list m).

(** The block [deallocate] writes back through the ownership entry. *)
Definition freed (b : MemoryBlock.t) : MemoryBlock.t :=
  set_process_id None (set_allocated false b).

End Layout.

(* ===================================================================== *)
(** * Vocabulary for the scheduler *)
(* ===================================================================== *)

Module Timing.

(** A process whose [start_time], once set, agrees with its
    [response_time]. *)
Definition consistent_start (p : Process.t) : Prop :=
  Process.start_time p = -1 ∨
  Process.response_time p = Process.start_time p - Process.arrival_time p.

(** The two conservation equations of a completed process. *)
Definition metrics_ok (p : Process.t) : Prop :=
  Process.turnaround_time p = Process.waiting_time p + Process.burst_time p ∧
  Process.response_time p = Process.start_time p - Process.arrival_time p.

(** The processes of the entries of a ready queue. *)
Definition queue_refs (q : list Scheduler.entry) : list ref :=
  Scheduler.entry_process <$> q.

(** The invariant behind the conservation equations: every process still
    to be run has a consistent start, every completed process has its two
    equations. *)
Definition metrics_inv (all : list ref) (s : Scheduler.t) (σ : ref → Process.t)
    (idx : nat) : Prop :=
  (∀ r, r ∈ drop idx all ∨ r ∈ queue_refs (Scheduler.ready_queue s) →
        consistent_start (σ r)) ∧
  (∀ r, r ∈ Scheduler.completed_processes s → metrics_ok (σ r)).

(** A measure of the work left to the outer loop of [schedule].  A process
    weighs one more than the time it still needs; one that has not been
    admitted yet weighs two more on top; and one unit stands for the jump
    of the clock to the next arrival. *)
Definition weight (σ : ref → Process.t) (r : ref) : nat :=
  S (Z.to_nat (Process.remaining_time (σ r))).

Definition waiting_flag (all_processes : list ref) (s : Scheduler.t)
    (σ : ref → Process.t) (idx : nat) : nat :=
  if (idx <? length all_processes)%nat
     && (Scheduler.current_time s <? Process.arrival_time (σ (all_processes !!! idx)))
  then 1%nat else 0%nat.

Definition work_left (all_processes : list ref)
    (st : Scheduler.t * (ref → Process.t) * nat) : nat :=
  let '(s, σ, idx) := st in
  (sum_list_with (λ r, 2 + weight σ r) (drop idx all_processes)
   + sum_list_with (weight σ) (queue_refs (Scheduler.ready_queue s))
   + waiting_flag all_processes s σ idx)%nat.

(** The configurations under which every slice makes progress. *)
Definition can_progress (s : Scheduler.t) : Prop :=
  Scheduler.algorithm s ≠ "RR"%string ∨ 0 < Scheduler.time_quantum s.

(** Some process that is waiting or ready still needs time, under RR with
    a quantum that is not positive. *)
Definition starved (all : list ref) (s : Scheduler.t) (σ : ref → Process.t)
    (idx : nat) : Prop :=
  Scheduler.algorithm s = "RR"%string ∧ Scheduler.time_quantum s ≤ 0 ∧
  ∃ r, (r ∈ drop idx all ∨ r ∈ queue_refs (Scheduler.ready_queue s)) ∧
       0 < Process.remaining_time (σ r).

(** The state of the outer loop of [schedule] after [n] turns, when the
    loop runs that long. *)
Fixpoint after_turns (n : nat) (all_processes : list ref)
    (st : Scheduler.t * (ref → Process.t) * nat)
  : option (Scheduler.t * (ref → Process.t) * nat) :=
  match n with
  | O => Some st
  | S n' =>
      match Scheduler.schedule_step all_processes st with
      | Some st' => after_turns n' all_processes st'
      | None => None
      end
  end.

End Timing.

(* ===================================================================== *)
(** * Vocabulary for the heap *)
(* ===================================================================== *)

Module HeapOrder.
Section HeapOrder.
Context {A : Type} `{!Inhabited A} (less : A → A → bool).

(** [a] is not after [b]: [b < a] is false. *)
Definition le (a b : A) : Prop := less b a = false.

(** The position of the parent of position [i], [(i - 1) >> 1]. *)
Definition parent (i : nat) : nat := ((i - 1) / 2)%nat.

(** The heap property of [heapq]: no item is less than its parent. *)
Definition heap_ok (h : list A) : Prop :=
  ∀ i, (0 < i < length h)%nat → le (h !!! parent i) (h !!! i).

(** The heap property everywhere but between [pos] and its parent, with
    the parent of [pos] not after the children of [pos]: what holds while
    [_siftdown] carries an item towards the root. *)
Definition swim_ok (h : list A) (pos : nat) : Prop :=
  (∀ i, (0 < i < length h)%nat → i ≠ pos → le (h !!! parent i) (h !!! i)) ∧
  ((0 < pos)%nat →
   ∀ c, (0 < c < length h)%nat → parent c = pos → le (h !!! parent pos) (h !!! c)).

(** The heap property on the pairs that do not involve [pos], with the
    parent of [pos] not after the children of [pos]: what holds while
    [_siftup] moves the hole at [pos] towards the leaves. *)
Definition hole_ok (h : list A) (pos : nat) : Prop :=
  (∀ i, (0 < i < length h)%nat → i ≠ pos → parent i ≠ pos →
        le (h !!! parent i) (h !!! i)) ∧
  ((0 < pos)%nat →
   ∀ c, (0 < c < length h)%nat → parent c = pos → le (h !!! parent pos) (h !!! c)).

End HeapOrder.
End HeapOrder.

(* ===================================================================== *)
(** * Vocabulary for the order of dispatch *)
(* ===================================================================== *)

Module Dispatch.

(** The first component of the tuple that [add_process] pushes:
    [remaining_time] under SJF, [priority] under Priority. *)
Definition key (alg : string) (p : Process.t) : Z :=
  if String.eqb alg "SJF" then Process.remaining_time p else Process.priority p.

(** [p] is not dispatched after [p']: it comes first on the key, or on
    [arrival_time] when the keys are equal, or on [priority] (through
    [Process.__lt__]) when both are equal. *)
Definition not_after (alg : string) (p p' : Process.t) : Prop :=
  key alg p < key alg p' ∨
  (key alg p = key alg p' ∧
   (Process.arrival_time p < Process.arrival_time p' ∨
    (Process.arrival_time p = Process.arrival_time p' ∧
     Process.priority p ≤ Process.priority p'))).

(** The tuple that [add_process] pushes for the process at [r]. *)
Definition tuple_of (alg : string) (σ : ref → Process.t) (r : ref) : Scheduler.entry :=
  Scheduler.ETuple (key alg (σ r)) (Process.arrival_time (σ r)) r.

Definition is_tuple (e : Scheduler.entry) : Prop :=
  match e with
  | Scheduler.ETuple _ _ _ => True
  | Scheduler.EProc _ => False
  end.

(** The ready queue of a scheduler under SJF or Priority: a heap of the
    tuples of distinct processes, none of them among those still to
    arrive, each tuple as the process stands in the store. *)
Definition heap_inv (alg : string) (all : list ref) (s : Scheduler.t)
    (σ : ref → Process.t) (idx : nat) : Prop :=
  Scheduler.algorithm s = alg ∧
  HeapOrder.heap_ok (Scheduler.entry_lt σ) (Scheduler.ready_queue s) ∧
  Forall (λ e, e = tuple_of alg σ (Scheduler.entry_process e)) (Scheduler.ready_queue s) ∧
  NoDup (Timing.queue_refs (Scheduler.ready_queue s) ++ drop idx all).

End Dispatch.

(* ===================================================================== *)
(** * metrics.py *)
(* ===================================================================== *)

Module Metrics.
Import MemoryManager.





End Metrics.

(* ===================================================================== *)
(** * main.py *)
(* ===================================================================== *)

Module Main.





End Main.

(* ===================================================================== *)
(** * Vocabulary for a run of the scheduler *)
(* ===================================================================== *)

Module Run.
Import Process.

(** The four names that [add_process] knows. *)
Definition known (alg : string) : Prop :=
  alg = "FCFS"%string ∨ alg = "SJF"%string ∨ alg = "Priority"%string ∨
  alg = "RR"%string.

(** What [execute] leaves of the process [p] after a slice of [e] units
    that starts at time [ct]: [p'] is the process afterwards, [c] the
    value that [execute] returns. *)
Record ran (ct e : Z) (p p' : Process.t) (c : bool) : Prop := {
  ran_pid : pid p' = pid p;
  ran_arrival_time : arrival_time p' = arrival_time p;
  ran_burst_time : burst_time p' = burst_time p;
  ran_priority : priority p' = priority p;
  ran_memory_required : memory_required p' = memory_required p;
  ran_memory_allocated : memory_allocated p' = memory_allocated p;
  ran_memory_start : memory_start p' = memory_start p;
  ran_memory_end : memory_end p' = memory_end p;
  ran_remaining_time : remaining_time p' = remaining_time p - e;
  ran_start_time :
    start_time p' = if start_time p =? -1 then ct else start_time p;
  ran_response_time :
    response_time p' =
      if start_time p =? -1 then ct - arrival_time p else response_time p;
  ran_completed : c = (remaining_time p' =? 0);
  ran_state : state p' = if c then "TERMINATED"%string else "RUNNING"%string;
  ran_completion_time :
    completion_time p' = if c then ct + e else completion_time p;
  ran_turnaround_time :
    turnaround_time p' = if c then ct + e - arrival_time p else turnaround_time p;
  ran_waiting_time :
    waiting_time p' =
      if c then ct + e - arrival_time p - burst_time p else waiting_time p
}.


(** The scheduler after a slice of [e] units given to the process at [r],
    of pid [pid], with [q'] the ready queue once that process is out of
    it. *)
Definition after_slice (s : Scheduler.t) (q' : list Scheduler.entry) (r : ref)
    (pid e : Z) (c : bool) : Scheduler.t :=
  Scheduler.mk (Scheduler.algorithm s) (Scheduler.time_quantum s) q'
    (Scheduler.current_time s + e)
    (if c then Scheduler.completed_processes s ++ [r]
     else Scheduler.completed_processes s)
    (Scheduler.gantt_chart s ++
     [Scheduler.mk_gantt pid (Scheduler.current_time s) (Scheduler.current_time s + e)]).

(** A process that has run to its end. *)
Definition finished (p : Process.t) : Prop :=
  remaining_time p = 0 ∧ state p = "TERMINATED"%string.

(** Under a known algorithm no process is lost: each one handed to
    [schedule] is still to arrive, ready or completed, and a completed
    process that is neither to arrive nor ready again has finished. *)
Definition accounted (all : list ref) (s : Scheduler.t) (σ : ref → Process.t)
    (idx : nat) : Prop :=
  known (Scheduler.algorithm s) ∧
  Scheduler.completed_processes s ++
    Timing.queue_refs (Scheduler.ready_queue s) ++ drop idx all ≡ₚ all ∧
  ∀ r, r ∈ Scheduler.completed_processes s →
       finished (σ r) ∨ r ∈ Timing.queue_refs (Scheduler.ready_queue s) ∨
       r ∈ drop idx all.

(** Under a name that [add_process] does not know nothing is ever ready:
    the processes admitted so far have been marked READY and that is
    all. *)
Definition ignored (σ0 : ref → Process.t) (all : list ref) (s : Scheduler.t)
    (σ : ref → Process.t) (idx : nat) : Prop :=
  ¬ known (Scheduler.algorithm s) ∧
  Scheduler.ready_queue s = [] ∧ Scheduler.completed_processes s = [] ∧
  Scheduler.gantt_chart s = [] ∧
  ∀ r, σ r = (if bool_decide (r ∈ take idx all)
              then set_state "READY" (σ0 r) else σ0 r).

(** Under FCFS the ready queue holds the processes themselves, and the
    processes completed, ready and still to arrive are, in this order, the
    list sorted by arrival. *)
Definition in_order (all : list ref) (s : Scheduler.t) (σ : ref → Process.t)
    (idx : nat) : Prop :=
  Scheduler.algorithm s = "FCFS"%string ∧
  Scheduler.ready_queue s =
    Scheduler.EProc <$> Timing.queue_refs (Scheduler.ready_queue s) ∧
  Scheduler.completed_processes s ++
    Timing.queue_refs (Scheduler.ready_queue s) ++ drop idx all = all.

(** A list of processes in the order of their arrival times. *)
Fixpoint by_arrival (σ : ref → Process.t) (l : list ref) : Prop :=
  match l with
  | [] => True
  | x :: rest =>
      Forall (λ y, arrival_time (σ x) ≤ arrival_time (σ y)) rest ∧ by_arrival σ rest
  end.








(** A policy that does not preempt gives every process one slice: those
    still to arrive or ready have not run, the completed ones ran from
    [start_time] to [completion_time] without a break, and the chart has
    their slices in the order of completion. *)
Definition slice_of (σ : ref → Process.t) (r : ref) : Z * Z * Z :=
  (pid (σ r), start_time (σ r), completion_time (σ r)).

Definition unpreempted (all : list ref) (s : Scheduler.t) (σ : ref → Process.t)
    (idx : nat) : Prop :=
  Scheduler.algorithm s ≠ "RR"%string ∧
  NoDup (Scheduler.completed_processes s ++
         Timing.queue_refs (Scheduler.ready_queue s) ++ drop idx all) ∧
  (∀ r, r ∈ Timing.queue_refs (Scheduler.ready_queue s) ++ drop idx all →
        start_time (σ r) = -1 ∧ remaining_time (σ r) = burst_time (σ r)) ∧
  (∀ r, r ∈ Scheduler.completed_processes s →
        completion_time (σ r) = start_time (σ r) + burst_time (σ r) ∧
        response_time (σ r) = start_time (σ r) - arrival_time (σ r) ∧
        waiting_time (σ r) = response_time (σ r)) ∧
  Scheduler.trace s = slice_of σ <$> Scheduler.completed_processes s.





(** Under RR with a quantum that is not positive, some process that is
    waiting or ready needs more than the quantum. *)
Definition stalled (all : list ref) (s : Scheduler.t) (σ : ref → Process.t)
    (idx : nat) : Prop :=
  Scheduler.algorithm s = "RR"%string ∧ Scheduler.time_quantum s ≤ 0 ∧
  ∃ r, (r ∈ drop idx all ∨ r ∈ Timing.queue_refs (Scheduler.ready_queue s)) ∧
       Scheduler.time_quantum s < remaining_time (σ r).

(** The length of the slice that [schedule] gives, before [execute] cuts
    it to what the process still needs. *)
Definition time_slice (s : Scheduler.t) (p : Process.t) : Z :=
  if String.eqb (Scheduler.algorithm s) "RR" then Scheduler.time_quantum s
  else remaining_time p.

End Run.

(* ===================================================================== *)
(** * Vocabulary for the placement strategies *)
(* ===================================================================== *)

Module Placement.

(** What the loop of [_best_fit] has found after the blocks of [blocks]. *)
Definition best_so_far (objs : ref → MemoryBlock.t) (size : Z) (blocks : list ref)
    (acc : option ref * option Z) : Prop :=
  match acc with
  | (Some r, Some d) =>
      d = MemoryBlock.size (objs r) - size ∧
      ∃ i, blocks !! i = Some r ∧ MemoryManager.fits (objs r) size = true ∧
           ∀ j r', blocks !! j = Some r' → MemoryManager.fits (objs r') size = true →
             MemoryBlock.size (objs r) < MemoryBlock.size (objs r') ∨
             (MemoryBlock.size (objs r) = MemoryBlock.size (objs r') ∧ (i ≤ j)%nat)
  | (None, None) => ∀ r', r' ∈ blocks → MemoryManager.fits (objs r') size = false
  | _ => False
  end.

(** What the loop of [_worst_fit] has found after the blocks of [blocks]. *)
Definition worst_so_far (objs : ref → MemoryBlock.t) (size : Z) (blocks : list ref)
    (acc : option ref * Z) : Prop :=
  match acc with
  | (Some r, max_size) =>
      max_size = MemoryBlock.size (objs r) ∧
      ∃ i, blocks !! i = Some r ∧ MemoryManager.fits (objs r) size = true ∧
           ∀ j r', blocks !! j = Some r' → MemoryManager.fits (objs r') size = true →
             MemoryBlock.size (objs r') < MemoryBlock.size (objs r) ∨
             (MemoryBlock.size (objs r') = MemoryBlock.size (objs r) ∧ (i ≤ j)%nat)
  | (None, max_size) =>
      max_size = -1 ∧
      ∀ r', r' ∈ blocks → MemoryManager.fits (objs r') size = true → MemoryBlock.size (objs r') < 0
  end.

(** The three names that [allocate] knows. *)
Definition known (strategy : string) : Prop :=
  strategy = "First-Fit"%string ∨ strategy = "Best-Fit"%string ∨
  strategy = "Worst-Fit"%string.

(** The allocated blocks of the manager, in list order. *)
Definition used_blocks (m : MemoryManager.t) : list MemoryBlock.t :=
  filter (λ b, MemoryBlock.allocated b = true) (MemoryManager.block_list m).

(** A free block names no owner. *)
Definition tidy (b : MemoryBlock.t) : Prop :=
  MemoryBlock.allocated b = false → MemoryBlock.process_id b = None.

(** The ownership record and the block list agree: the list is not
    empty, every allocated block carries the pid of an entry of the
    record, no two allocated blocks carry the same pid, and every entry of
    the record leads to an allocated block of the list that carries its
    pid. *)
Definition owned (m : MemoryManager.t) : Prop :=
  MemoryManager.memory_blocks m ≠ [] ∧
  Forall (λ b, ∃ pid, MemoryBlock.process_id b = Some pid ∧
                      is_Some (MemoryManager.allocated_blocks m !! pid))
         (used_blocks m) ∧
  NoDup (MemoryBlock.process_id <$> used_blocks m) ∧
  ∀ pid r, MemoryManager.allocated_blocks m !! pid = Some r →
    r ∈ MemoryManager.memory_blocks m ∧
    MemoryBlock.allocated (MemoryManager.objects m r) = true ∧
    MemoryBlock.process_id (MemoryManager.objects m r) = Some pid.

(** A sequence of calls that never allocates for a pid that holds memory
    already. *)
Fixpoint fresh_pids (m : MemoryManager.t) (calls : list MemoryManager.call) : Prop :=
  match calls with
  | [] => True
  | c :: rest =>
      match c with
      | MemoryManager.Allocate process =>
          MemoryManager.allocated_blocks m !! Process.pid process = None
      | MemoryManager.Deallocate _ => True
      end ∧
      fresh_pids (MemoryManager.do_call m c) rest
  end.

(** A block of the list that is allocated and that no entry of the
    ownership record leads to. *)
Definition orphan (m : MemoryManager.t) (r : ref) : Prop :=
  r ∈ MemoryManager.memory_blocks m ∧
  MemoryBlock.allocated (MemoryManager.objects m r) = true ∧
  ∀ pid, MemoryManager.allocated_blocks m !! pid ≠ Some r.

(** The states a fresh manager reaches through calls that ask for a
    positive amount and never allocate for a pid that holds memory. *)
Definition reached (total : Z) (strat : string) (m : MemoryManager.t) : Prop :=
  ∃ calls, m = MemoryManager.run (MemoryManager.__init__ total strat) calls ∧
           Forall Layout.valid_call calls ∧
           fresh_pids (MemoryManager.__init__ total strat) calls.

End Placement.

(* ===================================================================== *)
(** * Sample runs *)
(* ===================================================================== *)

Module Demo.

(** Three processes that ask for 30, 50 and 20 MB. *)
Definition p1 : Process.t := Process.__init__ 1 0 5 30 0.
Definition p2 : Process.t := Process.__init__ 2 1 3 50 0.
Definition p3 : Process.t := Process.__init__ 3 2 2 20 0.

(** A manager of 100 MB and a sequence of calls on it. *)
Definition manager : MemoryManager.t := MemoryManager.__init__ 100 "First-Fit".

Definition calls : list MemoryManager.call :=
  [MemoryManager.Allocate p1; MemoryManager.Allocate p2;
   MemoryManager.Deallocate p1; MemoryManager.Allocate p3;
   MemoryManager.Deallocate p2].

(** A store with three processes of burst 4 that arrive at 0, 1 and 2,
    and the list that [schedule] is handed. *)
Definition store : ref → Process.t :=
  Scheduler.store_of
    [Process.__init__ 1 0 4 30 0; Process.__init__ 2 1 4 50 0;
     Process.__init__ 3 2 4 20 0].

Definition processes : list ref := [0; 1; 2]%nat.

(** Two processes for Round-Robin with quantum 2: the first arrives at 0
    and needs 4 units, the second arrives at 1, during the first slice,
    and needs 2. *)
Definition rr_store : ref → Process.t :=
  Scheduler.store_of [Process.__init__ 1 0 4 30 0; Process.__init__ 2 1 2 50 0].

Definition rr_processes : list ref := [0; 1]%nat.



Definition sjf_store : ref → Process.t :=
  Scheduler.store_of [Process.__init__ 1 0 3 10 5; Process.__init__ 2 0 3 10 1].

Definition sjf_processes : list ref := [0; 1]%nat.

(** [p1] and the manager after [allocate(p1)]. *)
Definition manager1 : MemoryManager.t := (MemoryManager.allocate manager p1).1.2.
Definition p1_allocated : Process.t := (MemoryManager.allocate manager p1).2.

End Demo.

(* ===================================================================== *)
(** * Properties of the memory manager *)
(* ===================================================================== *)

Section MemoryFacts.
Import MemoryManager.

Implicit Types (objs : ref → MemoryBlock.t) (blocks : list ref).
Implicit Types (b : MemoryBlock.t) (V : list MemoryBlock.t).

Lemma merge_loop_unfold objs blocks i :
  merge_loop objs blocks i =
  match merge_step objs blocks i with
  | Some (objs', blocks', i') => merge_loop objs' blocks' i'
  | None => (objs, blocks)
  end.
Proof. funelim (merge_loop objs blocks i); by rewrite e. Qed.

(** Writing through a reference changes one position of the list of
    values, as long as the list holds each object once. *)
Lemma fmap_insert_fresh objs blocks r b :
  r ∉ blocks → <[r := b]> objs <$> blocks = objs <$> blocks.
Proof.
  intros Hr. apply list_fmap_ext. intros i x Hx.
  apply fn_lookup_insert_ne. intros ->. apply Hr. by eapply list_elem_of_lookup_2.
Qed.

Lemma fmap_insert_nodup objs pre r post b :
  NoDup (pre ++ r :: post) →
  <[r := b]> objs <$> (pre ++ r :: post) = (objs <$> pre) ++ b :: (objs <$> post).
Proof.
  intros Hnd. apply NoDup_app in Hnd as (_ & Hpre & Hpost).
  apply NoDup_cons in Hpost as [Hpost _].
  rewrite fmap_app, fmap_cons, fn_lookup_insert.
  rewrite !fmap_insert_fresh; [done|done|]. intros Hin. apply (Hpre r Hin). left.
Qed.

(** ** The merge loop on the list of values *)

Lemma merge_step_exit objs pre post :
  (length post ≤ 1)%nat → merge_step objs (pre ++ post) (length pre) = None.
Proof.
  intros Hlen. unfold merge_step. rewrite length_app.
  destruct (_ <? _)%nat eqn:Hlt; [|done]. apply Nat.ltb_lt in Hlt. lia.
Qed.

Lemma merge_step_pair objs pre r1 r2 rest :
  merge_step objs (pre ++ r1 :: r2 :: rest) (length pre) =
  if negb (MemoryBlock.allocated (objs r1)) && negb (MemoryBlock.allocated (objs r2))
  then Some (<[r1 := MemoryBlock.set_size
                       (MemoryBlock.size (objs r1) + MemoryBlock.size (objs r2))
                       (objs r1)]> objs,
             pre ++ r1 :: rest, length pre)
  else Some (objs, pre ++ r1 :: r2 :: rest, S (length pre)).
Proof.
  unfold merge_step. rewrite length_app. simpl length.
  destruct (_ <? _)%nat eqn:Hlt; [|apply Nat.ltb_ge in Hlt; lia].
  rewrite !list_lookup_total_alt.
  rewrite (lookup_app_r pre _ (length pre)) by lia.
  rewrite (lookup_app_r pre _ (S (length pre))) by lia.
  replace (length pre - length pre)%nat with 0%nat by lia.
  replace (S (length pre) - length pre)%nat with 1%nat by lia. simpl.
  destruct (_ && _); [|done].
  do 3 f_equal.
  pose proof (delete_middle (pre ++ [r1]) rest r2) as Hdel.
  rewrite length_app, Nat.add_1_r, <- !app_assoc in Hdel. exact Hdel.
Qed.

Lemma merge_loop_view post : ∀ objs pre,
  NoDup (pre ++ post) →
  ∃ objs' blocks',
    merge_loop objs (pre ++ post) (length pre) = (objs', blocks') ∧
    objs' <$> blocks' = (objs <$> pre) ++ Layout.coalesce (objs <$> post) ∧
    NoDup blocks' ∧ blocks' ⊆ pre ++ post.
Proof.
  remember (length post) as n eqn:Hn. revert post Hn.
  induction n as [n IH] using lt_wf_ind. intros post -> objs pre Hnd.
  rewrite merge_loop_unfold.
  destruct post as [|r1 [|r2 rest]].
  - rewrite merge_step_exit by (simpl; lia).
    exists objs, (pre ++ []). rewrite !app_nil_r. by rewrite app_nil_r in Hnd.
  - rewrite merge_step_exit by (simpl; lia).
    exists objs, (pre ++ [r1]). by rewrite fmap_app.
  - rewrite merge_step_pair.
    destruct (_ && _) eqn:Hfree.
    + set (merged := MemoryBlock.set_size _ _).
      assert (Hnd' : NoDup (pre ++ r1 :: rest)).
      { eapply sublist_NoDup; [exact Hnd|]. apply sublist_app; [done|].
        apply sublist_skip, sublist_cons, reflexivity. }
      destruct (IH (length (r1 :: rest)) ltac:(simpl; lia) (r1 :: rest) eq_refl
                  (<[r1 := merged]> objs) pre Hnd')
        as (objs' & blocks' & -> & Hview & Hnd'' & Hsub).
      exists objs', blocks'. split_and!; [done| |done|].
      * rewrite Hview. apply NoDup_app in Hnd' as (_ & Hpre & Hpost).
        apply NoDup_cons in Hpost as [Hpost _].
        rewrite fmap_cons, fn_lookup_insert.
        rewrite !fmap_insert_fresh;
          [|done|intros Hin; apply (Hpre r1 Hin); left].
        simpl. by rewrite Hfree.
      * intros x Hx. apply Hsub in Hx. set_solver.
    + destruct (IH (length (r2 :: rest)) ltac:(simpl; lia) (r2 :: rest) eq_refl
                  objs (pre ++ [r1])) as (objs' & blocks' & Heq & Hview & Hnd'' & Hsub).
      { by rewrite <- app_assoc. }
      rewrite length_app, Nat.add_1_r, <- app_assoc in Heq. simpl in Heq.
      exists objs', blocks'. split_and!; [done| |done|].
      * rewrite Hview, fmap_app, <- app_assoc. simpl. by rewrite Hfree.
      * intros x Hx. apply Hsub in Hx. set_solver.
Qed.

(** ** What coalescing keeps and what it achieves *)

Lemma coalesce_from_contiguous rest : ∀ cur a,
  Layout.contiguous_from a (cur :: rest) →
  Layout.contiguous_from a (Layout.coalesce_from cur rest).
Proof.
  induction rest as [|nb rest IH]; intros cur a; [done|].
  simpl. intros (Ha & Hnb & Hrest).
  destruct (_ && _).
  - apply IH. simpl. split; [done|]. by rewrite Z.add_assoc.
  - simpl. split; [done|]. apply IH. by simpl.
Qed.

Lemma coalesce_from_total_size rest : ∀ cur,
  Layout.total_size (Layout.coalesce_from cur rest) = Layout.total_size (cur :: rest).
Proof.
  induction rest as [|nb rest IH]; intros cur; [done|].
  simpl. destruct (_ && _).
  - rewrite IH. simpl. lia.
  - simpl. rewrite IH. simpl. lia.
Qed.

Lemma coalesce_from_positive rest : ∀ cur,
  Forall (λ b, 0 < MemoryBlock.size b) (cur :: rest) →
  Forall (λ b, 0 < MemoryBlock.size b) (Layout.coalesce_from cur rest).
Proof.
  induction rest as [|nb rest IH]; intros cur Hall; [done|].
  apply Forall_cons in Hall as [Hcur Hall]. pose proof Hall as Hall'.
  apply Forall_cons in Hall' as [Hnb Hrest].
  simpl. destruct (_ && _).
  - apply IH. constructor; [simpl; lia|done].
  - constructor; [done|]. by apply IH.
Qed.

(** Merging only grows blocks: every block of the result is at least as
    large as the block of the input it starts from. *)
Lemma coalesce_from_grows rest : ∀ cur,
  Forall (λ b, 0 < MemoryBlock.size b) (cur :: rest) →
  Forall (λ b', ∃ b, b ∈ cur :: rest ∧ MemoryBlock.start b' = MemoryBlock.start b ∧
                     MemoryBlock.size b ≤ MemoryBlock.size b')
         (Layout.coalesce_from cur rest).
Proof.
  induction rest as [|nb rest IH]; intros cur Hall.
  { simpl. constructor; [|done]. exists cur. split; [left|done]. }
  apply Forall_cons in Hall as [Hcur Hall]. pose proof Hall as Hall'.
  apply Forall_cons in Hall' as [Hnb Hrest].
  simpl. destruct (_ && _).
  - set (merged := MemoryBlock.set_size _ _).
    assert (Hm : Forall (λ b, 0 < MemoryBlock.size b) (merged :: rest)).
    { constructor; [simpl; lia|done]. }
    eapply Forall_impl; [exact (IH merged Hm)|].
    intros b' (b & Hin & Hs & Hle). apply elem_of_cons in Hin as [->|Hin].
    + exists cur. split; [left|]. simpl in *. split; [done|lia].
    + exists b. split; [by do 2 right|done].
  - constructor.
    + exists cur. split; [left|done].
    + eapply Forall_impl; [exact (IH nb Hall)|].
      intros b' (b & Hin & Hs & Hle). exists b. split; [by right|done].
Qed.

Lemma coalesce_from_head rest : ∀ cur,
  ∃ b V, Layout.coalesce_from cur rest = b :: V ∧
         MemoryBlock.allocated b = MemoryBlock.allocated cur.
Proof.
  induction rest as [|nb rest IH]; intros cur; simpl; [by eauto|].
  destruct (_ && _); [|by eauto].
  destruct (IH (MemoryBlock.set_size
                  (MemoryBlock.size cur + MemoryBlock.size nb) cur))
    as (b & V & -> & Hb). by eauto.
Qed.

Lemma coalesce_from_no_adjacent_free rest : ∀ cur,
  Layout.no_adjacent_free (Layout.coalesce_from cur rest).
Proof.
  induction rest as [|nb rest IH]; intros cur; [done|].
  simpl. destruct (_ && _) eqn:Hfree; [apply IH|].
  destruct (coalesce_from_head rest nb) as (b & V & Heq & Hb).
  specialize (IH nb). rewrite Heq in *. simpl. split; [|done].
  rewrite Hb. destruct (MemoryBlock.allocated cur), (MemoryBlock.allocated nb);
    simpl in Hfree; auto; discriminate.
Qed.

Lemma coalesce_contiguous a V :
  Layout.contiguous_from a V → Layout.contiguous_from a (Layout.coalesce V).
Proof. destruct V; [done|]. apply coalesce_from_contiguous. Qed.

Lemma coalesce_total_size V :
  Layout.total_size (Layout.coalesce V) = Layout.total_size V.
Proof. destruct V; [done|]. apply coalesce_from_total_size. Qed.

Lemma coalesce_positive V :
  Forall (λ b, 0 < MemoryBlock.size b) V →
  Forall (λ b, 0 < MemoryBlock.size b) (Layout.coalesce V).
Proof. destruct V; [done|]. apply coalesce_from_positive. Qed.

Lemma coalesce_no_adjacent_free V : Layout.no_adjacent_free (Layout.coalesce V).
Proof. destruct V; [done|]. apply coalesce_from_no_adjacent_free. Qed.

(** ** From the recursive layout to positions *)

Lemma contiguous_from_app a V1 V2 :
  Layout.contiguous_from a (V1 ++ V2) ↔
  Layout.contiguous_from a V1 ∧ Layout.contiguous_from (a + Layout.total_size V1) V2.
Proof.
  revert a. induction V1 as [|b V1 IH]; intros a; simpl.
  - rewrite Z.add_0_r. tauto.
  - rewrite IH, Z.add_assoc. tauto.
Qed.

Lemma total_size_app V1 V2 :
  Layout.total_size (V1 ++ V2) = Layout.total_size V1 + Layout.total_size V2.
Proof. induction V1 as [|b V1 IH]; simpl; lia. Qed.

Lemma contiguous_from_lower V : ∀ a j bj,
  Layout.contiguous_from a V → Forall (λ b, 0 < MemoryBlock.size b) V →
  V !! j = Some bj → a ≤ MemoryBlock.start bj.
Proof.
  induction V as [|b V IH]; intros a j bj Hc Hpos Hj; [done|].
  destruct Hc as [Hb Hc]. apply Forall_cons in Hpos as [Hpb Hpos].
  destruct j as [|j]; simplify_eq/=; [lia|].
  specialize (IH _ _ _ Hc Hpos Hj). lia.
Qed.

Lemma contiguous_from_upper V : ∀ a j bj,
  Layout.contiguous_from a V → Forall (λ b, 0 < MemoryBlock.size b) V →
  V !! j = Some bj → MemoryBlock.start bj + MemoryBlock.size bj ≤ a + Layout.total_size V.
Proof.
  induction V as [|b V IH]; intros a j bj Hc Hpos Hj; [done|].
  destruct Hc as [Hb Hc]. apply Forall_cons in Hpos as [Hpb Hpos].
  destruct j as [|j]; simplify_eq/=.
  - assert (0 ≤ Layout.total_size V); [|lia].
    clear -Hpos. induction Hpos; simpl; lia.
  - specialize (IH _ _ _ Hc Hpos Hj). lia.
Qed.

Lemma contiguous_from_non_overlapping V : ∀ a,
  Layout.contiguous_from a V → Forall (λ b, 0 < MemoryBlock.size b) V →
  Layout.non_overlapping V.
Proof.
  induction V as [|b V IH]; intros a Hc Hpos i j bi bj Hi Hj Hlt; [done|].
  destruct Hc as [Hb Hc]. apply Forall_cons in Hpos as [Hpb Hpos].
  destruct j as [|j]; [lia|]. destruct i as [|i]; simplify_eq/=.
  - pose proof (contiguous_from_lower _ _ _ _ Hc Hpos Hj). lia.
  - eapply (IH _ Hc Hpos i j); eauto with lia.
Qed.

Lemma contiguous_from_contiguous V : ∀ a,
  Layout.contiguous_from a V → Layout.contiguous V.
Proof.
  induction V as [|b V IH]; intros a Hc i b1 b2 H1 H2; [done|].
  destruct Hc as [Hb Hc]. destruct i as [|i]; simplify_eq/=.
  - destruct V as [|b' V]; simplify_eq/=. by destruct Hc as [-> _].
  - by eapply (IH _ Hc i).
Qed.

Lemma contiguous_from_covers V : ∀ a x,
  Layout.contiguous_from a V → Forall (λ b, 0 < MemoryBlock.size b) V →
  a ≤ x < a + Layout.total_size V →
  ∃ i b, V !! i = Some b ∧ MemoryBlock.start b ≤ x < MemoryBlock.start b + MemoryBlock.size b.
Proof.
  induction V as [|b V IH]; intros a x Hc Hpos Hx; simpl in *; [lia|].
  destruct Hc as [Hb Hc]. apply Forall_cons in Hpos as [Hpb Hpos].
  destruct (decide (x < a + MemoryBlock.size b)) as [Hlt|Hge].
  - exists 0%nat, b. split; [done|lia].
  - destruct (IH (a + MemoryBlock.size b) x Hc Hpos ltac:(lia)) as (i & b' & Hi & Hin).
    by exists (S i), b'.
Qed.

Lemma layout_partition total V :
  Layout.contiguous_from 0 V → Forall (λ b, 0 < MemoryBlock.size b) V →
  Layout.total_size V = total →
  Layout.partition_invariant total V.
Proof.
  intros Hc Hpos Htot.
  pose proof (contiguous_from_non_overlapping V 0 Hc Hpos) as Hno.
  split_and!; [|by eapply contiguous_from_contiguous|done|done|].
  - intros i j bi bj Hi Hj Hlt. specialize (Hno i j bi bj Hi Hj Hlt).
    pose proof (Forall_lookup_1 _ _ _ _ Hpos Hi) as Hp. simpl in Hp. lia.
  - intros x Hx. rewrite <- Htot in Hx.
    destruct (contiguous_from_covers V 0 x Hc Hpos Hx) as (i & b & Hi & Hin).
    exists i, b. split_and!; [done|lia|lia|].
    intros j b' Hj Hin'.
    destruct (Nat.lt_trichotomy j i) as [Hlt|[->|Hlt]]; [|done|].
    + specialize (Hno j i b' b Hj Hi Hlt). lia.
    + specialize (Hno i j b b' Hi Hj Hlt). lia.
Qed.

(** ** The three searches return a free block of the list that fits *)

Lemma first_fit_loop_found objs blocks size r :
  first_fit_loop objs blocks size = Some r → r ∈ blocks ∧ fits (objs r) size = true.
Proof.
  induction blocks as [|x blocks IH]; simpl; [done|].
  destruct (fits (objs x) size) eqn:Hx.
  - intros [= ->]. split; [left|done].
  - intros Hr. destruct (IH Hr). split; [by right|done].
Qed.

Lemma best_fit_fold objs size blocks : ∀ acc r,
  (fold_left (best_fit_step objs size) blocks acc).1 = Some r →
  acc.1 = Some r ∨ (r ∈ blocks ∧ fits (objs r) size = true).
Proof.
  induction blocks as [|x blocks IH]; intros acc r; simpl; [by left|].
  intros Hr. destruct (IH _ _ Hr) as [Hacc|[Hin Hfit]]; [|right; split; [by right|done]].
  unfold best_fit_step in Hacc.
  destruct (fits (objs x) size) eqn:Hx; [|by left].
  destruct (acc.2) as [d|].
  - destruct (_ <? d); [|by left]. simplify_eq/=. right. split; [left|done].
  - simplify_eq/=. right. split; [left|done].
Qed.

Lemma worst_fit_fold objs size blocks : ∀ acc r,
  (fold_left (worst_fit_step objs size) blocks acc).1 = Some r →
  acc.1 = Some r ∨ (r ∈ blocks ∧ fits (objs r) size = true).
Proof.
  induction blocks as [|x blocks IH]; intros acc r; simpl; [by left|].
  intros Hr. destruct (IH _ _ Hr) as [Hacc|[Hin Hfit]]; [|right; split; [by right|done]].
  unfold worst_fit_step in Hacc.
  destruct (fits (objs x) size) eqn:Hx; [|by left].
  destruct (_ <? _); [|by left]. simplify_eq/=. right. split; [left|done].
Qed.

Lemma suitable_block_found m size r :
  suitable_block m size = Some r →
  r ∈ memory_blocks m ∧ fits (objects m r) size = true.
Proof.
  unfold suitable_block, _first_fit, _best_fit, _worst_fit.
  repeat case_match; try done.
  - apply first_fit_loop_found.
  - intros Hr. by destruct (best_fit_fold _ _ _ _ _ Hr).
  - intros Hr. by destruct (worst_fit_fold _ _ _ _ _ Hr).
Qed.

(** ** [allocate] on the list of values *)

Lemma index_middle pre r post : r ∉ pre → index r (pre ++ r :: post) = length pre.
Proof.
  induction pre as [|x pre IH]; simpl; intros Hr.
  - by rewrite Nat.eqb_refl.
  - apply not_elem_of_cons in Hr as [Hne Hr].
    destruct (Nat.eqb_spec x r); [congruence|]. by rewrite IH.
Qed.

Lemma list_insert_at_middle {A} (pre : list A) r x post :
  list_insert_at (length pre + 1) x (pre ++ r :: post) = pre ++ r :: x :: post.
Proof.
  unfold list_insert_at.
  replace (length pre + 1)%nat with (length (pre ++ [r])) by (rewrite length_app; done).
  rewrite (cons_middle r pre post), app_assoc.
  rewrite take_app_length, drop_app_length. by rewrite <- app_assoc.
Qed.

Lemma allocate_failure m process :
  suitable_block m (Process.memory_required process) = None →
  allocate m process = (false, m, process).
Proof. unfold allocate. by intros ->. Qed.

Lemma allocate_success m process r :
  Layout.store_ok m →
  suitable_block m (Process.memory_required process) = Some r →
  ∃ pre post m',
    allocate m process =
      (true, m',
       Process.set_memory_end
         (MemoryBlock.start (objects m r) + Process.memory_required process - 1)
         (Process.set_memory_start (MemoryBlock.start (objects m r))
            (Process.set_memory_allocated true process))) ∧
    memory_blocks m = pre ++ r :: post ∧
    fits (objects m r) (Process.memory_required process) = true ∧
    block_list m' =
      (objects m <$> pre) ++ Layout.granted (objects m r) process ::
      Layout.remainder (objects m r) process ++ (objects m <$> post) ∧
    total_memory m' = total_memory m ∧
    strategy m' = strategy m ∧
    allocated_blocks m' = <[Process.pid process := r]> (allocated_blocks m) ∧
    Layout.store_ok m'.
Proof.
  intros [Hnd Hlt] Hsuit.
  destruct (suitable_block_found _ _ _ Hsuit) as [Hin Hfit].
  apply list_elem_of_split in Hin as (pre & post & Hblocks).
  rewrite Hblocks in Hnd, Hlt.
  assert (Hpre : r ∉ pre).
  { apply NoDup_app in Hnd as (_ & Hpre & _). intros Hin. apply (Hpre r Hin). left. }
  assert (Hr : (r < next_ref m)%nat).
  { apply Forall_app in Hlt as [_ Hlt]. by apply Forall_cons in Hlt as [? _]. }
  assert (Hfresh : next_ref m ∉ pre ++ r :: post).
  { intros Hin. pose proof (proj1 (Forall_forall _ _) Hlt _ Hin). simpl in *. lia. }
  unfold allocate. rewrite Hsuit. unfold Layout.remainder, block_list.
  destruct (_ <? _) eqn:Hsplit; simpl.
  - eexists pre, post, _. split; [reflexivity|]. simpl.
    rewrite Hblocks, index_middle, list_insert_at_middle by done.
    assert (Hnd' : NoDup (pre ++ r :: next_ref m :: post)).
    { apply NoDup_app in Hnd as (Hnd1 & Hnd2 & Hnd3).
      apply NoDup_cons in Hnd3 as [Hr3 Hnd3].
      apply NoDup_app. split; [done|]. split.
      - intros x Hx Hx'. apply elem_of_cons in Hx' as [->|Hx']; [done|].
        apply elem_of_cons in Hx' as [->|Hx'].
        + apply Hfresh. apply elem_of_app. by left.
        + apply (Hnd2 x Hx). by right.
      - apply NoDup_cons. split.
        + apply not_elem_of_cons. split; [lia|done].
        + apply NoDup_cons. split; [|done].
          intros Hx. apply Hfresh. apply elem_of_app. right. by right. }
    split_and!; try done.
    + rewrite fmap_insert_nodup by done.
      rewrite fn_lookup_insert_ne by lia.
      f_equal.
      * apply fmap_insert_fresh. intros Hx. apply Hfresh. apply elem_of_app. by left.
      * f_equal. rewrite fmap_cons, fn_lookup_insert. f_equal.
        apply fmap_insert_fresh. intros Hx. apply Hfresh. apply elem_of_app.
        right. by right.
    + split; [done|]. simpl.
      apply Forall_app. apply Forall_app in Hlt as [Hlt1 Hlt2].
      apply Forall_cons in Hlt2 as [_ Hlt2].
      split; [eapply Forall_impl; [exact Hlt1|simpl; lia]|].
      constructor; [lia|]. constructor; [lia|].
      eapply Forall_impl; [exact Hlt2|simpl; lia].
  - eexists pre, post, _. split; [reflexivity|]. simpl.
    rewrite Hblocks. split_and!; try done.
    by rewrite fmap_insert_nodup.
Qed.

(** ** Neighbouring free blocks *)

Lemma no_adjacent_free_cons x l :
  Layout.no_adjacent_free (x :: l) ↔ Layout.head_ok x l ∧ Layout.no_adjacent_free l.
Proof. destruct l; simpl; tauto. Qed.

Lemma no_adjacent_free_grant pre : ∀ b b1 post,
  Layout.no_adjacent_free (pre ++ b :: post) →
  MemoryBlock.allocated b1 = true →
  Layout.no_adjacent_free (pre ++ b1 :: post).
Proof.
  induction pre as [|x pre IH]; intros b b1 post Hnaf Hb1.
  - simpl app in *. apply no_adjacent_free_cons in Hnaf as [_ Hnaf].
    apply no_adjacent_free_cons. split; [|done]. destruct post; simpl; auto.
  - simpl app in *. apply no_adjacent_free_cons in Hnaf as [Hx Hnaf].
    apply no_adjacent_free_cons. split; [|by eapply IH].
    destruct pre; simpl in *; auto.
Qed.

Lemma no_adjacent_free_split pre : ∀ b b1 nb post,
  Layout.no_adjacent_free (pre ++ b :: post) →
  MemoryBlock.allocated b = false →
  MemoryBlock.allocated b1 = true →
  Layout.no_adjacent_free (pre ++ b1 :: nb :: post).
Proof.
  induction pre as [|x pre IH]; intros b b1 nb post Hnaf Hb Hb1.
  - simpl app in *. apply no_adjacent_free_cons in Hnaf as [Hhead Hnaf].
    apply no_adjacent_free_cons. split; [simpl; auto|].
    apply no_adjacent_free_cons. split; [|done].
    destruct post as [|c post]; simpl in *; [done|].
    destruct Hhead as [Hhead|Hhead]; [congruence|auto].
  - simpl app in *. apply no_adjacent_free_cons in Hnaf as [Hx Hnaf].
    apply no_adjacent_free_cons. split; [|by eapply IH].
    destruct pre; simpl in *; auto.
Qed.

(** ** The invariant of the block list *)

Lemma init_layout_ok total strat : Layout.layout_ok (__init__ total strat).
Proof.
  unfold Layout.layout_ok, Layout.store_ok, block_list. simpl.
  split_and!; try done.
  - apply NoDup_singleton.
  - constructor; [lia|done].
  - lia.
Qed.

Lemma allocate_total_memory m process :
  total_memory (allocate m process).1.2 = total_memory m.
Proof.
  unfold allocate. destruct (suitable_block _ _); [|done].
  by destruct (_ <? _).
Qed.

Lemma fits_free_le b size :
  fits b size = true → MemoryBlock.allocated b = false ∧ size ≤ MemoryBlock.size b.
Proof.
  unfold fits. intros [Ha Hs]%andb_true_iff. apply Z.leb_le in Hs.
  by destruct (MemoryBlock.allocated b).
Qed.

Lemma allocate_layout_ok m process :
  Layout.layout_ok m → Layout.layout_ok (allocate m process).1.2.
Proof.
  intros (Hstore & Hc & Htot & Hnaf).
  destruct (suitable_block m (Process.memory_required process)) as [r|] eqn:Hsuit;
    [|by rewrite allocate_failure].
  destruct (allocate_success m process r Hstore Hsuit)
    as (pre & post & m' & -> & Hblocks & Hfit & Hview & Htm & _ & _ & Hstore').
  apply fits_free_le in Hfit as [Hfree Hle]. simpl.
  unfold Layout.layout_ok. rewrite Hview, Htm.
  unfold block_list in Hc, Htot, Hnaf.
  rewrite Hblocks, fmap_app, fmap_cons in Hc, Htot, Hnaf.
  apply contiguous_from_app in Hc as [Hc1 [Hstart Hc2]].
  rewrite total_size_app in Htot. simpl in Htot.
  unfold Layout.remainder. destruct (_ <? _) eqn:Hsplit.
  - split_and!; [done| | |].
    + apply contiguous_from_app. split; [done|]. simpl.
      split_and!; [done|lia|].
      by replace (_ + _ + (_ - _)) with
        (0 + Layout.total_size (objects m <$> pre) + MemoryBlock.size (objects m r))
        by lia.
    + rewrite total_size_app. simpl. lia.
    + by eapply no_adjacent_free_split.
  - apply Z.ltb_ge in Hsplit.
    assert (Heq : Process.memory_required process = MemoryBlock.size (objects m r)) by lia.
    split_and!; [done| | |].
    + apply contiguous_from_app. split; [done|]. simpl. split; [done|].
      by rewrite Heq.
    + rewrite total_size_app. simpl. lia.
    + by eapply no_adjacent_free_grant.
Qed.

Lemma allocate_positive m process :
  Layout.store_ok m → 0 < Process.memory_required process →
  Layout.sizes_positive (block_list m) →
  Layout.sizes_positive (block_list (allocate m process).1.2).
Proof.
  intros Hstore Hreq Hpos.
  destruct (suitable_block m (Process.memory_required process)) as [r|] eqn:Hsuit;
    [|by rewrite allocate_failure].
  destruct (allocate_success m process r Hstore Hsuit)
    as (pre & post & m' & -> & Hblocks & Hfit & Hview & _).
  simpl. rewrite Hview. unfold Layout.sizes_positive, block_list in *.
  rewrite Hblocks, fmap_app, fmap_cons in Hpos.
  apply Forall_app in Hpos as [Hpre Hpost]. apply Forall_cons in Hpost as [Hb Hpost].
  apply Forall_app. split; [done|]. constructor; [done|].
  apply Forall_app. split; [|done].
  unfold Layout.remainder. destruct (_ <? _) eqn:Hsplit; [|done].
  apply Z.ltb_lt in Hsplit. constructor; [simpl; lia|done].
Qed.

(** Clearing the owner of a block changes neither its start nor its size. *)
Lemma contiguous_from_fmap_ext (f g : ref → MemoryBlock.t) blocks : ∀ a,
  (∀ r, MemoryBlock.start (f r) = MemoryBlock.start (g r)) →
  (∀ r, MemoryBlock.size (f r) = MemoryBlock.size (g r)) →
  Layout.contiguous_from a (g <$> blocks) → Layout.contiguous_from a (f <$> blocks).
Proof.
  induction blocks as [|x blocks IH]; intros a Hs Hz; [done|].
  simpl. intros [Hx Hc]. rewrite Hs, Hz. split; [done|]. by apply IH.
Qed.

Lemma total_size_fmap_ext (f g : ref → MemoryBlock.t) blocks :
  (∀ r, MemoryBlock.size (f r) = MemoryBlock.size (g r)) →
  Layout.total_size (f <$> blocks) = Layout.total_size (g <$> blocks).
Proof.
  intros Hz. induction blocks as [|x blocks IH]; [done|].
  rewrite !fmap_cons. simpl. by rewrite Hz, IH.
Qed.

Lemma sizes_positive_fmap_ext (f g : ref → MemoryBlock.t) blocks :
  (∀ r, MemoryBlock.size (f r) = MemoryBlock.size (g r)) →
  Layout.sizes_positive (g <$> blocks) → Layout.sizes_positive (f <$> blocks).
Proof.
  intros Hz. unfold Layout.sizes_positive. rewrite !Forall_fmap.
  intros Hg. eapply Forall_impl; [exact Hg|]. intros r. simpl. by rewrite Hz.
Qed.

Lemma freed_start objs block r :
  MemoryBlock.start (<[block := Layout.freed (objs block)]> objs r) = MemoryBlock.start (objs r).
Proof.
  destruct (decide (block = r)) as [->|Hne];
    [by rewrite fn_lookup_insert|by rewrite fn_lookup_insert_ne].
Qed.

Lemma freed_size objs block r :
  MemoryBlock.size (<[block := Layout.freed (objs block)]> objs r) = MemoryBlock.size (objs r).
Proof.
  destruct (decide (block = r)) as [->|Hne];
    [by rewrite fn_lookup_insert|by rewrite fn_lookup_insert_ne].
Qed.

Lemma deallocate_failure m process :
  allocated_blocks m !! Process.pid process = None →
  deallocate m process = (false, m, process).
Proof. unfold deallocate. by intros ->. Qed.

Lemma deallocate_success m process block :
  Layout.store_ok m →
  allocated_blocks m !! Process.pid process = Some block →
  ∃ m',
    deallocate m process = (true, m', Process.set_memory_allocated false process) ∧
    block_list m' =
      Layout.coalesce (<[block := Layout.freed (objects m block)]> (objects m)
                         <$> memory_blocks m) ∧
    total_memory m' = total_memory m ∧
    Layout.store_ok m'.
Proof.
  intros [Hnd Hlt] Hown. unfold deallocate. rewrite Hown.
  unfold _merge_free_blocks. simpl.
  destruct (merge_loop_view (memory_blocks m)
              (<[block := Layout.freed (objects m block)]> (objects m)) [] Hnd)
    as (objs' & blocks' & Heq & Hview & Hnd' & Hsub).
  simpl in Heq, Hview, Hsub. unfold Layout.freed in *. rewrite Heq.
  eexists. split; [reflexivity|]. unfold block_list, Layout.store_ok. simpl.
  split_and!; [done|done|done|].
  apply Forall_forall. intros x Hx. apply Hsub in Hx.
  by apply (proj1 (Forall_forall _ _) Hlt).
Qed.

Lemma deallocate_total_memory m process :
  Layout.store_ok m → total_memory (deallocate m process).1.2 = total_memory m.
Proof.
  intros Hstore. destruct (allocated_blocks m !! Process.pid process) as [r|] eqn:Hown.
  - by destruct (deallocate_success m process r Hstore Hown) as (m' & -> & _ & ? & _).
  - by rewrite deallocate_failure.
Qed.

Lemma deallocate_layout_ok m process :
  Layout.layout_ok m → Layout.layout_ok (deallocate m process).1.2.
Proof.
  intros Hok. destruct (allocated_blocks m !! Process.pid process) as [r|] eqn:Hown;
    [|by rewrite deallocate_failure].
  destruct Hok as (Hstore & Hc & Htot & Hnaf).
  destruct (deallocate_success m process r Hstore Hown) as (m' & -> & Hview & Htm & Hstore').
  simpl. unfold Layout.layout_ok. rewrite Hview, Htm. split_and!; [done| | |].
  - apply coalesce_contiguous.
    eapply contiguous_from_fmap_ext; [apply freed_start|apply freed_size|done].
  - rewrite coalesce_total_size, <- Htot. apply total_size_fmap_ext, freed_size.
  - apply coalesce_no_adjacent_free.
Qed.

Lemma deallocate_positive m process :
  Layout.store_ok m →
  Layout.sizes_positive (block_list m) →
  Layout.sizes_positive (block_list (deallocate m process).1.2).
Proof.
  intros Hstore Hpos.
  destruct (allocated_blocks m !! Process.pid process) as [r|] eqn:Hown;
    [|by rewrite deallocate_failure].
  destruct (deallocate_success m process r Hstore Hown) as (m' & -> & Hview & _).
  simpl. rewrite Hview. apply coalesce_positive.
  eapply sizes_positive_fmap_ext; [apply freed_size|done].
Qed.

Lemma run_snoc m calls c : run m (calls ++ [c]) = do_call (run m calls) c.
Proof. unfold run. by rewrite fold_left_app. Qed.

Lemma run_layout_ok total strat calls :
  Layout.layout_ok (run (__init__ total strat) calls) ∧
  total_memory (run (__init__ total strat) calls) = total.
Proof.
  induction calls as [|c calls [IH1 IH2]] using rev_ind.
  - split; [apply init_layout_ok|done].
  - rewrite run_snoc. destruct c as [process|process]; simpl.
    + split; [by apply allocate_layout_ok|by rewrite allocate_total_memory].
    + split; [by apply deallocate_layout_ok|].
      rewrite deallocate_total_memory; [done|apply IH1].
Qed.

Lemma run_positive total strat calls :
  0 < total → Forall Layout.valid_call calls →
  Layout.sizes_positive (block_list (run (__init__ total strat) calls)).
Proof.
  intros Htotal. induction calls as [|c calls IH] using rev_ind; intros Hvalid.
  - constructor; [simpl; lia|done].
  - apply Forall_app in Hvalid as [Hcalls Hc]. apply Forall_cons in Hc as [Hc _].
    rewrite run_snoc. pose proof (run_layout_ok total strat calls) as [[Hstore _] _].
    destruct c as [process|process]; simpl.
    + by apply allocate_positive; [| |apply IH].
    + by apply deallocate_positive; [|apply IH].
Qed.

Lemma no_adjacent_free_lookup V : ∀ i b b',
  Layout.no_adjacent_free V → V !! i = Some b → V !! S i = Some b' →
  MemoryBlock.allocated b = true ∨ MemoryBlock.allocated b' = true.
Proof.
  induction V as [|x V IH]; intros i b b' Hnaf Hi Hi'; [done|].
  apply no_adjacent_free_cons in Hnaf as [Hhead Hnaf].
  destruct i as [|i]; simplify_eq/=.
  - destruct V; simplify_eq/=. done.
  - by eapply IH.
Qed.

(** ** Fragmentation *)

Lemma py_sum_total_size V :
  py_sum (MemoryBlock.size <$> V) = Layout.total_size V.
Proof.
  unfold py_sum.
  assert (H : ∀ a, fold_left Z.add (MemoryBlock.size <$> V) a = a + Layout.total_size V);
    [|by rewrite H].
  induction V as [|b V IH]; intros a; simpl; [lia|]. rewrite IH. lia.
Qed.

Lemma fold_left_max rest : ∀ x,
  (fold_left Z.max rest x = x ∨ fold_left Z.max rest x ∈ rest) ∧
  x ≤ fold_left Z.max rest x ∧
  ∀ y, y ∈ rest → y ≤ fold_left Z.max rest x.
Proof.
  induction rest as [|z rest IH]; intros x; simpl.
  - split_and!; [by left|lia|]. intros y Hy. by apply elem_of_nil in Hy.
  - destruct (IH (Z.max x z)) as (Hin & Hle & Hall). split_and!.
    + destruct Hin as [Heq|Hin]; [|right; by right].
      destruct (Z.max_spec x z) as [[_ Hm]|[_ Hm]]; rewrite Hm in Heq |- *.
      * right. rewrite Heq. left.
      * by left.
    + lia.
    + intros y [->|Hy]%elem_of_cons; [lia|by apply Hall].
Qed.

Lemma py_max_spec l x :
  py_max l = Some x → x ∈ l ∧ ∀ y, y ∈ l → y ≤ x.
Proof.
  destruct l as [|z rest]; [done|]. simpl. intros [= <-].
  destruct (fold_left_max rest z) as (Hin & Hle & Hall). split.
  - destruct Hin as [->|Hin]; [left|by right].
  - intros y [->|Hy]%elem_of_cons; [done|by apply Hall].
Qed.

Lemma get_fragmentation_value m :
  let fb := Layout.free_blocks m in
  let tf := Layout.total_size fb in
  ((fb = [] ∨ tf = 0) ∧ get_fragmentation m = Some 0%Q) ∨
  (fb ≠ [] ∧ tf ≠ 0 ∧
   ∃ lf, lf ∈ MemoryBlock.size <$> fb ∧
         (∀ s, s ∈ MemoryBlock.size <$> fb → s ≤ lf) ∧
         get_fragmentation m = Some ((inject_Z (tf - lf) / inject_Z tf) * 100)%Q).
Proof.
  intros fb tf. unfold get_fragmentation. fold (Layout.free_blocks m). fold fb.
  destruct fb as [|b fb'] eqn:Hfb; [left; by auto|].
  rewrite py_sum_total_size. fold tf.
  destruct (py_max (MemoryBlock.size <$> b :: fb')) as [lf|] eqn:Hmax; [|done].
  apply py_max_spec in Hmax as [Hin Hall]. simpl.
  destruct (tf =? 0) eqn:Htf.
  - left. apply Z.eqb_eq in Htf. by auto.
  - right. apply Z.eqb_neq in Htf. split_and!; [done|done|].
    exists lf. split_and!; [done|done|].
    unfold py_truediv. apply Z.eqb_neq in Htf. by rewrite Htf.
Qed.

Lemma ratio_bounds (a t : Z) :
  0 ≤ a ≤ t → 0 < t → (0 <= inject_Z a / inject_Z t * 100 <= 100)%Q.
Proof.
  intros Ha Ht. destruct t as [|t|t]; try lia.
  unfold Qle, Qdiv, Qmult, Qinv, inject_Z. simpl. split; nia.
Qed.

Lemma member_le_total V b :
  Layout.sizes_positive V → b ∈ V → MemoryBlock.size b ≤ Layout.total_size V.
Proof.
  intros Hpos. induction Hpos as [|x V Hx Hpos IH]; [by intros ?%elem_of_nil|].
  assert (0 ≤ Layout.total_size V) by (clear -Hpos; induction Hpos; simpl; lia).
  intros [->|Hin]%elem_of_cons; simpl; [lia|]. specialize (IH Hin). lia.
Qed.

Lemma address_adjacent_consecutive V a i j b b' :
  Layout.contiguous_from a V → Layout.sizes_positive V →
  V !! i = Some b → V !! j = Some b' →
  MemoryBlock.start b + MemoryBlock.size b = MemoryBlock.start b' →
  j = S i.
Proof.
  intros Hc Hpos Hi Hj Hadj.
  pose proof (contiguous_from_non_overlapping V a Hc Hpos) as Hno.
  pose proof (contiguous_from_contiguous V a Hc) as Hcont.
  pose proof (Forall_lookup_1 _ _ _ _ Hpos Hi) as Hpb.
  pose proof (Forall_lookup_1 _ _ _ _ Hpos Hj) as Hpb'. simpl in *.
  destruct (Nat.lt_trichotomy j i) as [Hlt|[->|Hlt]].
  - specialize (Hno j i b' b Hj Hi Hlt). lia.
  - simplify_eq. lia.
  - destruct (decide (j = S i)) as [|Hne]; [done|].
    destruct (lookup_lt_is_Some_2 V (S i)) as [c Hc'].
    { apply lookup_lt_Some in Hj. lia. }
    pose proof (Forall_lookup_1 _ _ _ _ Hpos Hc') as Hpc. simpl in Hpc.
    specialize (Hcont i b c Hi Hc').
    specialize (Hno (S i) j c b' Hc' Hj ltac:(lia)). lia.
Qed.

Lemma merge_keeps_allocated_blocks m :
  allocated_blocks (_merge_free_blocks m) = allocated_blocks m.
Proof. unfold _merge_free_blocks. by destruct (merge_loop _ _ _). Qed.

(** ** The claims on the memory manager *)

(** C1.  Starting from the single free block of a manager of positive
    size, after any sequence of [allocate] and [deallocate] calls that ask
    for positive amounts of memory the block list is sorted by start
    address, contiguous and non-overlapping, its sizes sum to
    [total_memory], and every address of [[0, total_memory)] lies in
    exactly one block. *)
Theorem partition_invariant_holds total strat calls :
  0 < total → Forall Layout.valid_call calls →
  Layout.partition_invariant total (block_list (run (__init__ total strat) calls)).
Proof.
  intros Htotal Hvalid.
  destruct (run_layout_ok total strat calls) as [(_ & Hc & Htot & _) Htm].
  apply layout_partition; [done|by apply run_positive|by rewrite Htot].
Qed.

(** C10.  Under the same conditions every block of the list has a positive
    size at all times. *)
Theorem block_sizes_positive total strat calls :
  0 < total → Forall Layout.valid_call calls →
  ∀ b, b ∈ block_list (run (__init__ total strat) calls) → 0 < MemoryBlock.size b.
Proof.
  intros Htotal Hvalid b Hb.
  by apply (proj1 (Forall_forall _ _) (run_positive total strat calls Htotal Hvalid)).
Qed.

(** C7.  After every [deallocate] call, successful or not, no two
    neighbours of the block list are both free; and when the calls ask for
    positive amounts of memory, no free block ends where another free
    block starts. *)
Theorem merge_completeness total strat calls process :
  let V := block_list (deallocate (run (__init__ total strat) calls) process).1.2 in
  (∀ i b b', V !! i = Some b → V !! S i = Some b' →
     MemoryBlock.allocated b = true ∨ MemoryBlock.allocated b' = true) ∧
  (0 < total → Forall Layout.valid_call calls →
   ∀ i j b b', V !! i = Some b → V !! j = Some b' →
     MemoryBlock.start b + MemoryBlock.size b = MemoryBlock.start b' →
     MemoryBlock.allocated b = true ∨ MemoryBlock.allocated b' = true).
Proof.
  intros V.
  pose proof (run_layout_ok total strat (calls ++ [Deallocate process])) as [Hok _].
  rewrite run_snoc in Hok. simpl in Hok. fold V in Hok.
  destruct Hok as (_ & Hc & _ & Hnaf). fold V in Hc, Hnaf. split.
  - intros i b b'. by apply no_adjacent_free_lookup.
  - intros Htotal Hvalid i j b b' Hi Hj Hadj.
    assert (Hpos : Layout.sizes_positive V).
    { pose proof (run_positive total strat (calls ++ [Deallocate process]) Htotal) as Hpos.
      rewrite run_snoc in Hpos. apply Hpos. apply Forall_app. split; [done|].
      by constructor. }
    pose proof (address_adjacent_consecutive V 0 i j b b' Hc Hpos Hi Hj Hadj) as ->.
    by eapply no_adjacent_free_lookup.
Qed.

(** C8.  [deallocate] returns false exactly when the pid has no entry in
    the ownership dictionary; a call that returns false changes neither
    the manager nor the process; and for a process that owns a block the
    first call returns true and a second call returns false and changes
    nothing. *)
Theorem deallocate_idempotent_failure m process :
  ((deallocate m process).1.1 = false ↔
     allocated_blocks m !! Process.pid process = None) ∧
  ((deallocate m process).1.1 = false → deallocate m process = (false, m, process)) ∧
  (is_Some (allocated_blocks m !! Process.pid process) →
     ∃ m1 process1,
       deallocate m process = (true, m1, process1) ∧
       deallocate m1 process1 = (false, m1, process1)).
Proof.
  unfold deallocate at 1 2 3 4.
  destruct (allocated_blocks m !! Process.pid process) as [block|] eqn:Hown.
  - split_and!; [split; done|done|]. intros _. eexists _, _. split; [reflexivity|].
    apply deallocate_failure. rewrite merge_keeps_allocated_blocks. simpl.
    apply lookup_delete_eq.
  - split_and!; [done|done|]. by intros [? [=]].
Qed.

(** C5, as the code has it.  A successful [deallocate] clears
    [memory_allocated] and leaves every other field of the process as it
    was: [memory_start] and [memory_end] still hold the addresses that
    [allocate] wrote. *)
Theorem deallocate_clears_flag_only m process m' process' :
  deallocate m process = (true, m', process') →
  Process.memory_allocated process' = false ∧
  Process.memory_start process' = Process.memory_start process ∧
  Process.memory_end process' = Process.memory_end process ∧
  process' = Process.set_memory_allocated false process.
Proof.
  unfold deallocate. destruct (allocated_blocks m !! Process.pid process); [|done].
  by intros [= _ <-].
Qed.

(** C6.  In every state the manager reaches, [get_fragmentation] returns
    without raising; the result is 0 when there is no free block or the
    free sizes sum to 0, and [(total_free - largest_free) / total_free *
    100] over the free blocks otherwise; it is 0 when at most one block is
    free, and it lies between 0 and 100. *)
Theorem get_fragmentation_correct total strat calls :
  0 < total → Forall Layout.valid_call calls →
  let m := run (__init__ total strat) calls in
  let fb := Layout.free_blocks m in
  let tf := Layout.total_size fb in
  ∃ q, get_fragmentation m = Some q ∧
    (fb = [] ∨ tf = 0 → (q == 0)%Q) ∧
    (fb ≠ [] → tf ≠ 0 →
       ∃ lf, lf ∈ MemoryBlock.size <$> fb ∧
             (∀ s, s ∈ MemoryBlock.size <$> fb → s ≤ lf) ∧
             (q == inject_Z (tf - lf) / inject_Z tf * 100)%Q) ∧
    ((length fb ≤ 1)%nat → (q == 0)%Q) ∧
    (0 <= q <= 100)%Q.
Proof.
  intros Htotal Hvalid m fb tf.
  assert (Hpos : Layout.sizes_positive fb).
  { unfold fb, Layout.free_blocks, Layout.sizes_positive.
    apply Forall_forall. intros b [_ Hb]%list_elem_of_filter.
    by apply (proj1 (Forall_forall _ _) (run_positive total strat calls Htotal Hvalid)). }
  assert (Htf : 0 ≤ tf).
  { unfold tf. clear -Hpos. induction Hpos; simpl; lia. }
  pose proof (get_fragmentation_value m) as Hval. cbv zeta in Hval.
  fold fb in Hval. fold tf in Hval.
  destruct Hval as [[Hzero ->]|(Hne & Hnz & lf & Hin & Hmax & ->)].
  - exists 0%Q. split_and!; [done|done| |done|done|done].
    intros Hfb Htf'. by destruct Hzero.
  - assert (Hlf : 0 < lf ≤ tf).
    { apply list_elem_of_fmap in Hin as (b & -> & Hb). split.
      - by apply (proj1 (Forall_forall _ _) Hpos).
      - by apply member_le_total. }
    eexists. split; [reflexivity|]. split; [|split; [|split]].
    + intros [?|?]; done.
    + intros _ _. by exists lf.
    + intros Hlen. destruct fb as [|b [|b2 fb']]; [done| |simpl in Hlen; lia].
      simpl in *. assert (lf = MemoryBlock.size b) as ->.
      { by apply list_elem_of_singleton in Hin. }
      unfold tf. replace (_ + 0 - _) with 0 by lia.
      unfold Qdiv. by rewrite !Qmult_0_l.
    + apply ratio_bounds; lia.
Qed.

Lemma partition_invariant_witness :
  Layout.partition_invariant 100
    (block_list (run (__init__ 100 "First-Fit") Demo.calls)).
Proof.
  apply (partition_invariant_holds 100 "First-Fit" Demo.calls); [lia|].
  repeat constructor.
Defined.

Lemma block_sizes_positive_witness :
  Forall (λ b, 0 < MemoryBlock.size b)
    (block_list (run (__init__ 100 "Best-Fit") Demo.calls)).
Proof.
  apply Forall_forall.
  apply (block_sizes_positive 100 "Best-Fit" Demo.calls); [lia|].
  repeat constructor.
Defined.

Lemma get_fragmentation_witness :
∃ q, get_fragmentation (run (__init__ 100 "Worst-Fit") Demo.calls) = Some q ∧
     (0 <= q <= 100)%Q.
Proof.
assert (Hvalid : Forall Layout.valid_call Demo.calls) by repeat constructor.
pose proof (get_fragmentation_correct 100 "Worst-Fit" Demo.calls eq_refl Hvalid) as Hq.
cbv zeta in Hq. destruct Hq as (q & Hq & _ & _ & _ & Hbound).
exists q. split; [exact Hq|exact Hbound].
Defined.

(** C5, as the claim states it, fails: after [allocate(p1)] on a fresh
    100 MB manager and a successful [deallocate(p1)], [memory_start] and
    [memory_end] are still 0 and 29, the addresses written by [allocate],
    and not the value -1 that [Process.__init__] gives them. *)
Lemma deallocate_keeps_addresses :
  Process.memory_start Demo.p1_allocated = 0 ∧
  Process.memory_end Demo.p1_allocated = 29 ∧
  (deallocate Demo.manager1 Demo.p1_allocated).1.1 = true ∧
  Process.memory_allocated (deallocate Demo.manager1 Demo.p1_allocated).2 = false ∧
  Process.memory_start (deallocate Demo.manager1 Demo.p1_allocated).2 = 0 ∧
  Process.memory_end (deallocate Demo.manager1 Demo.p1_allocated).2 = 29 ∧
  Process.memory_start (Process.__init__ 1 0 5 30 0) = -1 ∧
  Process.memory_end (Process.__init__ 1 0 5 30 0) = -1.
Proof. vm_compute. by repeat split. Qed.

Lemma deallocate_clears_flag_only_witness :
  Process.memory_allocated (deallocate Demo.manager1 Demo.p1_allocated).2 = false ∧
  Process.memory_start (deallocate Demo.manager1 Demo.p1_allocated).2 =
    Process.memory_start Demo.p1_allocated ∧
  Process.memory_end (deallocate Demo.manager1 Demo.p1_allocated).2 =
    Process.memory_end Demo.p1_allocated ∧
  (deallocate Demo.manager1 Demo.p1_allocated).2 =
    Process.set_memory_allocated false Demo.p1_allocated.
Proof.
  apply (deallocate_clears_flag_only Demo.manager1 Demo.p1_allocated
           (deallocate Demo.manager1 Demo.p1_allocated).1.2).
  vm_compute. reflexivity.
Defined.

End MemoryFacts.

(* ===================================================================== *)
(** * Properties of the heap operations *)
(* ===================================================================== *)

Section HeapFacts.
Import Heapq.
Context {A : Type} `{!Inhabited A} (less : A → A → bool).
Implicit Types (heap : list A) (x : A).

Lemma siftdown_loop_unfold heap startpos pos newitem :
  siftdown_loop less heap startpos pos newitem =
  match siftdown_step less heap startpos pos newitem with
  | Some (heap', pos') => siftdown_loop less heap' startpos pos' newitem
  | None => (heap, pos)
  end.
Proof. funelim (siftdown_loop less heap startpos pos newitem); by rewrite e. Qed.

Lemma siftup_loop_unfold heap endpos pos :
  siftup_loop less heap endpos pos =
  match siftup_step less heap endpos pos with
  | Some (heap', pos') => siftup_loop less heap' endpos pos'
  | None => (heap, pos)
  end.
Proof. funelim (siftup_loop less heap endpos pos); by rewrite e. Qed.

Lemma parent_lt pos : (0 < pos → (pos - 1) / 2 < pos)%nat.
Proof. intros Hpos. pose proof (Nat.Div0.mul_div_le (pos - 1) 2). lia. Qed.

(** ** The sift loops permute the list *)

Lemma insert_Permutation heap i x :
  (i < length heap)%nat → <[i := x]> heap ≡ₚ x :: delete i heap.
Proof.
intros Hi.
rewrite (delete_Permutation (<[i := x]> heap) i x) by by apply list_lookup_insert_eq.
f_equiv. revert i Hi. induction heap as [|y heap IH]; intros [|i] Hi; simpl in *;
  try done; try lia. f_equiv. apply IH. lia.
Qed.

(** Filling a hole at [j] after the item at [j] has been copied to [i] is
    a swap. *)
Lemma move_hole_Permutation heap i j x :
  i ≠ j → (i < length heap)%nat → (j < length heap)%nat →
  <[j := x]> (<[i := heap !!! j]> heap) ≡ₚ <[i := x]> heap.
Proof.
intros Hne Hi Hj.
set (y := heap !!! j).
rewrite (insert_Permutation (<[i := y]> heap) j x) by by rewrite length_insert.
rewrite (insert_Permutation heap i x) by done. f_equiv.
apply (Permutation_cons_inv (a := y)).
rewrite <- (insert_Permutation heap i y) by done.
symmetry. apply delete_Permutation.
rewrite list_lookup_insert_ne by done.
unfold y. by apply list_lookup_lookup_total_lt.
Qed.

Lemma siftdown_loop_spec heap startpos pos newitem :
  (pos < length heap)%nat →
  ∃ heap' pos',
    siftdown_loop less heap startpos pos newitem = (heap', pos') ∧
    length heap' = length heap ∧ (pos' ≤ pos)%nat ∧
    <[pos' := newitem]> heap' ≡ₚ <[pos := newitem]> heap.
Proof.
revert heap. induction pos as [pos IH] using lt_wf_ind. intros heap Hpos.
rewrite siftdown_loop_unfold. unfold siftdown_step.
destruct (startpos <? pos)%nat eqn:Hstart; [|by exists heap, pos].
apply Nat.ltb_lt in Hstart.
destruct (less _ _); [|by exists heap, pos].
assert (Hpar : ((pos - 1) / 2 < pos)%nat) by (apply parent_lt; lia).
destruct (IH _ Hpar (<[pos := heap !!! ((pos - 1) / 2)%nat]> heap))
  as (heap' & pos' & -> & Hlen & Hle & Hperm).
{ rewrite length_insert. lia. }
exists heap', pos'. rewrite length_insert in Hlen.
split_and!; [done|done|lia|].
rewrite Hperm. apply move_hole_Permutation; lia.
Qed.

Lemma siftdown_Permutation heap startpos pos :
  (pos < length heap)%nat → _siftdown less heap startpos pos ≡ₚ heap.
Proof.
intros Hpos. unfold _siftdown.
destruct (siftdown_loop_spec heap startpos pos (heap !!! pos) Hpos)
  as (heap' & pos' & -> & _ & _ & ->).
rewrite list_insert_id; [done|]. by apply list_lookup_lookup_total_lt.
Qed.

Lemma siftdown_length heap startpos pos :
  (pos < length heap)%nat → length (_siftdown less heap startpos pos) = length heap.
Proof. intros Hpos. apply Permutation_length. by apply siftdown_Permutation. Qed.

Lemma siftup_loop_spec heap pos newitem : ∀ n,
  n = (length heap - pos)%nat → (pos < length heap)%nat →
  ∃ heap' pos',
    siftup_loop less heap (length heap) pos = (heap', pos') ∧
    length heap' = length heap ∧ (pos' < length heap)%nat ∧
    <[pos' := newitem]> heap' ≡ₚ <[pos := newitem]> heap.
Proof.
intros n. revert heap pos. induction n as [n IH] using lt_wf_ind.
intros heap pos -> Hpos.
rewrite siftup_loop_unfold. unfold siftup_step.
destruct (2 * pos + 1 <? length heap)%nat eqn:Hchild; [|by exists heap, pos].
apply Nat.ltb_lt in Hchild.
set (c := if (_ && _) then _ else _).
assert (Hc : (pos < c < length heap)%nat).
{ unfold c. destruct (_ <? _)%nat eqn:Hr; simpl; [|lia].
  apply Nat.ltb_lt in Hr. destruct (negb _); lia. }
destruct (IH (length heap - c)%nat ltac:(lia) (<[pos := heap !!! c]> heap) c)
  as (heap' & pos' & Heq & Hlen & Hlt & Hperm).
{ by rewrite length_insert. }
{ rewrite length_insert. lia. }
rewrite length_insert in Heq, Hlen, Hlt. rewrite Heq.
exists heap', pos'. split_and!; [done|done|done|].
rewrite Hperm. apply move_hole_Permutation; lia.
Qed.

Lemma siftup_Permutation heap pos :
  (pos < length heap)%nat → _siftup less heap pos ≡ₚ heap.
Proof.
intros Hpos. unfold _siftup.
destruct (siftup_loop_spec heap pos (heap !!! pos) _ eq_refl Hpos)
  as (heap' & pos' & -> & Hlen & Hlt & Hperm).
rewrite siftdown_Permutation by (rewrite length_insert; lia).
rewrite Hperm. rewrite list_insert_id; [done|]. by apply list_lookup_lookup_total_lt.
Qed.

Lemma heappush_Permutation heap x : heappush less heap x ≡ₚ x :: heap.
Proof.
unfold heappush. rewrite siftdown_Permutation.
- by rewrite Permutation_app_comm.
- rewrite length_app. simpl. lia.
Qed.

Lemma heappop_snoc front lastelt :
  heappop less (front ++ [lastelt]) =
  match front with
  | [] => Some (lastelt, [])
  | returnitem :: _ => Some (returnitem, _siftup less (<[0%nat := lastelt]> front) 0)
  end.
Proof.
unfold heappop. rewrite last_snoc, length_app. simpl.
replace (length front + 1 - 1)%nat with (length front) by lia.
rewrite take_app_length. by destruct front.
Qed.

Lemma heappop_Permutation heap x heap' :
  heappop less heap = Some (x, heap') → heap ≡ₚ x :: heap'.
Proof.
destruct (last heap) as [lastelt|] eqn:Hlast.
- apply last_Some in Hlast as [front ->]. rewrite heappop_snoc.
  destruct front as [|returnitem tl]; intros ?; simplify_eq; [done|].
  rewrite siftup_Permutation by (simpl; lia).
  simpl. f_equiv. by rewrite <- Permutation_cons_append.
- unfold heappop. by rewrite Hlast.
Qed.

Lemma heappop_nonempty heap :
  heap ≠ [] → ∃ x heap', heappop less heap = Some (x, heap').
Proof.
intros Hne. unfold heappop. destruct (last heap) eqn:Hlast.
- destruct (take _ heap); eauto.
- by apply last_None in Hlast.
Qed.

End HeapFacts.

(* ===================================================================== *)
(** * Properties of the scheduler *)
(* ===================================================================== *)

Section SchedulerFacts.
Import Scheduler.
Implicit Types (s : Scheduler.t) (σ : ref → Process.t) (r : ref).

Lemma admit_loop_unfold all s σ idx :
  admit_loop all s σ idx =
  match admit_step all s σ idx with
  | Some (s', σ', idx') => admit_loop all s' σ' idx'
  | None => (s, σ, idx)
  end.
Proof. funelim (admit_loop all s σ idx); by rewrite e. Qed.

Lemma set_ready_queue_id s : set_ready_queue (ready_queue s) s = s.
Proof. by destruct s. Qed.

(** ** The three operations on the queue and the store *)

Lemma add_process_spec s σ r :
  ∃ q', add_process s σ r =
          (set_ready_queue q' s, <[r := Process.set_state "READY" (σ r)]> σ) ∧
        (Timing.queue_refs q' ≡ₚ Timing.queue_refs (ready_queue s) ++ [r] ∨
         q' = ready_queue s).
Proof.
unfold add_process, Timing.queue_refs.
repeat (destruct (String.eqb _ _)).
- eexists. split; [done|]. left. by rewrite fmap_app.
- eexists. split; [done|]. left.
  rewrite heappush_Permutation, fmap_cons. simpl. apply Permutation_cons_append.
- eexists. split; [done|]. left.
  rewrite heappush_Permutation, fmap_cons. simpl. apply Permutation_cons_append.
- eexists. split; [done|]. left. by rewrite fmap_app.
- exists (ready_queue s). rewrite set_ready_queue_id. split; [done|by right].
Qed.

Lemma get_next_process_spec s σ :
  ready_queue s ≠ [] →
  ∃ e q', get_next_process s σ = (Some (entry_process e), set_ready_queue q' s) ∧
          ready_queue s ≡ₚ e :: q'.
Proof.
intros Hne. unfold get_next_process.
destruct (ready_queue s) as [|first rest] eqn:Hq; [done|].
destruct (_ || _).
- destruct (heappop_nonempty (entry_lt σ) (first :: rest) Hne) as (e & q' & Hpop).
  rewrite Hpop. exists e, q'. split; [done|]. by eapply heappop_Permutation.
- by exists first, rest.
Qed.

Lemma execute_spec s σ r time_slice :
  ∃ c s' p',
    execute s σ r time_slice = (c, s', <[r := p']> σ) ∧
    algorithm s' = algorithm s ∧ time_quantum s' = time_quantum s ∧
    ready_queue s' = ready_queue s ∧
    current_time s' =
      current_time s + Z.min time_slice (Process.remaining_time (σ r)) ∧
    completed_processes s' =
      (if c then completed_processes s ++ [r] else completed_processes s) ∧
    Process.arrival_time p' = Process.arrival_time (σ r) ∧
    Process.burst_time p' = Process.burst_time (σ r) ∧
    Process.priority p' = Process.priority (σ r) ∧
    Process.remaining_time p' =
      Process.remaining_time (σ r) - Z.min time_slice (Process.remaining_time (σ r)) ∧
    c = (Process.remaining_time p' =? 0) ∧
    (Timing.consistent_start (σ r) →
       Process.response_time p' = Process.start_time p' - Process.arrival_time p') ∧
    (if c then Process.turnaround_time p' = Process.waiting_time p' + Process.burst_time p'
     else Process.turnaround_time p' = Process.turnaround_time (σ r) ∧
          Process.waiting_time p' = Process.waiting_time (σ r)).
Proof.
unfold execute, Timing.consistent_start.
destruct (Process.start_time _ =? -1) eqn:Hstart; simpl;
  destruct (_ =? 0) eqn:Hrem; simpl;
  (eexists _, _, _; split; [reflexivity|]); simpl; rewrite ?Hrem;
  split_and!; try done; try lia.
all: apply Z.eqb_neq in Hstart; simpl in Hstart; by intros [?|?].
Qed.

(** ** Reasoning about the two loops of [schedule] *)

Lemma admit_step_None all s σ idx :
  admit_step all s σ idx = None ↔
  (length all ≤ idx)%nat ∨
  current_time s < Process.arrival_time (σ (all !!! idx)).
Proof.
unfold admit_step.
destruct (idx <? length all)%nat eqn:Hidx; simpl.
- apply Nat.ltb_lt in Hidx.
  destruct (_ <=? _) eqn:Harr.
  + apply Z.leb_le in Harr. destruct (add_process _ _ _). split; [done|lia].
  + apply Z.leb_gt in Harr. split; [by right|done].
- apply Nat.ltb_ge in Hidx. split; [by left|done].
Qed.

Lemma admit_step_Some all s σ idx st :
  admit_step all s σ idx = Some st ↔
  (idx < length all)%nat ∧
  Process.arrival_time (σ (all !!! idx)) ≤ current_time s ∧
  st = ((add_process s σ (all !!! idx)).1, (add_process s σ (all !!! idx)).2, S idx).
Proof.
unfold admit_step.
destruct (idx <? length all)%nat eqn:Hidx; simpl.
- apply Nat.ltb_lt in Hidx.
  destruct (_ <=? _) eqn:Harr.
  + apply Z.leb_le in Harr. destruct (add_process _ _ _). simpl.
    split; [by intros [= <-]|by intros (_ & _ & ->)].
  + apply Z.leb_gt in Harr. split; [done|lia].
- apply Nat.ltb_ge in Hidx. split; [done|lia].
Qed.

(** An invariant of the admission loop holds when the loop ends. *)
Lemma admit_loop_inv (P : Scheduler.t → (ref → Process.t) → nat → Prop) all :
  (∀ s σ idx, P s σ idx → (idx < length all)%nat →
     Process.arrival_time (σ (all !!! idx)) ≤ current_time s →
     P (add_process s σ (all !!! idx)).1 (add_process s σ (all !!! idx)).2 (S idx)) →
  ∀ s σ idx, P s σ idx →
    ∃ s' σ' idx', admit_loop all s σ idx = (s', σ', idx') ∧ P s' σ' idx' ∧
                  admit_step all s' σ' idx' = None.
Proof.
intros Hadd s σ idx. remember (length all - idx)%nat as n eqn:Hn.
revert s σ idx Hn. induction n as [n IH] using lt_wf_ind. intros s σ idx -> HP.
rewrite admit_loop_unfold.
destruct (admit_step all s σ idx) as [[[s1 σ1] idx1]|] eqn:Hstep; [|by eauto 10].
apply admit_step_Some in Hstep as (Hidx & Harr & [= -> -> ->]).
eapply (IH (length all - S idx)%nat); [lia|done|]. by apply Hadd.
Qed.

(** An invariant of the body of the outer loop. *)
Lemma schedule_step_inv (P : Scheduler.t → (ref → Process.t) → nat → Prop) all :
  (∀ s σ idx, P s σ idx → (idx < length all)%nat →
     Process.arrival_time (σ (all !!! idx)) ≤ current_time s →
     P (add_process s σ (all !!! idx)).1 (add_process s σ (all !!! idx)).2 (S idx)) →
  (∀ s σ idx t, P s σ idx → ready_queue s = [] → P (set_current_time t s) σ idx) →
  (∀ s σ idx r s2, P s σ idx → get_next_process s σ = (Some r, s2) →
     let time_slice :=
       if String.eqb (algorithm s2) "RR" then time_quantum s2
       else Process.remaining_time (σ r) in
     let '(c, s3, σ3) := execute s2 σ r time_slice in
     if String.eqb (algorithm s2) "RR" && negb c
     then P (add_process s3 σ3 r).1 (add_process s3 σ3 r).2 idx
     else P s3 σ3 idx) →
  ∀ s σ idx s' σ' idx',
    P s σ idx → schedule_step all (s, σ, idx) = Some (s', σ', idx') → P s' σ' idx'.
Proof.
intros Hadd Hjump Hexec s σ idx s' σ' idx' HP. unfold schedule_step.
destruct (_ || _); [|done].
destruct (admit_loop_inv P all Hadd s σ idx HP) as (s1 & σ1 & idx1 & -> & HP1 & _).
case_bool_decide as Hq.
- destruct (_ <? _)%nat; intros [= <- <- <-]; [by apply Hjump|done].
- destruct (get_next_process_spec s1 σ1 Hq) as (e & q' & Hnext & _).
  rewrite Hnext. specialize (Hexec _ _ _ _ _ HP1 Hnext). simpl in Hexec.
  change (algorithm (set_ready_queue q' s1)) with (algorithm s1) in *.
  destruct (String.eqb (algorithm s1) "RR") eqn:Hrr.
  + destruct (execute _ _ _ _) as [[c s3] σ3]. destruct c; simpl in *.
    * by intros [= <- <- <-].
    * destruct (add_process s3 σ3 _). by intros [= <- <- <-].
  + destruct (execute _ _ _ _) as [[c s3] σ3]. simpl in *. by intros [= <- <- <-].
Qed.

Lemma get_next_process_Some s σ r s2 :
  get_next_process s σ = (Some r, s2) →
  ∃ e q', r = entry_process e ∧ s2 = set_ready_queue q' s ∧ ready_queue s ≡ₚ e :: q'.
Proof.
intros Hnext. destruct (decide (ready_queue s = [])) as [Hq|Hq].
- unfold get_next_process in Hnext. by rewrite Hq in Hnext.
- destruct (get_next_process_spec s σ Hq) as (e & q' & Heq & Hperm).
  rewrite Heq in Hnext. injection Hnext as <- <-. by exists e, q'.
Qed.

Lemma add_process_store s σ r :
  (add_process s σ r).2 = <[r := Process.set_state "READY" (σ r)]> σ.
Proof. by destruct (add_process_spec s σ r) as (q' & -> & _). Qed.

Lemma add_process_queue_refs s σ r x :
  x ∈ Timing.queue_refs (ready_queue (add_process s σ r).1) →
  x ∈ Timing.queue_refs (ready_queue s) ∨ x = r.
Proof.
destruct (add_process_spec s σ r) as (q' & -> & [Hperm| ->]); simpl; [|by left].
rewrite Hperm. intros [?|Hx]%elem_of_app; [by left|right].
by apply list_elem_of_singleton in Hx.
Qed.

Lemma add_process_fields s σ r :
  algorithm (add_process s σ r).1 = algorithm s ∧
  time_quantum (add_process s σ r).1 = time_quantum s ∧
  current_time (add_process s σ r).1 = current_time s ∧
  completed_processes (add_process s σ r).1 = completed_processes s ∧
  gantt_chart (add_process s σ r).1 = gantt_chart s.
Proof. by destruct (add_process_spec s σ r) as (q' & -> & _). Qed.

Lemma schedule_loop_inv (P : Scheduler.t → (ref → Process.t) → nat → Prop) all :
  (∀ s σ idx s' σ' idx',
     P s σ idx → schedule_step all (s, σ, idx) = Some (s', σ', idx') → P s' σ' idx') →
  ∀ fuel s σ idx s' σ' idx',
    P s σ idx → schedule_loop fuel all (s, σ, idx) = Some (s', σ', idx') → P s' σ' idx'.
Proof.
intros Hstep fuel. induction fuel as [|fuel IH]; intros s σ idx s' σ' idx' HP; simpl.
- destruct (schedule_step all (s, σ, idx)); [done|]. by intros [= <- <- <-].
- destruct (schedule_step all (s, σ, idx)) as [[[s1 σ1] idx1]|] eqn:Hs.
  + apply IH. by eapply Hstep.
  + by intros [= <- <- <-].
Qed.

(** ** The sort of [schedule] *)

Lemma insert_by_arrival_Permutation σ x l : insert_by_arrival σ x l ≡ₚ x :: l.
Proof.
induction l as [|y l IH]; simpl; [done|].
destruct (_ <=? _); [|done]. rewrite IH. apply perm_swap.
Qed.

Lemma sorted_by_arrival_Permutation σ l : sorted_by_arrival σ l ≡ₚ l.
Proof.
unfold sorted_by_arrival.
assert (H : ∀ acc, fold_left (λ acc x, insert_by_arrival σ x acc) l acc ≡ₚ acc ++ l).
{ induction l as [|x l IH]; intros acc; simpl; [by rewrite app_nil_r|].
  rewrite IH, insert_by_arrival_Permutation. simpl. apply Permutation_middle. }
by rewrite H.
Qed.

(** ** Conservation of the timing metrics *)

Lemma consistent_start_set_state v p :
  Timing.consistent_start (Process.set_state v p) ↔ Timing.consistent_start p.
Proof. done. Qed.

Lemma metrics_ok_set_state v p :
  Timing.metrics_ok (Process.set_state v p) ↔ Timing.metrics_ok p.
Proof. done. Qed.

Lemma metrics_inv_add all s σ idx r :
  Timing.metrics_inv all s σ idx → Timing.consistent_start (σ r) →
  ∀ idx', (idx ≤ idx')%nat →
  Timing.metrics_inv all (add_process s σ r).1 (add_process s σ r).2 idx'.
Proof.
intros [Hstart Hdone] Hr idx' Hle. rewrite add_process_store.
destruct (add_process_fields s σ r) as (_ & _ & _ & Hcompl & _).
split.
- intros x Hx. destruct (decide (r = x)) as [->|Hne].
  + by rewrite fn_lookup_insert.
  + rewrite fn_lookup_insert_ne by done. apply Hstart.
    destruct Hx as [Hx|Hx].
    * left. replace idx' with (idx + (idx' - idx))%nat in Hx by lia.
      rewrite <- drop_drop in Hx. by eapply subseteq_drop.
    * apply add_process_queue_refs in Hx as [?| ->]; [by right|done].
- intros x Hx. rewrite Hcompl in Hx.
  destruct (decide (r = x)) as [->|Hne].
  + rewrite fn_lookup_insert. by apply Hdone.
  + rewrite fn_lookup_insert_ne by done. by apply Hdone.
Qed.

Lemma metrics_inv_step all : ∀ s σ idx s' σ' idx',
  Timing.metrics_inv all s σ idx →
  schedule_step all (s, σ, idx) = Some (s', σ', idx') →
  Timing.metrics_inv all s' σ' idx'.
Proof.
apply (schedule_step_inv (Timing.metrics_inv all) all).
- intros s σ idx HP Hidx _. apply (metrics_inv_add all s σ idx); [done| |lia].
  apply HP. left. apply list_elem_of_lookup. exists 0%nat.
  rewrite lookup_drop, Nat.add_0_r. by apply list_lookup_lookup_total_lt.
- intros s σ idx t HP _. exact HP.
- intros s σ idx r s2 [Hstart Hdone] Hnext.
  apply get_next_process_Some in Hnext as (e & q' & -> & -> & Hperm).
  assert (He : Timing.consistent_start (σ (entry_process e))).
  { apply Hstart. right. unfold Timing.queue_refs. rewrite Hperm, fmap_cons. left. }
  intros slice.
  destruct (execute_spec (set_ready_queue q' s) σ (entry_process e) slice)
    as (c & s3 & p' & -> & Halg & _ & Hq3 & _ & Hcompl & _ & Hburst & _ & _ & _
          & Hresp & Hturn).
  specialize (Hresp He).
  assert (HP3 : Timing.metrics_inv all s3 (<[entry_process e := p']> σ) idx).
  { split.
    - intros x Hx. destruct (decide (entry_process e = x)) as [<-|Hne].
      + rewrite fn_lookup_insert. by right.
      + rewrite fn_lookup_insert_ne by done. apply Hstart.
        destruct Hx as [?|Hx]; [by left|right].
        rewrite Hq3 in Hx. simpl in Hx. unfold Timing.queue_refs in *.
        rewrite Hperm, fmap_cons. by right.
    - intros x Hx. rewrite Hcompl in Hx. simpl in Hx.
      destruct (decide (entry_process e = x)) as [<-|Hne].
      + rewrite fn_lookup_insert. destruct c; [done|].
        destruct (Hdone _ Hx) as [Ht _]. destruct Hturn as [Ht1 Ht2].
        split; [|done]. by rewrite Ht1, Ht2, Hburst.
      + rewrite fn_lookup_insert_ne by done. apply Hdone.
        destruct c; [|done]. apply elem_of_app in Hx as [?|Hx]; [done|].
        by apply list_elem_of_singleton in Hx. }
  destruct (String.eqb _ _ && negb c); [|done].
  apply (metrics_inv_add all s3 _ idx); [done| |lia].
  rewrite fn_lookup_insert. by right.
Qed.

(** C9.  For processes handed to [schedule] as [Process.__init__] leaves
    them ([start_time] is -1), under every policy and quantum, every
    process in the list that [schedule] returns satisfies
    [turnaround_time = waiting_time + burst_time] and
    [response_time = start_time - arrival_time]. *)
Theorem metrics_conservation alg quantum σ processes fuel s' σ' :
  Forall (λ r, Process.start_time (σ r) = -1) processes →
  schedule fuel (__init__ alg quantum) σ processes = Some (s', σ') →
  ∀ r, r ∈ completed_processes s' →
    Process.turnaround_time (σ' r) =
      Process.waiting_time (σ' r) + Process.burst_time (σ' r) ∧
    Process.response_time (σ' r) =
      Process.start_time (σ' r) - Process.arrival_time (σ' r).
Proof.
intros Hfresh. unfold schedule.
destruct (schedule_loop _ _ _) as [[[s1 σ1] idx1]|] eqn:Hloop; [|done].
intros [= <- <-].
assert (Hinv : Timing.metrics_inv (sorted_by_arrival σ processes) s1 σ1 idx1);
  [|by destruct Hinv as [_ Hdone]].
eapply (schedule_loop_inv (Timing.metrics_inv (sorted_by_arrival σ processes)));
  [apply metrics_inv_step| |exact Hloop].
split; [|by intros r ?%elem_of_nil].
intros r [Hr|Hr]; [|by apply elem_of_nil in Hr].
left. apply (proj1 (Forall_forall _ _) Hfresh).
rewrite drop_0 in Hr. by rewrite <- (sorted_by_arrival_Permutation σ).
Qed.

Lemma metrics_conservation_witness :
  ∃ s' σ',
    schedule 20 (__init__ "RR" 2) Demo.store Demo.processes = Some (s', σ') ∧
    completed_processes s' = [0; 1; 2]%nat ∧
    Forall (λ r, Timing.metrics_ok (σ' r)) (completed_processes s').
Proof.
destruct (schedule 20 (__init__ "RR" 2) Demo.store Demo.processes)
  as [[s' σ']|] eqn:Hrun; [|vm_compute in Hrun; discriminate Hrun].
exists s', σ'. split; [reflexivity|]. split.
- vm_compute in Hrun. injection Hrun as <- _. reflexivity.
- apply Forall_forall.
  apply (metrics_conservation "RR" 2 Demo.store Demo.processes 20 s' σ').
  + repeat constructor.
  + exact Hrun.
Defined.

(** ** The cases of one turn of the outer loop *)

Lemma schedule_step_cases all s σ idx st' :
  schedule_step all (s, σ, idx) = Some st' →
  ((idx < length all)%nat ∨ ready_queue s ≠ []) ∧
  ∃ s1 σ1 idx1,
    admit_loop all s σ idx = (s1, σ1, idx1) ∧
    ((ready_queue s1 = [] ∧
      st' = (if (idx1 <? length all)%nat
             then set_current_time (Process.arrival_time (σ1 (all !!! idx1))) s1
             else s1, σ1, idx1)) ∨
     (∃ e q' c s3 σ3,
        get_next_process s1 σ1 = (Some (entry_process e), set_ready_queue q' s1) ∧
        ready_queue s1 ≡ₚ e :: q' ∧
        execute (set_ready_queue q' s1) σ1 (entry_process e)
          (if String.eqb (algorithm s1) "RR" then time_quantum s1
           else Process.remaining_time (σ1 (entry_process e))) = (c, s3, σ3) ∧
        st' = (if String.eqb (algorithm s1) "RR" && negb c
               then ((add_process s3 σ3 (entry_process e)).1,
                     (add_process s3 σ3 (entry_process e)).2, idx1)
               else (s3, σ3, idx1)))).
Proof.
unfold schedule_step.
destruct (_ || _) eqn:Hcond; [|done]. intros Hstep. split.
{ apply orb_true_iff in Hcond as [Hc|Hc]; [left; by apply Nat.ltb_lt|right].
  apply negb_true_iff in Hc. by apply bool_decide_eq_false in Hc. }
destruct (admit_loop all s σ idx) as [[s1 σ1] idx1].
exists s1, σ1, idx1. split; [done|].
case_bool_decide as Hq.
- left. split; [done|]. destruct (idx1 <? length all)%nat; congruence.
- right. destruct (get_next_process_spec s1 σ1 Hq) as (e & q' & Hnext & Hperm).
  rewrite Hnext in Hstep.
  change (algorithm (set_ready_queue q' s1)) with (algorithm s1) in Hstep.
  change (time_quantum (set_ready_queue q' s1)) with (time_quantum s1) in Hstep.
  destruct (String.eqb (algorithm s1) "RR") eqn:Hrr.
  + destruct (execute _ _ _ _) as [[c s3] σ3] eqn:Hexec.
    exists e, q', c, s3, σ3. split_and!; [done|done|done|].
    destruct c; simpl in *; [congruence|].
    destruct (add_process s3 σ3 _). simpl. congruence.
  + destruct (execute _ _ _ _) as [[c s3] σ3] eqn:Hexec.
    exists e, q', c, s3, σ3. split_and!; [done|done|done|].
    simpl. congruence.
Qed.

(** ** Termination of [schedule] *)

Lemma sum_list_with_le {B} (f g : B → nat) l :
  (∀ x, (f x ≤ g x)%nat) → (sum_list_with f l ≤ sum_list_with g l)%nat.
Proof.
intros Hfg. induction l as [|x l IH]; simpl; [done|]. specialize (Hfg x). lia.
Qed.

Lemma sum_list_with_singleton {B} (f : B → nat) x : sum_list_with f [x] = f x.
Proof. simpl. lia. Qed.

Lemma sum_list_with_cons {B} (f : B → nat) x l :
  sum_list_with f (x :: l) = (f x + sum_list_with f l)%nat.
Proof. done. Qed.

Lemma weight_ext σ σ' x :
  Process.remaining_time (σ' x) = Process.remaining_time (σ x) →
  Timing.weight σ' x = Timing.weight σ x.
Proof. unfold Timing.weight. by intros ->. Qed.

Lemma waiting_flag_le all s σ idx : (Timing.waiting_flag all s σ idx ≤ 1)%nat.
Proof. unfold Timing.waiting_flag. destruct (_ && _); lia. Qed.

Lemma waiting_flag_past all s σ idx :
  (length all ≤ idx)%nat → Timing.waiting_flag all s σ idx = 0%nat.
Proof.
intros Hidx. unfold Timing.waiting_flag.
destruct (idx <? length all)%nat eqn:Hlt; [|done]. apply Nat.ltb_lt in Hlt. lia.
Qed.

(** What the admission loop leaves unchanged, and what it does to the
    work left. *)
Lemma admit_loop_work all s σ idx s1 σ1 idx1 :
  admit_loop all s σ idx = (s1, σ1, idx1) →
  (idx ≤ idx1)%nat ∧
  algorithm s1 = algorithm s ∧ time_quantum s1 = time_quantum s ∧
  current_time s1 = current_time s ∧
  (∀ x, Process.remaining_time (σ1 x) = Process.remaining_time (σ x)) ∧
  (∀ x, Process.arrival_time (σ1 x) = Process.arrival_time (σ x)) ∧
  (sum_list_with (λ r, 2 + Timing.weight σ r) (drop idx1 all)
   + sum_list_with (Timing.weight σ) (Timing.queue_refs (ready_queue s1))
   + 2 * (idx1 - idx)
   ≤ sum_list_with (λ r, 2 + Timing.weight σ r) (drop idx all)
     + sum_list_with (Timing.weight σ) (Timing.queue_refs (ready_queue s)))%nat ∧
  admit_step all s1 σ1 idx1 = None.
Proof.
intros Heq.
set (P := λ (s' : Scheduler.t) (σ' : ref → Process.t) (idx' : nat),
  (idx ≤ idx')%nat ∧
  algorithm s' = algorithm s ∧ time_quantum s' = time_quantum s ∧
  current_time s' = current_time s ∧
  (∀ x, Process.remaining_time (σ' x) = Process.remaining_time (σ x)) ∧
  (∀ x, Process.arrival_time (σ' x) = Process.arrival_time (σ x)) ∧
  (sum_list_with (λ r, 2 + Timing.weight σ r) (drop idx' all)
   + sum_list_with (Timing.weight σ) (Timing.queue_refs (ready_queue s'))
   + 2 * (idx' - idx)
   ≤ sum_list_with (λ r, 2 + Timing.weight σ r) (drop idx all)
     + sum_list_with (Timing.weight σ) (Timing.queue_refs (ready_queue s)))%nat).
destruct (admit_loop_inv P all) with (s := s) (σ := σ) (idx := idx)
  as (s' & σ' & idx' & Heq' & HP & Hnone).
- clear. intros s' σ' idx' (Hle & Halg & Hq & Hct & Hrem & Harr & Hwork) Hidx _.
  set (x := all !!! idx').
  destruct (add_process_fields s' σ' x) as (Halg' & Hq' & Hct' & _).
  rewrite add_process_store.
  unfold P. rewrite Halg', Hq', Hct'. split_and!; [lia|done|done|done| | |].
  + intros y. destruct (decide (x = y)) as [->|Hne];
      [rewrite fn_lookup_insert|rewrite fn_lookup_insert_ne by done]; apply Hrem.
  + intros y. destruct (decide (x = y)) as [->|Hne];
      [rewrite fn_lookup_insert|rewrite fn_lookup_insert_ne by done]; apply Harr.
  + assert (Hdrop : drop idx' all = x :: drop (S idx') all).
    { apply drop_S. by apply list_lookup_lookup_total_lt. }
    rewrite Hdrop in Hwork.
    assert (Hqueue :
      (sum_list_with (Timing.weight σ)
         (Timing.queue_refs (ready_queue (add_process s' σ' x).1))
       ≤ sum_list_with (Timing.weight σ) (Timing.queue_refs (ready_queue s'))
         + Timing.weight σ x)%nat).
    { destruct (add_process_spec s' σ' x) as (q' & -> & [Hperm| ->]); simpl.
      - rewrite Hperm, sum_list_with_app, sum_list_with_singleton. lia.
      - lia. }
    rewrite sum_list_with_cons in Hwork. lia.
- unfold P. split_and!; try done. lia.
- rewrite Heq in Heq'. injection Heq' as <- <- <-. by destruct HP as (?&?&?&?&?&?&?).
Qed.

Lemma schedule_step_decreases all s σ idx s' σ' idx' :
  Timing.can_progress s →
  schedule_step all (s, σ, idx) = Some (s', σ', idx') →
  (Timing.work_left all (s', σ', idx') < Timing.work_left all (s, σ, idx))%nat ∧
  Timing.can_progress s'.
Proof.
intros Hprog Hstep.
apply schedule_step_cases in Hstep as (Hcond & s1 & σ1 & idx1 & Hadmit & Hcases).
apply admit_loop_work in Hadmit
  as (Hle & Halg & Hquant & Hct & Hrem & Harr & Hwork & Hnone).
assert (Hprog1 : Timing.can_progress s1).
{ unfold Timing.can_progress. by rewrite Halg, Hquant. }
assert (Hflag0 : idx1 = idx → (idx < length all)%nat →
                 Timing.waiting_flag all s σ idx = 1%nat).
{ intros -> Hidx. apply admit_step_None in Hnone as [?|Hlate]; [lia|].
  unfold Timing.waiting_flag. rewrite Hct, Harr in Hlate.
  apply Nat.ltb_lt in Hidx. apply Z.ltb_lt in Hlate. by rewrite Hidx, Hlate. }
assert (Hw1 : ∀ l, sum_list_with (λ r, 2 + Timing.weight σ1 r)%nat l =
                   sum_list_with (λ r, 2 + Timing.weight σ r)%nat l).
{ intros l. apply Nat.le_antisymm; apply sum_list_with_le; intros x;
    rewrite (weight_ext σ σ1 x (Hrem x)); lia. }
assert (Hw2 : ∀ l, sum_list_with (Timing.weight σ1) l =
                   sum_list_with (Timing.weight σ) l).
{ intros l. apply Nat.le_antisymm; apply sum_list_with_le; intros x;
    rewrite (weight_ext σ σ1 x (Hrem x)); lia. }
unfold Timing.work_left.
destruct Hcases as [[Hq Hst]|(e & q' & c & s3 & σ3 & Hnext & Hperm & Hexec & Hst)].
- (* nothing is ready *)
  injection Hst as -> -> ->.
  assert (Hq' : ready_queue
                  (if (idx1 <? length all)%nat
                   then set_current_time
                          (Process.arrival_time (σ1 (all !!! idx1))) s1
                   else s1) = []) by by destruct (_ <? _)%nat.
  rewrite Hq', Hw1. rewrite Hq in Hwork. simpl in *.
  split; [|by destruct (_ <? _)%nat].
  assert (Hflag' : Timing.waiting_flag all
                     (if (idx1 <? length all)%nat
                      then set_current_time
                             (Process.arrival_time (σ1 (all !!! idx1))) s1
                      else s1) σ1 idx1 = 0%nat).
  { unfold Timing.waiting_flag. destruct (idx1 <? length all)%nat; [|done].
    simpl. by rewrite Z.ltb_irrefl. }
  rewrite Hflag'.
  destruct (decide (idx1 = idx)) as [->|Hne]; [|lia].
  destruct Hcond as [Hidx|Hnonempty].
  + rewrite (Hflag0 eq_refl Hidx). lia.
  + destruct (ready_queue s) as [|e0 q0]; [done|].
    unfold Timing.queue_refs, Timing.weight. simpl. lia.
- (* a process is dispatched *)
  set (r := entry_process e) in *.
  set (slice := if String.eqb (algorithm s1) "RR" then time_quantum s1
                else Process.remaining_time (σ1 r)) in *.
  destruct (execute_spec (set_ready_queue q' s1) σ1 r slice)
    as (c' & s3' & p' & Hexec' & Halg3 & Hquant3 & Hq3 & _ & _ & _ & _ & _
          & Hrem3 & Hc & _).
  rewrite Hexec in Hexec'. injection Hexec' as Hc' Hs3' Hσ3. subst c' s3' σ3.
  simpl in Halg3, Hquant3, Hq3.
  assert (Hprog3 : Timing.can_progress s3).
  { unfold Timing.can_progress. by rewrite Halg3, Hquant3. }
  (* the slice never makes a process heavier, and makes it lighter when
     the process is not finished *)
  assert (Hlighter : (Timing.weight (<[r := p']> σ1) r ≤ Timing.weight σ1 r)%nat ∧
            (String.eqb (algorithm s1) "RR" && negb c = true →
             Timing.weight (<[r := p']> σ1) r < Timing.weight σ1 r)%nat).
  { unfold Timing.weight. rewrite fn_lookup_insert, Hrem3. unfold slice.
    destruct (String.eqb (algorithm s1) "RR") eqn:Hrr; simpl.
    - apply String.eqb_eq in Hrr. destruct Hprog1 as [?|Hpos]; [done|].
      split; [lia|]. intros Hc'. apply negb_true_iff in Hc'. subst c.
      apply Z.eqb_neq in Hc'. rewrite Hrem3 in Hc'. unfold slice in Hc'.
      simpl in Hc'. lia.
    - split; [lia|done]. }
  destruct Hlighter as [Hlight Hstrict].
  assert (Hmono : ∀ x, (Timing.weight (<[r := p']> σ1) x ≤ Timing.weight σ1 x)%nat).
  { intros x. destruct (decide (r = x)) as [<-|Hne]; [done|].
    unfold Timing.weight. by rewrite fn_lookup_insert_ne. }
  assert (Hqueue1 :
    sum_list_with (Timing.weight σ) (Timing.queue_refs (ready_queue s1)) =
    (Timing.weight σ1 r + sum_list_with (Timing.weight σ1) (Timing.queue_refs q'))%nat).
  { rewrite <- Hw2. unfold Timing.queue_refs. by rewrite Hperm, fmap_cons. }
  assert (Hbound : ∀ st, st = (s', σ', idx') →
    (Timing.work_left all st + 1
     ≤ sum_list_with (λ r, 2 + Timing.weight σ r)%nat (drop idx1 all)
       + sum_list_with (Timing.weight σ) (Timing.queue_refs (ready_queue s1))
       + Timing.waiting_flag all s' σ' idx')%nat ∧ idx' = idx1 ∧
    Timing.can_progress s').
  { intros st ->. destruct (String.eqb (algorithm s1) "RR" && negb c) eqn:Hre.
    - injection Hst as -> -> ->. specialize (Hstrict eq_refl).
      destruct (add_process_fields s3 (<[r := p']> σ1) r) as (Ha & Hb & _).
      split_and!; [|done|unfold Timing.can_progress; by rewrite Ha, Hb].
      unfold Timing.work_left. rewrite add_process_store.
      set (σ4 := <[r := Process.set_state "READY" (<[r := p']> σ1 r)]> (<[r := p']> σ1)).
      assert (H4 : ∀ x, Timing.weight σ4 x = Timing.weight (<[r := p']> σ1) x).
      { intros x. apply weight_ext. unfold σ4.
        destruct (decide (r = x)) as [<-|Hne];
          [by rewrite !fn_lookup_insert|by rewrite fn_lookup_insert_ne]. }
      assert (Hp : (sum_list_with (λ r, 2 + Timing.weight σ4 r) (drop idx1 all)
                    ≤ sum_list_with (λ r, 2 + Timing.weight σ r) (drop idx1 all))%nat).
      { rewrite <- Hw1. apply sum_list_with_le. intros x. rewrite H4.
        specialize (Hmono x). lia. }
      assert (Hq4 : (sum_list_with (Timing.weight σ4)
                       (Timing.queue_refs
                          (ready_queue (add_process s3 (<[r := p']> σ1) r).1))
                     ≤ sum_list_with (Timing.weight σ1) (Timing.queue_refs q')
                       + Timing.weight (<[r := p']> σ1) r)%nat).
      { destruct (add_process_spec s3 (<[r := p']> σ1) r) as (q4 & -> & [Hperm4| ->]);
          simpl; rewrite ?Hq3 in *.
        - rewrite Hperm4, sum_list_with_app, sum_list_with_singleton, H4.
          assert (sum_list_with (Timing.weight σ4) (Timing.queue_refs q')
                  ≤ sum_list_with (Timing.weight σ1) (Timing.queue_refs q'))%nat.
          { apply sum_list_with_le. intros x. rewrite H4. apply Hmono. }
          lia.
        - assert (sum_list_with (Timing.weight σ4) (Timing.queue_refs q')
                  ≤ sum_list_with (Timing.weight σ1) (Timing.queue_refs q'))%nat.
          { apply sum_list_with_le. intros x. rewrite H4. apply Hmono. }
          lia. }
      rewrite Hqueue1. lia.
    - injection Hst as -> -> ->. split_and!; [|done|done].
      unfold Timing.work_left. rewrite Hq3.
      assert (Hp : (sum_list_with (λ r0, 2 + Timing.weight (<[r := p']> σ1) r0)
                      (drop idx1 all)
                    ≤ sum_list_with (λ r, 2 + Timing.weight σ r) (drop idx1 all))%nat).
      { rewrite <- Hw1. apply sum_list_with_le. intros x. specialize (Hmono x). lia. }
      assert (Hq4 : (sum_list_with (Timing.weight (<[r := p']> σ1)) (Timing.queue_refs q')
                     ≤ sum_list_with (Timing.weight σ1) (Timing.queue_refs q'))%nat).
      { apply sum_list_with_le. apply Hmono. }
      rewrite Hqueue1.
      assert (1 ≤ Timing.weight σ1 r)%nat by (unfold Timing.weight; lia). lia. }
  destruct (Hbound _ eq_refl) as (Hb & -> & Hprog'). split; [|done].
  unfold Timing.work_left in Hb.
  pose proof (waiting_flag_le all s' σ' idx1) as Hf1.
  destruct (decide (idx1 = idx)) as [->|Hne]; [|lia].
  destruct (decide (idx < length all)%nat) as [Hidx|Hidx].
  + rewrite (Hflag0 eq_refl Hidx). lia.
  + rewrite (waiting_flag_past all s' σ' idx) in Hb |- * by lia. lia.
Qed.

Lemma schedule_loop_terminates all : ∀ n s σ idx,
  Timing.can_progress s → (Timing.work_left all (s, σ, idx) ≤ n)%nat →
  ∃ st', schedule_loop n all (s, σ, idx) = Some st'.
Proof.
induction n as [|n IH]; intros s σ idx Hprog Hwork; simpl.
- destruct (schedule_step all (s, σ, idx)) as [[[s' σ'] idx']|] eqn:Hstep; [|by eauto].
  destruct (schedule_step_decreases _ _ _ _ _ _ _ Hprog Hstep). lia.
- destruct (schedule_step all (s, σ, idx)) as [[[s' σ'] idx']|] eqn:Hstep; [|by eauto].
  destruct (schedule_step_decreases _ _ _ _ _ _ _ Hprog Hstep) as [Hlt Hprog'].
  apply IH; [done|lia].
Qed.

(** ** Round-Robin with a quantum that is not positive *)

Lemma add_process_rr s σ r :
  algorithm s = "RR"%string →
  add_process s σ r =
    (set_ready_queue (ready_queue s ++ [EProc r]) s,
     <[r := Process.set_state "READY" (σ r)]> σ).
Proof. intros Halg. unfold add_process. by rewrite Halg. Qed.

Lemma add_process_fcfs s σ r :
  algorithm s = "FCFS"%string →
  add_process s σ r =
    (set_ready_queue (ready_queue s ++ [EProc r]) s,
     <[r := Process.set_state "READY" (σ r)]> σ).
Proof. intros Halg. unfold add_process. by rewrite Halg. Qed.

Lemma starved_step all : ∀ s σ idx s' σ' idx',
  Timing.starved all s σ idx →
  schedule_step all (s, σ, idx) = Some (s', σ', idx') →
  Timing.starved all s' σ' idx'.
Proof.
apply (schedule_step_inv (Timing.starved all) all).
- intros s σ idx (Halg & Hq & r & Hr & Hrem) Hidx _.
  rewrite add_process_rr by done. unfold Timing.starved. simpl. split_and!; [done|done|].
  exists r. split.
  + destruct Hr as [Hr|Hr].
    * rewrite (drop_S all (all !!! idx) idx) in Hr
        by by apply list_lookup_lookup_total_lt.
      apply elem_of_cons in Hr as [->|Hr]; [right|by left].
      unfold Timing.queue_refs. rewrite fmap_app. apply elem_of_app. right. left.
    * right. unfold Timing.queue_refs. rewrite fmap_app. apply elem_of_app. by left.
  + destruct (decide (all !!! idx = r)) as [->|Hne];
      [by rewrite fn_lookup_insert|by rewrite fn_lookup_insert_ne].
- intros s σ idx t Hs _. exact Hs.
- intros s σ idx x s2 (Halg & Hq & r & Hr & Hrem) Hnext.
  apply get_next_process_Some in Hnext as (e & q' & -> & -> & Hperm).
  change (algorithm (set_ready_queue q' s)) with (algorithm s).
  change (time_quantum (set_ready_queue q' s)) with (time_quantum s).
  rewrite Halg. simpl.
  destruct (execute_spec (set_ready_queue q' s) σ (entry_process e) (time_quantum s))
    as (c & s3 & p' & -> & Halg3 & Hq3 & Hqueue3 & _ & _ & _ & _ & _ & Hrem3 & Hc & _).
  simpl in Halg3, Hq3, Hqueue3.
  destruct (decide (entry_process e = r)) as [Her|Hne].
  + (* the process that still needs time is the one dispatched *)
    subst r. assert (Hrem' : 0 < Process.remaining_time p') by lia.
    assert (c = false) as ->.
    { rewrite Hc. apply Z.eqb_neq. lia. }
    simpl. rewrite add_process_rr by by rewrite Halg3. unfold Timing.starved. simpl.
    split_and!; [by rewrite Halg3|by rewrite Hq3|].
    exists (entry_process e). split.
    * right. unfold Timing.queue_refs. rewrite fmap_app. apply elem_of_app. right. left.
    * by rewrite !fn_lookup_insert.
  + assert (Hr' : r ∈ drop idx all ∨ r ∈ Timing.queue_refs q').
    { destruct Hr as [?|Hr]; [by left|right]. unfold Timing.queue_refs in *.
      rewrite Hperm, fmap_cons in Hr. apply elem_of_cons in Hr as [?|?]; [done|done]. }
    destruct c; simpl.
    * split_and!; [by rewrite Halg3|by rewrite Hq3|].
      exists r. rewrite Hqueue3. split; [done|]. by rewrite fn_lookup_insert_ne.
    * rewrite add_process_rr by by rewrite Halg3. unfold Timing.starved. simpl.
      split_and!; [by rewrite Halg3|by rewrite Hq3|].
      exists r. split.
      -- destruct Hr' as [?|?]; [by left|right]. rewrite Hqueue3.
         unfold Timing.queue_refs in *. rewrite fmap_app. apply elem_of_app. by left.
      -- by rewrite !fn_lookup_insert_ne.
Qed.

Lemma starved_continues all s σ idx :
  Timing.starved all s σ idx → ∃ st', schedule_step all (s, σ, idx) = Some st'.
Proof.
intros (_ & _ & r & Hr & _).
destruct (schedule_step all (s, σ, idx)) as [st'|] eqn:Hstep; [by eauto|].
exfalso. unfold schedule_step in Hstep.
destruct (_ || _) eqn:Hcond.
- destruct (admit_loop all s σ idx) as [[s1 σ1] idx1].
  case_bool_decide; [by destruct (idx1 <? length all)%nat|].
  destruct (get_next_process s1 σ1) as [[x|] s2]; [|done].
  destruct (String.eqb _ _).
  + destruct (execute _ _ _ _) as [[[] ?] ?]; simpl in Hstep; [done|].
    by destruct (add_process _ _ _).
  + by destruct (execute _ _ _ _) as [[? ?] ?].
- apply orb_false_iff in Hcond as [Hidx Hq]. apply Nat.ltb_ge in Hidx.
  apply negb_false_iff, bool_decide_eq_true in Hq.
  destruct Hr as [Hr|Hr].
  + rewrite drop_ge in Hr by done. by apply elem_of_nil in Hr.
  + rewrite Hq in Hr. by apply elem_of_nil in Hr.
Qed.

Lemma starved_loop_runs all : ∀ fuel s σ idx,
  Timing.starved all s σ idx → schedule_loop fuel all (s, σ, idx) = None.
Proof.
induction fuel as [|fuel IH]; intros s σ idx Hs; simpl;
  destruct (starved_continues all s σ idx Hs) as [[[s' σ'] idx'] Hstep];
  rewrite Hstep; [done|].
apply IH. by eapply starved_step.
Qed.

(** Under RR with a quantum that is not positive, [schedule] does not
    return as soon as one process has a positive burst time. *)
Lemma rr_nonpositive_quantum_diverges quantum σ processes r :
  quantum ≤ 0 → r ∈ processes → 0 < Process.remaining_time (σ r) →
  ∀ fuel, schedule fuel (__init__ "RR" quantum) σ processes = None.
Proof.
intros Hq Hr Hrem fuel. unfold schedule.
rewrite starved_loop_runs; [done|].
split_and!; [done|done|]. exists r. split; [|done]. left.
rewrite drop_0. by rewrite sorted_by_arrival_Permutation.
Qed.

(** C3, as the code has it.  Whenever the policy is not RR or the quantum
    is positive, [schedule] returns for every finite list of processes,
    whatever their arrival and burst times. *)
Theorem schedule_terminates alg quantum σ processes :
  alg ≠ "RR"%string ∨ 0 < quantum →
  ∃ fuel s' σ', schedule fuel (__init__ alg quantum) σ processes = Some (s', σ').
Proof.
intros Hprog.
set (all := sorted_by_arrival σ processes).
destruct (schedule_loop_terminates all
            (Timing.work_left all (__init__ alg quantum, σ, 0%nat))
            (__init__ alg quantum) σ 0%nat Hprog (le_n _))
  as [[[s' σ'] idx'] Hloop].
exists (Timing.work_left all (__init__ alg quantum, σ, 0%nat)), s', σ'.
unfold schedule. fold all. by rewrite Hloop.
Qed.

Lemma schedule_terminates_witness :
  ∃ fuel s' σ',
    schedule fuel (__init__ "RR" 2) Demo.store Demo.processes = Some (s', σ').
Proof.
apply (schedule_terminates "RR" 2 Demo.store Demo.processes).
right. reflexivity.
Defined.

(** C3, as the claim states it, fails: both constructors accept a value
    that is not positive, and a scheduler built with [Scheduler("RR", 0)]
    never returns from [schedule] on the three sample processes. *)
Lemma nonpositive_configuration_accepted :
  time_quantum (__init__ "RR" 0) = 0 ∧
  time_quantum (__init__ "RR" (-3)) = -3 ∧
  MemoryManager.block_list (MemoryManager.__init__ 0 "First-Fit") =
    [MemoryBlock.__init__ 0 0] ∧
  MemoryManager.total_memory (MemoryManager.__init__ (-8) "First-Fit") = -8 ∧
  (∀ fuel, schedule fuel (__init__ "RR" 0) Demo.store Demo.processes = None).
Proof.
split_and!; try reflexivity.
apply (rr_nonpositive_quantum_diverges 0 Demo.store Demo.processes 0%nat).
- lia.
- left.
- reflexivity.
Qed.

(** ** Round-Robin: where a preempted process re-enters the queue *)

Lemma admit_loop_past all s σ idx :
  (length all ≤ idx)%nat → admit_loop all s σ idx = (s, σ, idx).
Proof.
intros Hidx. rewrite admit_loop_unfold.
by rewrite (proj2 (admit_step_None all s σ idx)) by by left.
Qed.

(** Under FCFS and RR the admission loop appends to the queue, in order,
    the processes from [idx] on that have arrived. *)
Lemma admit_loop_fifo all s σ idx s1 σ1 idx1 :
  algorithm s = "RR"%string ∨ algorithm s = "FCFS"%string →
  admit_loop all s σ idx = (s1, σ1, idx1) →
  (idx ≤ idx1)%nat ∧
  ready_queue s1 = ready_queue s ++ (EProc <$> take (idx1 - idx) (drop idx all)) ∧
  Forall (λ x, Process.arrival_time (σ x) ≤ current_time s)
         (take (idx1 - idx) (drop idx all)) ∧
  ((idx1 < length all)%nat →
   current_time s < Process.arrival_time (σ (all !!! idx1))).
Proof.
intros Halg Heq.
destruct (admit_loop_work _ _ _ _ _ _ _ Heq) as (_ & _ & _ & Hct1 & _ & Harr1 & _ & Hnone).
set (P := λ (s' : Scheduler.t) (σ' : ref → Process.t) (idx' : nat),
  (idx ≤ idx')%nat ∧ algorithm s' = algorithm s ∧ current_time s' = current_time s ∧
  (∀ x, Process.arrival_time (σ' x) = Process.arrival_time (σ x)) ∧
  ready_queue s' = ready_queue s ++ (EProc <$> take (idx' - idx) (drop idx all)) ∧
  Forall (λ x, Process.arrival_time (σ x) ≤ current_time s)
         (take (idx' - idx) (drop idx all))).
destruct (admit_loop_inv P all) with (s := s) (σ := σ) (idx := idx)
  as (s' & σ' & idx' & Heq' & HP & _).
- intros s' σ' idx' (Hle & Halg' & Hct & Harr & Hq & Hall) Hidx Hnow.
  set (x := all !!! idx') in *.
  assert (Htake : take (S idx' - idx) (drop idx all) =
                  take (idx' - idx) (drop idx all) ++ [x]).
  { replace (S idx' - idx)%nat with (S (idx' - idx)) by lia.
    apply take_S_r. rewrite lookup_drop.
    replace (idx + (idx' - idx))%nat with idx' by lia.
    by apply list_lookup_lookup_total_lt. }
  assert (Hadd : add_process s' σ' x =
                 (set_ready_queue (ready_queue s' ++ [EProc x]) s',
                  <[x := Process.set_state "READY" (σ' x)]> σ')).
  { destruct Halg as [Ha|Ha]; [apply add_process_rr|apply add_process_fcfs];
      by rewrite Halg'. }
  rewrite Hadd. unfold P. simpl. rewrite Htake.
  split_and!; [lia|done|done| | |].
  + intros y. destruct (decide (x = y)) as [->|Hne];
      [rewrite fn_lookup_insert|rewrite fn_lookup_insert_ne by done]; apply Harr.
  + by rewrite Hq, fmap_app, app_assoc.
  + apply Forall_app. split; [done|]. constructor; [|done].
    rewrite <- Harr, <- Hct. exact Hnow.
- unfold P. rewrite Nat.sub_diag. simpl. rewrite app_nil_r. by split_and!.
- rewrite Heq in Heq'. injection Heq' as <- <- <-.
  destruct HP as (Hle & _ & _ & _ & Hq & Hall). split_and!; [done|done|done|].
  intros Hidx. apply admit_step_None in Hnone as [?|Hlate]; [lia|].
  by rewrite Hct1, Harr1 in Hlate.
Qed.

(** C2, as the code has it.  Under RR, when the process at the head of the
    ready queue is dispatched and its slice ends with time still needed
    (its remaining time exceeds the quantum), the turn of the loop ends
    with that process re-admitted at the tail of the queue and no further
    process admitted; the processes that arrived during the slice, up to
    and including the new [current_time], are admitted by the next turn and
    stand behind it. *)
Theorem rr_preempted_readmitted_first all s σ idx s1 σ1 idx1 r rest :
  algorithm s = "RR"%string →
  admit_loop all s σ idx = (s1, σ1, idx1) →
  ready_queue s1 = EProc r :: rest →
  time_quantum s < Process.remaining_time (σ1 r) →
  ∃ s2 σ2,
    schedule_step all (s, σ, idx) = Some (s2, σ2, idx1) ∧
    ready_queue s2 = rest ++ [EProc r] ∧
    current_time s2 = current_time s + time_quantum s ∧
    Process.remaining_time (σ2 r) = Process.remaining_time (σ1 r) - time_quantum s ∧
    ∃ s3 σ3 idx3,
      admit_loop all s2 σ2 idx1 = (s3, σ3, idx3) ∧
      ready_queue s3 =
        rest ++ [EProc r] ++ (EProc <$> take (idx3 - idx1) (drop idx1 all)) ∧
      Forall (λ x, Process.arrival_time (σ2 x) ≤ current_time s2)
             (take (idx3 - idx1) (drop idx1 all)) ∧
      ((idx3 < length all)%nat →
       current_time s2 < Process.arrival_time (σ2 (all !!! idx3))).
Proof.
intros Halg Hadmit Hq Hrem.
destruct (admit_loop_work _ _ _ _ _ _ _ Hadmit)
  as (Hle & Halg1 & Hquant1 & Hct1 & _ & _ & _ & _).
assert (Hcond : (idx <? length all)%nat || negb (bool_decide (ready_queue s = [])) = true).
{ destruct (idx <? length all)%nat eqn:Hidx; [done|]. apply Nat.ltb_ge in Hidx.
  rewrite admit_loop_past in Hadmit by done. injection Hadmit as <- <- <-.
  rewrite Hq. done. }
assert (Hnext : get_next_process s1 σ1 = (Some r, set_ready_queue rest s1)).
{ unfold get_next_process. rewrite Hq, Halg1, Halg. done. }
destruct (execute_spec (set_ready_queue rest s1) σ1 r (time_quantum s1))
  as (c & s3 & p' & Hexec & Halg3 & Hquant3 & Hq3 & Hct3 & _ & _ & _ & _ & Hrem3 & Hc & _).
simpl in Halg3, Hquant3, Hq3, Hct3.
rewrite Hquant1 in Hrem3, Hct3.
rewrite Z.min_l in Hrem3, Hct3 by lia.
assert (c = false) as ->.
{ rewrite Hc. apply Z.eqb_neq. lia. }
assert (Halg3' : algorithm s3 = "RR"%string) by by rewrite Halg3, Halg1.
eexists _, _. split.
{ unfold schedule_step. rewrite Hcond, Hadmit.
  rewrite bool_decide_eq_false_2 by by rewrite Hq.
  rewrite Hnext.
  change (algorithm (set_ready_queue rest s1)) with (algorithm s1).
  change (time_quantum (set_ready_queue rest s1)) with (time_quantum s1).
  rewrite Halg1, Halg. simpl. rewrite Hexec. simpl.
  rewrite add_process_rr by done. reflexivity. }
simpl. rewrite Hq3, Hct3, Hct1. split_and!; [done|done|..].
{ by rewrite !fn_lookup_insert. }
set (s2 := set_ready_queue (rest ++ [EProc r]) s3).
set (σ2 := <[r := Process.set_state "READY" (<[r := p']> σ1 r)]> (<[r := p']> σ1)).
destruct (admit_loop all s2 σ2 idx1) as [[s4 σ4] idx4] eqn:Hadmit2.
exists s4, σ4, idx4. split; [done|].
destruct (admit_loop_fifo all s2 σ2 idx1 s4 σ4 idx4) as (_ & Hq4 & Hall & Hlate);
  [by left|done|].
simpl in Hq4, Hall, Hlate. rewrite Hct3, Hct1 in Hall, Hlate.
split_and!; [by rewrite Hq4, <- app_assoc|done|done].
Qed.

Lemma rr_preempted_readmitted_first_witness :
  ∃ s2 σ2,
    schedule_step Demo.rr_processes (__init__ "RR" 2, Demo.rr_store, 0%nat) =
      Some (s2, σ2, 1%nat) ∧
    ready_queue s2 = [] ++ [EProc 0%nat] ∧
    current_time s2 = 0 + 2.
Proof.
destruct (rr_preempted_readmitted_first Demo.rr_processes (__init__ "RR" 2)
            Demo.rr_store 0%nat
            (admit_loop Demo.rr_processes (__init__ "RR" 2) Demo.rr_store 0%nat).1.1
            (admit_loop Demo.rr_processes (__init__ "RR" 2) Demo.rr_store 0%nat).1.2
            1%nat 0%nat [])
  as (s2 & σ2 & Hstep & Hq & Hct & _).
- reflexivity.
- vm_compute. reflexivity.
- vm_compute. reflexivity.
- vm_compute. reflexivity.
- exists s2, σ2. split; [exact Hstep|]. split; [exact Hq|exact Hct].
Defined.

(** C2, as the claim states it, fails.  With quantum 2, the first process
    (arrival 0, burst 4) is preempted at time 2; the second process arrived
    at time 1, during the slice, yet when the turn ends the queue holds the
    preempted process alone and the second process is still waiting for
    admission; it is admitted behind it, and the chart shows the first
    process running again from 2 to 4 before the second one runs. *)
Lemma rr_arrival_admitted_after_preempted :
  Process.arrival_time (Demo.rr_store 1%nat) = 1 ∧
  (∃ s σ,
     Timing.after_turns 1 Demo.rr_processes (__init__ "RR" 2, Demo.rr_store, 0%nat) =
       Some (s, σ, 1%nat) ∧
     current_time s = 2 ∧ ready_queue s = [EProc 0%nat] ∧
     Process.remaining_time (σ 0%nat) = 2 ∧
     ready_queue (admit_loop Demo.rr_processes s σ 1%nat).1.1 =
       [EProc 0%nat; EProc 1%nat]) ∧
  (∃ s σ,
     schedule 10 (__init__ "RR" 2) Demo.rr_store Demo.rr_processes = Some (s, σ) ∧
     trace s = [(1, 0, 2); (1, 2, 4); (2, 4, 6)]).
Proof.
split; [reflexivity|]. split.
- eexists _, _. split; [vm_compute; reflexivity|]. vm_compute. by repeat split.
- eexists _, _. split; [vm_compute; reflexivity|]. vm_compute. reflexivity.
Qed.

End SchedulerFacts.

(* ===================================================================== *)
(** * The heap property of the ready queue *)
(* ===================================================================== *)

Lemma parent_spec (i : nat) :
  (2 * HeapOrder.parent i ≤ i - 1 ≤ 2 * HeapOrder.parent i + 1)%nat.
Proof.
unfold HeapOrder.parent.
pose proof (Nat.div_mod_eq (i - 1) 2). pose proof (Nat.mod_upper_bound (i - 1) 2). lia.
Qed.

(** Arithmetic on positions: the bounds of every [parent] in sight, then
    [lia]. *)
Ltac parent_lia :=
  repeat match goal with
  | |- context [HeapOrder.parent ?i] =>
      lazymatch goal with
      | _ : (2 * HeapOrder.parent i ≤ i - 1 ≤ 2 * HeapOrder.parent i + 1)%nat |- _ => fail
      | _ => pose proof (parent_spec i)
      end
  | _ : context [HeapOrder.parent ?i] |- _ =>
      lazymatch goal with
      | _ : (2 * HeapOrder.parent i ≤ i - 1 ≤ 2 * HeapOrder.parent i + 1)%nat |- _ => fail
      | _ => pose proof (parent_spec i)
      end
  end; lia.

Section HeapOrderFacts.
Context {A : Type} `{!Inhabited A} (less : A → A → bool) (P : A → Prop).
Hypothesis less_asym : ∀ a b, P a → P b → less a b = true → less b a = false.
Hypothesis le_trans : ∀ a b c, P a → P b → P c →
  HeapOrder.le less a b → HeapOrder.le less b c → HeapOrder.le less a c.
Implicit Types (h : list A) (x : A).

Local Abbreviation le := (HeapOrder.le less).
Local Abbreviation parent := HeapOrder.parent.

Lemma le_refl x : P x → le x x.
Proof.
intros Hx. unfold HeapOrder.le. destruct (less x x) eqn:Hxx; [|done].
by rewrite (less_asym x x Hx Hx Hxx) in Hxx.
Qed.

Lemma lookup_total_P h i : Forall P h → (i < length h)%nat → P (h !!! i).
Proof.
intros Hall Hi. eapply Forall_lookup_1; [exact Hall|].
by apply list_lookup_lookup_total_lt.
Qed.

(** The root of a heap is not after any of its items. *)
Lemma root_minimal h :
  HeapOrder.heap_ok less h → Forall P h →
  ∀ j, (j < length h)%nat → le (h !!! 0%nat) (h !!! j).
Proof.
intros Hheap Hall j. induction j as [j IH] using lt_wf_ind. intros Hj.
destruct (decide (j = 0%nat)) as [->|Hne].
- apply le_refl. by apply lookup_total_P.
- assert (Hp : (parent j < j)%nat) by parent_lia.
  apply (le_trans _ (h !!! parent j)).
  + apply lookup_total_P; [done|lia].
  + apply lookup_total_P; [done|lia].
  + by apply lookup_total_P.
  + apply IH; [done|lia].
  + apply Hheap. lia.
Qed.

(** [_siftdown] from a state where only the pair of [pos] and its parent
    may be out of order ends in a heap. *)
Lemma siftdown_loop_heap pos : ∀ h x h1 pos1,
  (pos < length h)%nat → Forall P h → P x →
  HeapOrder.swim_ok less (<[pos := x]> h) pos →
  Heapq.siftdown_loop less h 0 pos x = (h1, pos1) →
  HeapOrder.heap_ok less (<[pos1 := x]> h1).
Proof.
induction pos as [pos IH] using lt_wf_ind.
intros h x h1 pos1 Hpos Hall Hx [Hedges Hgrand] Heq.
rewrite siftdown_loop_unfold in Heq. unfold Heapq.siftdown_step in Heq.
change ((pos - 1) / 2)%nat with (parent pos) in Heq.
destruct (0 <? pos)%nat eqn:Hpos0.
2: { apply Nat.ltb_ge in Hpos0. assert (pos = 0%nat) as -> by lia.
     injection Heq as <- <-. intros i Hi. apply Hedges; [done|lia]. }
apply Nat.ltb_lt in Hpos0.
set (q := parent pos) in *. set (p := h !!! q) in *.
assert (Hq : (q < pos)%nat) by (unfold q; parent_lia).
assert (Hp : P p) by (apply lookup_total_P; [done|lia]).
assert (Hlook : ∀ i, <[pos := x]> h !!! i = if decide (i = pos) then x else h !!! i).
{ intros i. rewrite list_lookup_total_insert. repeat case_decide; try done; lia. }
rewrite length_insert in Hedges, Hgrand.
destruct (less x p) eqn:Hless.
- (* the parent moves down, the hole moves up *)
  assert (Hlook1 : ∀ i, <[q := x]> (<[pos := p]> h) !!! i =
            if decide (i = q) then x else if decide (i = pos) then p else h !!! i).
  { intros i. rewrite !list_lookup_total_insert, !length_insert.
    repeat case_decide; try done; lia. }
  assert (Hxp : le x p) by (by apply less_asym).
  assert (Hall' : Forall P (<[pos := x]> h)) by (by apply Forall_insert).
  assert (HP' : ∀ i, (i < length h)%nat → P (<[pos := x]> h !!! i)).
  { intros i Hi. apply lookup_total_P; [done|by rewrite length_insert]. }
  assert (Hq' : <[pos := x]> h !!! q = p).
  { rewrite Hlook. case_decide; [lia|done]. }
  apply (IH q Hq (<[pos := p]> h) x h1 pos1); [| |done| |done].
  + rewrite length_insert. lia.
  + by apply Forall_insert.
  + split; rewrite !length_insert.
    * intros i Hi Hne. rewrite !Hlook1.
      rewrite (decide_False (P := i = q)) by done.
      destruct (decide (i = pos)) as [->|Hipos].
      { fold q. by rewrite decide_True. }
      destruct (decide (parent i = q)) as [Hpi|Hpi].
      { (* the other child of the parent *)
        apply (le_trans _ p); [done|done| |done|].
        - specialize (HP' i ltac:(lia)). by rewrite Hlook, decide_False in HP'.
        - specialize (Hedges i Hi Hipos). rewrite Hpi, Hq', Hlook in Hedges.
          by rewrite decide_False in Hedges. }
      destruct (decide (parent i = pos)) as [Hpi'|Hpi'].
      { (* a child of the old position *)
        specialize (Hgrand Hpos0 i Hi Hpi'). fold q in Hgrand.
        by rewrite Hq', Hlook, decide_False in Hgrand. }
      specialize (Hedges i Hi Hipos). rewrite !Hlook in Hedges.
      by rewrite !decide_False in Hedges.
    * intros Hq0 c Hc Hpc. rewrite !Hlook1.
      assert (Hpq : (parent q < q)%nat) by parent_lia.
      rewrite (decide_False (P := parent q = q)) by lia.
      rewrite (decide_False (P := parent q = pos)) by lia.
      rewrite (decide_False (P := c = q)) by parent_lia.
      assert (Hgp : le (h !!! parent q) p).
      { specialize (Hedges q ltac:(lia) ltac:(lia)). rewrite Hq', Hlook in Hedges.
        by rewrite decide_False in Hedges by lia. }
      destruct (decide (c = pos)) as [->|Hcpos]; [done|].
      apply (le_trans _ p); [|done| |done|].
      -- apply lookup_total_P; [done|lia].
      -- apply lookup_total_P; [done|lia].
      -- specialize (Hedges c Hc Hcpos). rewrite Hpc, Hq', Hlook in Hedges.
         by rewrite decide_False in Hedges.
- (* the item stays below its parent *)
  injection Heq as <- <-. intros i Hi. rewrite length_insert in Hi.
  destruct (decide (i = pos)) as [->|Hne]; [|by apply Hedges].
  fold q. rewrite Hlook, decide_False by lia. fold p.
  rewrite Hlook, decide_True by done. exact Hless.
Qed.

Lemma siftdown_heap h pos :
  (pos < length h)%nat → Forall P h → HeapOrder.swim_ok less h pos →
  HeapOrder.heap_ok less (Heapq._siftdown less h 0 pos).
Proof.
intros Hpos Hall Hswim. unfold Heapq._siftdown.
destruct (Heapq.siftdown_loop less h 0 pos (h !!! pos)) as [h1 pos1] eqn:Heq.
eapply siftdown_loop_heap; [exact Hpos|done|by apply lookup_total_P| |exact Heq].
rewrite list_insert_id; [done|]. by apply list_lookup_lookup_total_lt.
Qed.

(** [heappush] keeps the heap property. *)
Lemma heappush_heap h x :
  HeapOrder.heap_ok less h → Forall P h → P x →
  HeapOrder.heap_ok less (Heapq.heappush less h x).
Proof.
intros Hheap Hall Hx. unfold Heapq.heappush.
apply siftdown_heap.
- rewrite length_app. simpl. lia.
- apply Forall_app. split; [done|by constructor].
- unfold HeapOrder.swim_ok. rewrite !length_app. simpl.
  replace (length h + 1 - 1)%nat with (length h) by lia. split.
  + intros i Hi Hne. rewrite !lookup_total_app_l by parent_lia.
    apply Hheap. lia.
  + intros _ c Hc Hpc. parent_lia.
Qed.

(** The first loop of [_siftup] takes the hole to a leaf and keeps the
    heap property around it. *)
Lemma siftup_loop_hole h pos : ∀ n h1 pos1,
  n = (length h - pos)%nat → (pos < length h)%nat → Forall P h →
  HeapOrder.hole_ok less h pos →
  Heapq.siftup_loop less h (length h) pos = (h1, pos1) →
  length h1 = length h ∧ (pos1 < length h)%nat ∧ (length h ≤ 2 * pos1 + 1)%nat ∧
  Forall P h1 ∧ HeapOrder.hole_ok less h1 pos1.
Proof.
intros n. revert h pos. induction n as [n IH] using lt_wf_ind.
intros h pos h1 pos1 -> Hpos Hall [Hedges Hgrand] Heq.
rewrite siftup_loop_unfold in Heq. unfold Heapq.siftup_step in Heq.
destruct (2 * pos + 1 <? length h)%nat eqn:Hchild.
2: { apply Nat.ltb_ge in Hchild. injection Heq as <- <-. by split_and!. }
apply Nat.ltb_lt in Hchild.
set (c := if (_ && _) then _ else _) in Heq.
assert (Hc : (c = 2 * pos + 1 ∨ c = 2 * pos + 2)%nat ∧ (c < length h)%nat ∧
             ∀ i, (0 < i < length h)%nat → parent i = pos → i ≠ c →
                  le (h !!! c) (h !!! i)).
{ unfold c. destruct (2 * pos + 1 + 1 <? length h)%nat eqn:Hright;
    [rewrite andb_true_l|rewrite andb_false_l].
  - apply Nat.ltb_lt in Hright.
    destruct (less (h !!! (2 * pos + 1)%nat) (h !!! (2 * pos + 1 + 1)%nat)) eqn:Hless;
      cbn [negb].
    + split_and!; [by left|done|]. intros i Hi Hpi Hne.
      assert (i = 2 * pos + 1 + 1)%nat as -> by parent_lia.
      apply less_asym; [| |done]; apply lookup_total_P; done || lia.
    + split_and!; [right; lia|done|]. intros i Hi Hpi Hne.
      assert (i = 2 * pos + 1)%nat as -> by parent_lia. exact Hless.
  - apply Nat.ltb_ge in Hright. split_and!; [by left|done|].
    intros i Hi Hpi Hne. parent_lia. }
destruct Hc as (Hc12 & Hclen & Hsmall).
assert (Hpc : parent c = pos) by parent_lia.
assert (Hlook : ∀ i, <[pos := h !!! c]> h !!! i =
                     if decide (i = pos) then h !!! c else h !!! i).
{ intros i. rewrite list_lookup_total_insert. repeat case_decide; try done; lia. }
rewrite <- (length_insert h pos (h !!! c)) in Heq.
eapply (IH (length h - c)%nat) in Heq; [|lia|by rewrite length_insert| | |].
- rewrite !length_insert in Heq. exact Heq.
- rewrite length_insert. done.
- apply Forall_insert; [done|]. by apply lookup_total_P.
- split; rewrite !length_insert.
  + intros i Hi Hne Hpne. rewrite !Hlook.
    destruct (decide (i = pos)) as [->|Hipos].
    * (* the old position now holds the child *)
      rewrite decide_False by parent_lia.
      apply Hgrand; [lia|lia|done].
    * destruct (decide (parent i = pos)) as [Hpi|Hpi].
      -- by apply Hsmall.
      -- by apply Hedges.
  + intros _ g Hg Hpg. rewrite !Hlook. rewrite Hpc.
    rewrite decide_True by done. rewrite decide_False by parent_lia.
    rewrite <- Hpg. apply Hedges; [done|parent_lia|parent_lia].
Qed.

(** [_siftup] from the root of a heap whose root has been replaced. *)
Lemma siftup_heap h :
  (0 < length h)%nat → Forall P h → HeapOrder.hole_ok less h 0 →
  HeapOrder.heap_ok less (Heapq._siftup less h 0).
Proof.
intros Hlen Hall Hhole. unfold Heapq._siftup.
destruct (Heapq.siftup_loop less h (length h) 0) as [h1 pos1] eqn:Heq.
destruct (siftup_loop_hole h 0 _ h1 pos1 eq_refl Hlen Hall Hhole Heq)
  as (Hlen1 & Hpos1 & Hleaf & Hall1 & [Hedges Hgrand]).
assert (Hx : P (h !!! 0%nat)) by by apply lookup_total_P.
apply siftdown_heap.
- rewrite length_insert. lia.
- by apply Forall_insert.
- split; rewrite !length_insert, Hlen1.
  + intros i Hi Hne.
    rewrite !list_lookup_total_insert_ne by parent_lia.
    apply Hedges; [lia|done|parent_lia].
  + intros _ c Hc Hpc. parent_lia.
Qed.

(** [heappop] hands out an item that no item of the heap precedes, and
    leaves a heap. *)
Lemma heappop_heap h x h' :
  HeapOrder.heap_ok less h → Forall P h →
  Heapq.heappop less h = Some (x, h') →
  HeapOrder.heap_ok less h' ∧ Forall P h' ∧ P x ∧ ∀ y, y ∈ h → le x y.
Proof.
intros Hheap Hall Hpop.
assert (Hperm := heappop_Permutation less h x h' Hpop).
assert (Hall' : Forall P (x :: h')) by by rewrite <- Hperm.
apply Forall_cons in Hall' as [Hx Hall'].
destruct (last h) as [lastelt|] eqn:Hlast.
2: { unfold Heapq.heappop in Hpop. by rewrite Hlast in Hpop. }
apply last_Some in Hlast as [front ->]. rewrite heappop_snoc in Hpop.
destruct front as [|returnitem tl]; simplify_eq.
- split_and!; [intros i Hi; simpl in Hi; lia|done|done|].
  intros y ->%list_elem_of_singleton. by apply le_refl.
- split_and!; [|done|done|].
  + apply siftup_heap.
    * simpl. lia.
    * apply Forall_insert.
      -- by apply Forall_app in Hall as [? _].
      -- apply Forall_app in Hall as [_ Hl]. by apply Forall_cons in Hl as [? _].
    * split; [|lia]. rewrite length_insert.
      intros i Hi Hne Hpne.
      rewrite !list_lookup_total_insert_ne by lia.
      specialize (Hheap i). rewrite length_app in Hheap.
      rewrite !lookup_total_app_l in Hheap by parent_lia.
      apply Hheap. lia.
  + intros y Hy. apply list_elem_of_lookup_total in Hy as (j & Hj & <-).
    by apply (root_minimal _ Hheap Hall j).
Qed.

End HeapOrderFacts.

(* ===================================================================== *)
(** * The order of dispatch under SJF and Priority *)
(* ===================================================================== *)

Section DispatchFacts.
Import Scheduler.
Implicit Types (s : Scheduler.t) (σ : ref → Process.t) (r : ref).

Lemma entry_lt_tuple σ k1 a1 r1 k2 a2 r2 :
  entry_lt σ (ETuple k1 a1 r1) (ETuple k2 a2 r2) = true ↔
  k1 < k2 ∨ (k1 = k2 ∧ (a1 < a2 ∨
    (a1 = a2 ∧ Process.priority (σ r1) < Process.priority (σ r2)))).
Proof.
unfold entry_lt, Process.__lt__.
destruct (Z.eqb_spec k1 k2) as [->|Hk]; simpl.
- destruct (Z.eqb_spec a1 a2) as [->|Ha]; simpl.
  + destruct (Nat.eqb_spec r1 r2) as [->|Hr]; simpl.
    * split; [done|lia].
    * rewrite Z.ltb_lt. lia.
  + rewrite Z.ltb_lt. lia.
- rewrite Z.ltb_lt. lia.
Qed.

Lemma entry_lt_tuple_false σ k1 a1 r1 k2 a2 r2 :
  entry_lt σ (ETuple k1 a1 r1) (ETuple k2 a2 r2) = false ↔
  k2 < k1 ∨ (k2 = k1 ∧ (a2 < a1 ∨
    (a2 = a1 ∧ Process.priority (σ r2) ≤ Process.priority (σ r1)))).
Proof.
rewrite <- not_true_iff_false, entry_lt_tuple. lia.
Qed.

Lemma entry_lt_asym σ e1 e2 :
  Dispatch.is_tuple e1 → Dispatch.is_tuple e2 →
  entry_lt σ e1 e2 = true → entry_lt σ e2 e1 = false.
Proof.
destruct e1 as [|k1 a1 r1], e2 as [|k2 a2 r2]; try done. intros _ _.
rewrite entry_lt_tuple, entry_lt_tuple_false. lia.
Qed.

Lemma entry_le_trans σ e1 e2 e3 :
  Dispatch.is_tuple e1 → Dispatch.is_tuple e2 → Dispatch.is_tuple e3 →
  HeapOrder.le (entry_lt σ) e1 e2 → HeapOrder.le (entry_lt σ) e2 e3 →
  HeapOrder.le (entry_lt σ) e1 e3.
Proof.
destruct e1 as [|k1 a1 r1], e2 as [|k2 a2 r2], e3 as [|k3 a3 r3]; try done.
intros _ _ _. unfold HeapOrder.le. rewrite !entry_lt_tuple_false. lia.
Qed.

Lemma entry_lt_ext σ σ' e1 e2 :
  (∀ r, Process.priority (σ' r) = Process.priority (σ r)) →
  entry_lt σ' e1 e2 = entry_lt σ e1 e2.
Proof.
intros Hprio. unfold entry_lt, Process.__lt__.
destruct e1, e2; by rewrite ?Hprio.
Qed.

Lemma heap_ok_ext σ σ' (q : list entry) :
  (∀ r, Process.priority (σ' r) = Process.priority (σ r)) →
  HeapOrder.heap_ok (entry_lt σ) q → HeapOrder.heap_ok (entry_lt σ') q.
Proof.
intros Hprio Hheap i Hi. unfold HeapOrder.le.
rewrite (entry_lt_ext σ σ') by done. by apply Hheap.
Qed.

Lemma add_process_heap alg s σ r :
  alg = "SJF"%string ∨ alg = "Priority"%string → algorithm s = alg →
  let σ' := <[r := Process.set_state "READY" (σ r)]> σ in
  add_process s σ r =
    (set_ready_queue
       (Heapq.heappush (entry_lt σ') (ready_queue s) (Dispatch.tuple_of alg σ' r)) s,
     σ').
Proof.
intros [-> | ->] Halg; unfold add_process; rewrite Halg; reflexivity.
Qed.

Lemma get_next_process_heap alg s σ r s2 :
  alg = "SJF"%string ∨ alg = "Priority"%string → algorithm s = alg →
  get_next_process s σ = (Some r, s2) →
  ∃ e q', Heapq.heappop (entry_lt σ) (ready_queue s) = Some (e, q') ∧
          r = entry_process e ∧ s2 = set_ready_queue q' s.
Proof.
intros Hor Halg. unfold get_next_process.
destruct (ready_queue s) as [|first rest] eqn:Hq; [done|].
assert (String.eqb (algorithm s) "SJF" || String.eqb (algorithm s) "Priority" = true)
  as -> by by destruct Hor as [-> | ->]; rewrite Halg.
destruct (Heapq.heappop _ _) as [[e q']|]; [|done].
intros [= <- <-]. by exists e, q'.
Qed.

Lemma tuple_of_ext alg σ σ' r :
  Process.remaining_time (σ' r) = Process.remaining_time (σ r) →
  Process.priority (σ' r) = Process.priority (σ r) →
  Process.arrival_time (σ' r) = Process.arrival_time (σ r) →
  Dispatch.tuple_of alg σ' r = Dispatch.tuple_of alg σ r.
Proof.
intros Hrem Hprio Harr. unfold Dispatch.tuple_of, Dispatch.key.
by rewrite Hrem, Hprio, Harr.
Qed.

Lemma tuples_are_tuples alg σ (q : list entry) :
  Forall (λ e, e = Dispatch.tuple_of alg σ (entry_process e)) q →
  Forall Dispatch.is_tuple q.
Proof. intros H. eapply Forall_impl; [exact H|]. by intros e ->. Qed.

Lemma heap_inv_init alg quantum σ all :
  NoDup all → Dispatch.heap_inv alg all (__init__ alg quantum) σ 0.
Proof.
intros Hnd. split_and!; simpl; [done| |done|done].
intros i Hi. simpl in Hi. lia.
Qed.

Lemma heap_inv_add alg all s σ idx :
  alg = "SJF"%string ∨ alg = "Priority"%string →
  Dispatch.heap_inv alg all s σ idx → (idx < length all)%nat →
  Dispatch.heap_inv alg all (add_process s σ (all !!! idx)).1
    (add_process s σ (all !!! idx)).2 (S idx).
Proof.
intros Hor (Halg & Hheap & Htup & Hnd) Hidx.
rewrite (add_process_heap alg) by done. cbv zeta. simpl.
set (x := all !!! idx) in *.
set (σ' := <[x := Process.set_state "READY" (σ x)]> σ).
assert (Hsame : ∀ r, Dispatch.tuple_of alg σ' r = Dispatch.tuple_of alg σ r).
{ intros r. apply tuple_of_ext; unfold σ';
    (destruct (decide (r = x)) as [->|Hne];
       [by rewrite fn_lookup_insert|by rewrite fn_lookup_insert_ne]). }
assert (Hprio : ∀ r, Process.priority (σ' r) = Process.priority (σ r)).
{ intros r. unfold σ'. destruct (decide (r = x)) as [->|Hne];
    [by rewrite fn_lookup_insert|by rewrite fn_lookup_insert_ne]. }
assert (Htup' : Forall (λ e, e = Dispatch.tuple_of alg σ' (entry_process e))
                  (ready_queue s)).
{ eapply Forall_impl; [exact Htup|]. intros e He. by rewrite Hsame. }
assert (Hdrop : drop idx all = x :: drop (S idx) all).
{ apply drop_S. unfold x. by apply list_lookup_lookup_total_lt. }
split_and!; simpl.
- done.
- apply (heappush_heap (entry_lt σ') Dispatch.is_tuple).
  + apply entry_lt_asym.
  + apply entry_le_trans.
  + by apply (heap_ok_ext σ).
  + by eapply tuples_are_tuples.
  + done.
- rewrite heappush_Permutation. by constructor.
- unfold Timing.queue_refs. rewrite heappush_Permutation. simpl.
  rewrite Hdrop in Hnd. by rewrite <- Permutation_middle in Hnd.
Qed.

Lemma heap_inv_jump alg all s σ idx t :
  Dispatch.heap_inv alg all s σ idx → Dispatch.heap_inv alg all (set_current_time t s) σ idx.
Proof. by intros (? & ? & ? & ?). Qed.

(** What [heappop] gives on the ready queue of an SJF or Priority
    scheduler. *)
Lemma heap_inv_pop alg all s σ idx e q' :
  Dispatch.heap_inv alg all s σ idx →
  Heapq.heappop (entry_lt σ) (ready_queue s) = Some (e, q') →
  e = Dispatch.tuple_of alg σ (entry_process e) ∧
  ready_queue s ≡ₚ e :: q' ∧
  Dispatch.heap_inv alg all (set_ready_queue q' s) σ idx ∧
  (entry_process e ∉ Timing.queue_refs q') ∧
  ∀ y, y ∈ ready_queue s → HeapOrder.le (entry_lt σ) e y.
Proof.
intros (Halg & Hheap & Htup & Hnd) Hpop.
pose proof (heappop_Permutation _ _ _ _ Hpop) as Hperm.
destruct (heappop_heap (entry_lt σ) Dispatch.is_tuple (entry_lt_asym σ)
            (entry_le_trans σ) _ _ _ Hheap (tuples_are_tuples _ _ _ Htup) Hpop)
  as (Hheap' & _ & _ & Hmin).
rewrite Hperm in Htup. apply Forall_cons in Htup as [He Htup'].
unfold Timing.queue_refs in *. rewrite Hperm in Hnd. simpl in Hnd.
apply NoDup_cons in Hnd as [Hnotin Hnd'].
split_and!; try done.
intros Hin. apply Hnotin. apply elem_of_app. by left.
Qed.

Lemma heap_inv_exec alg all s σ idx r s2 :
  alg = "SJF"%string ∨ alg = "Priority"%string →
  Dispatch.heap_inv alg all s σ idx →
  get_next_process s σ = (Some r, s2) →
  let '(c, s3, σ3) := execute s2 σ r (Process.remaining_time (σ r)) in
  Dispatch.heap_inv alg all s3 σ3 idx.
Proof.
intros Hor Hinv Hnext.
destruct (get_next_process_heap alg s σ r s2 Hor (proj1 Hinv) Hnext)
  as (e & q' & Hpop & -> & ->).
destruct (heap_inv_pop _ _ _ _ _ _ _ Hinv Hpop)
  as (_ & _ & (Halg & Hheap & Htup & Hnd) & Hnotin & _).
destruct (execute_spec (set_ready_queue q' s) σ (entry_process e)
            (Process.remaining_time (σ (entry_process e))))
  as (c & s3 & p' & -> & Halg3 & _ & Hq3 & _ & _ & _ & _ & Hprio & _).
simpl in *. unfold Dispatch.heap_inv. rewrite Halg3, Hq3.
split_and!; [done| | |done].
- apply (heap_ok_ext σ); [|done]. intros r.
  destruct (decide (r = entry_process e)) as [->|Hne];
    [by rewrite fn_lookup_insert|by rewrite fn_lookup_insert_ne].
- apply Forall_forall. intros y Hy.
  rewrite Forall_forall in Htup. rewrite (Htup y Hy) at 1.
  symmetry. assert (entry_process y ≠ entry_process e) as Hne.
  { intros Heq. apply Hnotin. rewrite <- Heq. unfold Timing.queue_refs.
    by apply list_elem_of_fmap_2. }
  apply tuple_of_ext; by rewrite fn_lookup_insert_ne.
Qed.

Lemma heap_inv_step alg all s σ idx s' σ' idx' :
  alg = "SJF"%string ∨ alg = "Priority"%string →
  Dispatch.heap_inv alg all s σ idx →
  schedule_step all (s, σ, idx) = Some (s', σ', idx') →
  Dispatch.heap_inv alg all s' σ' idx'.
Proof.
intros Hor. apply (schedule_step_inv (Dispatch.heap_inv alg all) all).
- intros s0 σ0 idx0 Hinv Hidx _. by apply heap_inv_add.
- intros s0 σ0 idx0 t Hinv _. by apply heap_inv_jump.
- intros s0 σ0 idx0 r s2 Hinv Hnext.
  destruct (get_next_process_heap alg s0 σ0 r s2 Hor (proj1 Hinv) Hnext)
    as (e & q' & _ & _ & Hs2).
  assert (String.eqb (algorithm s2) "RR" = false) as Hrr.
  { rewrite Hs2. simpl. rewrite (proj1 Hinv). by destruct Hor as [-> | ->]. }
  cbv zeta. rewrite Hrr. simpl.
  by apply (heap_inv_exec alg all s0 σ0 idx0 r s2).
Qed.

Lemma heap_inv_after_turns alg all n : ∀ s σ idx s' σ' idx',
  alg = "SJF"%string ∨ alg = "Priority"%string →
  Dispatch.heap_inv alg all s σ idx →
  Timing.after_turns n all (s, σ, idx) = Some (s', σ', idx') →
  Dispatch.heap_inv alg all s' σ' idx'.
Proof.
induction n as [|n IH]; intros s σ idx s' σ' idx' Hor Hinv; simpl.
- by intros [= <- <- <-].
- destruct (schedule_step all (s, σ, idx)) as [[[s1 σ1] idx1]|] eqn:Hstep; [|done].
  apply IH; [done|]. by eapply heap_inv_step.
Qed.

(** X1. Under SJF and Priority, with no process handed to [schedule] twice,
    every dispatch of [schedule] picks a process of the ready queue that no
    ready process precedes: none has a smaller key ([remaining_time] under
    SJF, [priority] under Priority), none with the same key arrived
    earlier, and none with the same key and arrival has a smaller
    [priority]. *)
Theorem heap_dispatch_least alg quantum σ0 processes n s σ idx s1 σ1 idx1 r s2 :
  alg = "SJF"%string ∨ alg = "Priority"%string →
  NoDup processes →
  Timing.after_turns n (sorted_by_arrival σ0 processes) (__init__ alg quantum, σ0, 0%nat)
    = Some (s, σ, idx) →
  admit_loop (sorted_by_arrival σ0 processes) s σ idx = (s1, σ1, idx1) →
  get_next_process s1 σ1 = (Some r, s2) →
  r ∈ Timing.queue_refs (ready_queue s1) ∧
  ∀ r', r' ∈ Timing.queue_refs (ready_queue s1) →
        Dispatch.not_after alg (σ1 r) (σ1 r').
Proof.
intros Hor Hnd Hturns Hadmit Hnext.
set (all := sorted_by_arrival σ0 processes) in *.
assert (Hinv : Dispatch.heap_inv alg all s σ idx).
{ eapply heap_inv_after_turns; [done| |exact Hturns].
  apply heap_inv_init. unfold all. by rewrite sorted_by_arrival_Permutation. }
destruct (admit_loop_inv (Dispatch.heap_inv alg all) all) with (s := s) (σ := σ) (idx := idx)
  as (s1' & σ1' & idx1' & Hadmit' & Hinv1 & _); [|done|].
{ intros s0 σ' idx0 Hinv0 Hidx _. by apply heap_inv_add. }
rewrite Hadmit in Hadmit'. injection Hadmit' as <- <- <-.
destruct (get_next_process_heap alg s1 σ1 r s2 Hor (proj1 Hinv1) Hnext)
  as (e & q' & Hpop & -> & ->).
destruct (heap_inv_pop _ _ _ _ _ _ _ Hinv1 Hpop) as (He & Hperm & _ & _ & Hmin).
split.
- unfold Timing.queue_refs. rewrite Hperm. simpl. by left.
- intros r' (y & -> & Hy)%list_elem_of_fmap.
  specialize (Hmin y Hy).
  destruct Hinv1 as (_ & _ & Htup & _). rewrite Forall_forall in Htup.
  rewrite (Htup y Hy), He in Hmin. unfold HeapOrder.le, Dispatch.tuple_of in Hmin.
  apply entry_lt_tuple_false in Hmin. simpl in Hmin.
  unfold Dispatch.not_after. lia.
Qed.

Lemma heap_dispatch_least_witness :
  1%nat ∈ Timing.queue_refs [ETuple 3 0 1%nat; ETuple 3 0 0%nat] ∧
  ∀ r', r' ∈ Timing.queue_refs [ETuple 3 0 1%nat; ETuple 3 0 0%nat] →
        Dispatch.not_after "SJF"
          ((admit_loop (sorted_by_arrival Demo.sjf_store Demo.sjf_processes)
              (__init__ "SJF" 0) Demo.sjf_store 0%nat).1.2 1%nat)
          ((admit_loop (sorted_by_arrival Demo.sjf_store Demo.sjf_processes)
              (__init__ "SJF" 0) Demo.sjf_store 0%nat).1.2 r').
Proof.
apply (heap_dispatch_least "SJF" 0 Demo.sjf_store Demo.sjf_processes 0
         (__init__ "SJF" 0) Demo.sjf_store 0%nat
         (set_ready_queue [ETuple 3 0 1%nat; ETuple 3 0 0%nat] (__init__ "SJF" 0))
         ((admit_loop (sorted_by_arrival Demo.sjf_store Demo.sjf_processes)
             (__init__ "SJF" 0) Demo.sjf_store 0%nat).1.2)
         2%nat 1%nat
         (set_ready_queue [ETuple 3 0 0%nat] (__init__ "SJF" 0))).
- left. reflexivity.
- unfold Demo.sjf_processes. apply NoDup_cons. split.
  + intros Hin. apply list_elem_of_singleton in Hin. discriminate Hin.
  + apply NoDup_singleton.
- reflexivity.
- vm_compute. reflexivity.
- vm_compute. reflexivity.
Defined.

End DispatchFacts.

(* ===================================================================== *)
(** * A run of [schedule], turn by turn *)
(* ===================================================================== *)

Section RunFacts.
Import Scheduler.
Implicit Types (s : Scheduler.t) (σ : ref → Process.t) (r : ref).

Lemma execute_detail s σ r time_slice :
  ∃ c p',
    let e := Z.min time_slice (Process.remaining_time (σ r)) in
    execute s σ r time_slice =
      (c, Run.after_slice s (ready_queue s) r (Process.pid (σ r)) e c,
       <[r := p']> σ) ∧
    Run.ran (current_time s) e (σ r) p' c.
Proof.
unfold execute, Run.after_slice.
destruct (Process.start_time _ =? -1) eqn:Hstart; simpl;
  destruct (_ =? 0) eqn:Hrem; simpl;
  [exists true|exists false|exists true|exists false];
  (eexists; split; [rewrite Z.add_simpl_r; reflexivity|]);
  simpl in Hstart;
  (split; simpl; rewrite ?Hstart, ?Hrem; try done; try lia).
Qed.

Lemma schedule_step_None all s σ idx :
  schedule_step all (s, σ, idx) = None ↔
  (length all ≤ idx)%nat ∧ ready_queue s = [].
Proof.
unfold schedule_step.
destruct (idx <? length all)%nat eqn:Hidx; simpl.
- apply Nat.ltb_lt in Hidx. split; [|lia].
  destruct (admit_loop _ _ _ _) as [[s1 σ1] idx1].
  case_bool_decide; [by destruct (_ <? _)%nat|].
  destruct (get_next_process _ _) as [[r|] s2]; [|done].
  destruct (String.eqb _ _).
  + destruct (execute _ _ _ _) as [[c s3] σ3]. destruct (negb c); [|done].
    by destruct (add_process _ _ _).
  + by destruct (execute _ _ _ _) as [[c s3] σ3].
- apply Nat.ltb_ge in Hidx. case_bool_decide as Hq; simpl.
  + by split.
  + split; [|by intros [_ ?]].
    destruct (admit_loop _ _ _ _) as [[s1 σ1] idx1].
    case_bool_decide; [by destruct (_ <? _)%nat|].
    destruct (get_next_process _ _) as [[r|] s2]; [|done].
    destruct (String.eqb _ _).
    * destruct (execute _ _ _ _) as [[c s3] σ3]. destruct (negb c); [|done].
      by destruct (add_process _ _ _).
    * by destruct (execute _ _ _ _) as [[c s3] σ3].
Qed.

(** The rule for one turn of the outer loop of [schedule]: a property
    that survives an admission, a jump of the clock to the next arrival, a
    slice that completes a process and, under RR, a slice that does not,
    survives the turn. *)
Lemma schedule_step_rule (P : Scheduler.t → (ref → Process.t) → nat → Prop) all :
  (∀ s σ idx, P s σ idx → (idx < length all)%nat →
     Process.arrival_time (σ (all !!! idx)) ≤ current_time s →
     P (add_process s σ (all !!! idx)).1 (add_process s σ (all !!! idx)).2 (S idx)) →
  (∀ s σ idx, P s σ idx → ready_queue s = [] → (idx < length all)%nat →
     current_time s < Process.arrival_time (σ (all !!! idx)) →
     P (set_current_time (Process.arrival_time (σ (all !!! idx))) s) σ idx) →
  (∀ s σ idx e q' p', P s σ idx →
     get_next_process s σ = (Some (entry_process e), set_ready_queue q' s) →
     ready_queue s ≡ₚ e :: q' →
     let r := entry_process e in
     let el := Z.min (Run.time_slice s (σ r)) (Process.remaining_time (σ r)) in
     Run.ran (current_time s) el (σ r) p' true →
     P (Run.after_slice s q' r (Process.pid (σ r)) el true) (<[r := p']> σ) idx) →
  (∀ s σ idx e q' p', P s σ idx →
     get_next_process s σ = (Some (entry_process e), set_ready_queue q' s) →
     ready_queue s ≡ₚ e :: q' →
     algorithm s = "RR"%string →
     let r := entry_process e in
     let el := Z.min (time_quantum s) (Process.remaining_time (σ r)) in
     Run.ran (current_time s) el (σ r) p' false →
     P (Run.after_slice s (q' ++ [EProc r]) r (Process.pid (σ r)) el false)
       (<[r := Process.set_state "READY" p']> (<[r := p']> σ)) idx) →
  ∀ s σ idx s' σ' idx',
    P s σ idx → schedule_step all (s, σ, idx) = Some (s', σ', idx') → P s' σ' idx'.
Proof.
intros Hadd Hjump Hdone Hpre s σ idx s' σ' idx' HP Hstep.
apply schedule_step_cases in Hstep as (_ & s1 & σ1 & idx1 & Hadmit & Hcases).
destruct (admit_loop_inv P all Hadd s σ idx HP)
  as (s1' & σ1' & idx1' & Hadmit' & HP1 & Hexit).
rewrite Hadmit in Hadmit'. injection Hadmit' as <- <- <-.
destruct Hcases as [[Hq Heq]|(e & q' & c & s3 & σ3 & Hnext & Hperm & Hexec & Heq)].
- injection Heq as -> -> ->.
  destruct (idx1 <? length all)%nat eqn:Hidx; [|done].
  apply Nat.ltb_lt in Hidx. apply admit_step_None in Hexit as [?|Hlate]; [lia|].
  by apply Hjump.
- destruct (execute_detail (set_ready_queue q' s1) σ1 (entry_process e)
              (if String.eqb (algorithm s1) "RR" then time_quantum s1
               else Process.remaining_time (σ1 (entry_process e))))
    as (c' & p' & Hexec' & Hran).
  cbv zeta in Hexec'. rewrite Hexec in Hexec'. injection Hexec' as <- -> ->.
  simpl in Hran.
  pose proof (Hdone s1 σ1 idx1 e q' p' HP1 Hnext Hperm) as Hdone1.
  pose proof (Hpre s1 σ1 idx1 e q' p' HP1 Hnext Hperm) as Hpre1.
  cbv zeta in Hdone1, Hpre1. unfold Run.time_slice in Hdone1.
  destruct (String.eqb (algorithm s1) "RR") eqn:Hrr.
  + apply String.eqb_eq in Hrr. destruct c; simpl in Heq.
    * injection Heq as -> -> ->. exact (Hdone1 Hran).
    * rewrite add_process_rr in Heq by done. simpl in Heq.
      rewrite fn_lookup_insert in Heq.
      injection Heq as -> -> ->. exact (Hpre1 Hrr Hran).
  + assert (c = true) as ->.
    { rewrite (Run.ran_completed _ _ _ _ _ Hran), (Run.ran_remaining_time _ _ _ _ _ Hran).
      apply Z.eqb_eq. lia. }
    simpl in Heq. injection Heq as -> -> ->. exact (Hdone1 Hran).
Qed.

Lemma schedule_loop_exit all : ∀ fuel st st',
  schedule_loop fuel all st = Some st' → schedule_step all st' = None.
Proof.
induction fuel as [|fuel IH]; intros st st'; simpl.
- destruct (schedule_step all st) eqn:Hs; [done|]. by intros [= <-].
- destruct (schedule_step all st) as [st1|] eqn:Hs; [apply IH|]. by intros [= <-].
Qed.

(** What [schedule] returns satisfies every property that holds at the
    start and survives a turn; the loop ends with every process admitted
    and nothing ready. *)
Lemma schedule_result (P : Scheduler.t → (ref → Process.t) → nat → Prop)
    s σ processes fuel s' σ' :
  (∀ s0 σ0 idx0 s1 σ1 idx1,
     P s0 σ0 idx0 →
     schedule_step (sorted_by_arrival σ processes) (s0, σ0, idx0) = Some (s1, σ1, idx1) →
     P s1 σ1 idx1) →
  P s σ 0%nat →
  schedule fuel s σ processes = Some (s', σ') →
  ∃ idx', P s' σ' idx' ∧ (length processes ≤ idx')%nat ∧ ready_queue s' = [].
Proof.
intros Hstep HP. unfold schedule.
destruct (schedule_loop _ _ _) as [[[s1 σ1] idx1]|] eqn:Hloop; [|done].
intros [= <- <-]. exists idx1.
pose proof (schedule_loop_exit _ _ _ _ Hloop) as [Hidx Hq]%schedule_step_None.
rewrite (Permutation_length (sorted_by_arrival_Permutation σ processes)) in Hidx.
split; [|done].
exact (schedule_loop_inv P (sorted_by_arrival σ processes) Hstep _ _ _ _ _ _ _ HP Hloop).
Qed.

(** Enough fuel lets [schedule] return, under every configuration but RR
    with a quantum that is not positive. *)
Lemma schedule_returns alg quantum σ processes :
  alg ≠ "RR"%string ∨ 0 < quantum →
  ∃ fuel s' σ', schedule fuel (__init__ alg quantum) σ processes = Some (s', σ').
Proof.
intros Hprog.
set (all := sorted_by_arrival σ processes).
destruct (schedule_loop_terminates all
            (Timing.work_left all (__init__ alg quantum, σ, 0%nat))
            (__init__ alg quantum) σ 0%nat Hprog (le_n _))
  as [[[s' σ'] idx'] Hloop].
exists (Timing.work_left all (__init__ alg quantum, σ, 0%nat)), s', σ'.
unfold schedule. fold all. by rewrite Hloop.
Qed.

Lemma add_process_known s σ r :
  Run.known (algorithm s) →
  ∃ q', add_process s σ r =
          (set_ready_queue q' s, <[r := Process.set_state "READY" (σ r)]> σ) ∧
        Timing.queue_refs q' ≡ₚ Timing.queue_refs (ready_queue s) ++ [r].
Proof.
intros Hknown. unfold add_process, Timing.queue_refs.
destruct Hknown as [H|[H|[H|H]]]; rewrite H; simpl;
  (eexists; split; [reflexivity|]);
  rewrite ?fmap_app, ?heappush_Permutation; simpl; try done;
  apply Permutation_cons_append.
Qed.

Lemma drop_lookup_total (all : list ref) idx :
  (idx < length all)%nat → drop idx all = all !!! idx :: drop (S idx) all.
Proof. intros Hidx. apply drop_S. by apply list_lookup_lookup_total_lt. Qed.

Lemma queue_refs_pop (q : list entry) e q' :
  q ≡ₚ e :: q' → Timing.queue_refs q ≡ₚ entry_process e :: Timing.queue_refs q'.
Proof. intros Hq. unfold Timing.queue_refs. by rewrite Hq. Qed.

Lemma queue_refs_snoc (q : list entry) r :
  Timing.queue_refs (q ++ [EProc r]) = Timing.queue_refs q ++ [r].
Proof. unfold Timing.queue_refs. by rewrite fmap_app. Qed.

Lemma accounted_step all s σ idx s' σ' idx' :
  Run.accounted all s σ idx →
  schedule_step all (s, σ, idx) = Some (s', σ', idx') →
  Run.accounted all s' σ' idx'.
Proof.
apply (schedule_step_rule (Run.accounted all) all); clear.
- intros s σ idx (Hknown & Hperm & Hfin) Hidx _.
  destruct (add_process_known s σ (all !!! idx) Hknown) as (q' & -> & Hq').
  simpl. rewrite (drop_lookup_total all idx Hidx) in Hperm, Hfin.
  split_and!; [done| |].
  + rewrite Hq'. etrans; [|exact Hperm].
    apply Permutation_app_head. by rewrite <- app_assoc.
  + intros r Hr. rewrite Hq'.
    destruct (decide (r = all !!! idx)) as [->|Hne].
    * right. left. apply elem_of_app. right. by left.
    * rewrite fn_lookup_insert_ne by done.
      destruct (Hfin r Hr) as [?|[?|Hd]]; [by left|right; left|].
      { apply elem_of_app. by left. }
      apply elem_of_cons in Hd as [?|?]; [done|by right; right].
- by intros s σ idx (? & ? & ?) _ _ _.
- intros s σ idx e q' p' (Hknown & Hperm & Hfin) _ Hq%queue_refs_pop r el Hran.
  unfold Run.accounted, Run.after_slice. simpl. fold r in Hq.
  assert (Hdone : Run.finished (<[r := p']> σ r)).
  { rewrite fn_lookup_insert. split.
    - pose proof (Run.ran_completed _ _ _ _ _ Hran) as Hc.
      symmetry in Hc. by apply Z.eqb_eq in Hc.
    - by rewrite (Run.ran_state _ _ _ _ _ Hran). }
  split_and!; [done| |].
  + etrans; [|exact Hperm]. rewrite Hq, <- app_assoc. done.
  + intros x Hx. destruct (decide (x = r)) as [->|Hne]; [by left|].
    rewrite fn_lookup_insert_ne by done.
    apply elem_of_app in Hx as [Hx| ->%list_elem_of_singleton]; [|done].
    destruct (Hfin x Hx) as [?|[Hd|?]]; [by left| |by right; right].
    rewrite Hq in Hd. apply elem_of_cons in Hd as [?|?]; [done|by right; left].
- intros s σ idx e q' p' (Hknown & Hperm & Hfin) _ Hq%queue_refs_pop Hrr r el Hran.
  unfold Run.accounted, Run.after_slice. simpl. fold r in Hq. rewrite queue_refs_snoc.
  split_and!; [done| |].
  + etrans; [|exact Hperm]. apply Permutation_app_head.
    rewrite Hq, <- app_assoc. simpl. symmetry. apply Permutation_middle.
  + intros x Hx.
    destruct (decide (x = r)) as [->|Hne].
    { right. left. apply elem_of_app. right. by left. }
    rewrite !fn_lookup_insert_ne by done.
    destruct (Hfin x Hx) as [?|[Hd|?]]; [by left| |by right; right].
    rewrite Hq in Hd. apply elem_of_cons in Hd as [?|?]; [done|].
    right. left. apply elem_of_app. by left.
Qed.

(** X2. Under the four algorithms that [add_process] knows, [schedule]
    loses no process: what it returns is the list it was handed, in some
    order, the ready queue is empty, and every process has no time left
    and is in state TERMINATED.  Enough fuel lets the call return unless
    the algorithm is RR with a quantum that is not positive. *)
Theorem schedule_completes_all alg quantum σ processes :
  Run.known alg →
  (alg ≠ "RR"%string ∨ 0 < quantum →
   ∃ fuel s' σ', schedule fuel (__init__ alg quantum) σ processes = Some (s', σ')) ∧
  ∀ fuel s' σ',
    schedule fuel (__init__ alg quantum) σ processes = Some (s', σ') →
    completed_processes s' ≡ₚ processes ∧ ready_queue s' = [] ∧
    ∀ r, r ∈ processes →
         Process.remaining_time (σ' r) = 0 ∧
         Process.state (σ' r) = "TERMINATED"%string.
Proof.
intros Hknown. split; [apply schedule_returns|].
intros fuel s' σ' Hrun.
assert (Hinit : Run.accounted (sorted_by_arrival σ processes)
                  (__init__ alg quantum) σ 0).
{ split_and!; [done| |by intros r ?%elem_of_nil]. by rewrite drop_0. }
destruct (schedule_result (Run.accounted (sorted_by_arrival σ processes))
            _ _ _ _ _ _ (accounted_step _) Hinit Hrun)
  as (idx' & (_ & Hperm & Hfin) & Hidx & Hq).
rewrite Hq in Hperm, Hfin. simpl in Hperm, Hfin.
rewrite drop_ge in Hperm, Hfin
  by by rewrite (Permutation_length (sorted_by_arrival_Permutation σ processes)).
rewrite app_nil_r, sorted_by_arrival_Permutation in Hperm.
split_and!; [done|done|].
intros r Hr. rewrite <- Hperm in Hr.
destruct (Hfin r Hr) as [?|[?%elem_of_nil|?%elem_of_nil]]; done.
Qed.

Lemma schedule_completes_all_witness :
  ∃ s' σ',
    schedule 20 (__init__ "RR" 2) Demo.store Demo.processes = Some (s', σ') ∧
    completed_processes s' ≡ₚ Demo.processes ∧ ready_queue s' = [] ∧
    Process.state (σ' 0%nat) = "TERMINATED"%string.
Proof.
destruct (schedule 20 (__init__ "RR" 2) Demo.store Demo.processes)
  as [[s' σ']|] eqn:Hrun; [|vm_compute in Hrun; discriminate Hrun].
exists s', σ'. split; [reflexivity|].
destruct (schedule_completes_all "RR" 2 Demo.store Demo.processes) as [_ Hall].
- right. right. right. reflexivity.
- destruct (Hall 20%nat s' σ' Hrun) as (Hperm & Hq & Hfin).
  split; [exact Hperm|]. split; [exact Hq|].
  apply (Hfin 0%nat). unfold Demo.processes. left.
Defined.

Lemma add_process_unknown s σ r :
  ¬ Run.known (algorithm s) →
  add_process s σ r = (s, <[r := Process.set_state "READY" (σ r)]> σ).
Proof.
intros Hunknown. unfold add_process, Run.known in *.
destruct (String.eqb_spec (algorithm s) "FCFS"); [tauto|].
destruct (String.eqb_spec (algorithm s) "SJF"); [tauto|].
destruct (String.eqb_spec (algorithm s) "Priority"); [tauto|].
destruct (String.eqb_spec (algorithm s) "RR"); [tauto|]. done.
Qed.

Lemma ignored_step σ0 all s σ idx s' σ' idx' :
  Run.ignored σ0 all s σ idx →
  schedule_step all (s, σ, idx) = Some (s', σ', idx') →
  Run.ignored σ0 all s' σ' idx'.
Proof.
apply (schedule_step_rule (Run.ignored σ0 all) all); clear.
- intros s σ idx (Hunknown & Hq & Hdone & Hchart & Hσ) Hidx _.
  rewrite add_process_unknown by done. simpl.
  split_and!; try done. intros r.
  rewrite (take_S_r all idx (all !!! idx))
    by by apply list_lookup_lookup_total_lt.
  destruct (decide (r = all !!! idx)) as [->|Hne].
  + rewrite fn_lookup_insert, bool_decide_eq_true_2
      by (apply elem_of_app; right; by left).
    rewrite Hσ. case_bool_decide; [|done]. by destruct (σ0 _).
  + rewrite fn_lookup_insert_ne, Hσ by done.
    rewrite (bool_decide_ext (r ∈ take idx all ++ [all !!! idx]) (r ∈ take idx all));
      [done|]. rewrite elem_of_app, list_elem_of_singleton. tauto.
- by intros s σ idx (? & ? & ? & ? & ?) _ _ _.
- intros s σ idx e q' p' (_ & Hq & _) _ Hperm. rewrite Hq in Hperm.
  by apply Permutation_nil_cons in Hperm.
- intros s σ idx e q' p' (_ & Hq & _) _ Hperm. rewrite Hq in Hperm.
  by apply Permutation_nil_cons in Hperm.
Qed.

(** X3. A scheduler built with a name that [add_process] does not know
    (anything but FCFS, SJF, Priority and RR) runs nothing: [schedule]
    returns an empty list and an empty Gantt chart, with every process
    marked READY and otherwise as it was handed in. *)
Theorem unknown_algorithm_runs_nothing alg quantum σ processes :
  ¬ Run.known alg →
  (∃ fuel s' σ', schedule fuel (__init__ alg quantum) σ processes = Some (s', σ')) ∧
  ∀ fuel s' σ',
    schedule fuel (__init__ alg quantum) σ processes = Some (s', σ') →
    completed_processes s' = [] ∧ gantt_chart s' = [] ∧
    ∀ r, r ∈ processes → σ' r = Process.set_state "READY" (σ r).
Proof.
intros Hunknown. split.
{ apply schedule_returns. left. intros ->. apply Hunknown. by do 3 right. }
intros fuel s' σ' Hrun.
assert (Hinit : Run.ignored σ (sorted_by_arrival σ processes)
                  (__init__ alg quantum) σ 0).
{ split_and!; try done. }
destruct (schedule_result (Run.ignored σ (sorted_by_arrival σ processes))
            _ _ _ _ _ _ (ignored_step σ _) Hinit Hrun)
  as (idx' & (_ & _ & Hdone & Hchart & Hσ) & Hidx & _).
split_and!; [done|done|]. intros r Hr. rewrite Hσ.
rewrite bool_decide_eq_true_2; [done|].
rewrite take_ge
  by by rewrite (Permutation_length (sorted_by_arrival_Permutation σ processes)).
by rewrite sorted_by_arrival_Permutation.
Qed.

Lemma unknown_algorithm_runs_nothing_witness :
  ∃ s' σ',
    schedule 20 (__init__ "LIFO" 2) Demo.store Demo.processes = Some (s', σ') ∧
    completed_processes s' = [] ∧ gantt_chart s' = [].
Proof.
destruct (schedule 20 (__init__ "LIFO" 2) Demo.store Demo.processes)
  as [[s' σ']|] eqn:Hrun; [|vm_compute in Hrun; discriminate Hrun].
exists s', σ'. split; [reflexivity|].
destruct (unknown_algorithm_runs_nothing "LIFO" 2 Demo.store Demo.processes)
  as [_ Hall].
- intros [H|[H|[H|H]]]; discriminate H.
- destruct (Hall 20%nat s' σ' Hrun) as (Hdone & Hchart & _).
  split; [exact Hdone|exact Hchart].
Defined.

(** ** The sort of [schedule] is sorted and stable *)

Lemma insert_by_arrival_sorted σ x l :
  Run.by_arrival σ l → Run.by_arrival σ (insert_by_arrival σ x l).
Proof.
induction l as [|y l IH]; simpl.
- by repeat constructor.
- intros [Hall Hsorted].
  destruct (Z.leb_spec (Process.arrival_time (σ y)) (Process.arrival_time (σ x))); simpl.
  + split; [|by apply IH]. rewrite insert_by_arrival_Permutation. by constructor.
  + split_and!; [|done|done]. constructor; [lia|].
    eapply Forall_impl; [exact Hall|]. simpl. intros z Hz. lia.
Qed.

Lemma filter_none {B} (Q : B → Prop) `{!∀ x, Decision (Q x)} (l : list B) :
  Forall (λ x, ¬ Q x) l → filter Q l = [].
Proof.
induction 1 as [|x l Hx _ IH]; [done|]. by rewrite filter_cons_False.
Qed.

Lemma insert_by_arrival_filter σ x l t :
  Run.by_arrival σ l →
  filter (λ r, Process.arrival_time (σ r) = t) (insert_by_arrival σ x l) =
  filter (λ r, Process.arrival_time (σ r) = t) (l ++ [x]).
Proof.
induction l as [|y l IH]; simpl; [done|]. intros [Hall Hsorted].
destruct (Z.leb_spec (Process.arrival_time (σ y)) (Process.arrival_time (σ x))).
- rewrite !filter_cons. by rewrite IH.
- rewrite !filter_cons, filter_app, filter_cons, filter_nil.
  destruct (decide (Process.arrival_time (σ x) = t)) as [Hx|Hx].
  + rewrite (filter_none _ l).
    * repeat (destruct (decide _); [lia|]). done.
    * eapply Forall_impl; [exact Hall|]. simpl. intros z Hz. lia.
  + by rewrite app_nil_r.
Qed.

Lemma sorted_by_arrival_snoc σ l x :
  sorted_by_arrival σ (l ++ [x]) = insert_by_arrival σ x (sorted_by_arrival σ l).
Proof. unfold sorted_by_arrival. by rewrite fold_left_app. Qed.

Lemma sorted_by_arrival_sorted σ l : Run.by_arrival σ (sorted_by_arrival σ l).
Proof.
induction l as [|x l IH] using rev_ind; [done|].
rewrite sorted_by_arrival_snoc. by apply insert_by_arrival_sorted.
Qed.

Lemma sorted_by_arrival_stable σ l t :
  filter (λ r, Process.arrival_time (σ r) = t) (sorted_by_arrival σ l) =
  filter (λ r, Process.arrival_time (σ r) = t) l.
Proof.
induction l as [|x l IH] using rev_ind; [done|].
rewrite sorted_by_arrival_snoc, insert_by_arrival_filter
  by apply sorted_by_arrival_sorted.
by rewrite !filter_app, IH.
Qed.

Lemma by_arrival_lookup σ l : ∀ i j ri rj,
  Run.by_arrival σ l → l !! i = Some ri → l !! j = Some rj → (i < j)%nat →
  Process.arrival_time (σ ri) ≤ Process.arrival_time (σ rj).
Proof.
induction l as [|x l IH]; intros i j ri rj; [done|]. simpl. intros [Hall Hsorted].
destruct i as [|i], j as [|j]; simpl; try lia.
- intros [= <-] Hj _. rewrite Forall_forall in Hall. apply Hall.
  by eapply list_elem_of_lookup_2.
- intros Hi Hj Hij. apply (IH i j); [done|done|done|lia].
Qed.

Lemma get_next_process_fifo s σ r rest :
  algorithm s = "FCFS"%string ∨ algorithm s = "RR"%string →
  ready_queue s = EProc r :: rest →
  get_next_process s σ = (Some r, set_ready_queue rest s).
Proof.
intros Halg Hq. unfold get_next_process. rewrite Hq.
by destruct Halg as [-> | ->].
Qed.

Lemma in_order_step all s σ idx s' σ' idx' :
  Run.in_order all s σ idx →
  schedule_step all (s, σ, idx) = Some (s', σ', idx') →
  Run.in_order all s' σ' idx'.
Proof.
apply (schedule_step_rule (Run.in_order all) all); clear.
- intros s σ idx (Halg & Hq & Hall) Hidx _.
  rewrite add_process_fcfs by done. unfold Run.in_order. simpl.
  rewrite queue_refs_snoc, fmap_app, <- Hq, <- app_assoc. simpl.
  by rewrite <- (drop_lookup_total all idx Hidx).
- by intros s σ idx (? & ? & ?) _ _ _.
- intros s σ idx e q' p' (Halg & Hq & Hall) Hnext Hperm r el Hran.
  destruct (Timing.queue_refs (ready_queue s)) as [|r0 refs] eqn:Hrefs.
  { rewrite Hq in Hperm. by apply Permutation_nil_cons in Hperm. }
  simpl in Hq. rewrite (get_next_process_fifo s σ r0 (EProc <$> refs)) in Hnext
    by (by left || done).
  injection Hnext as Hr0 Hq'. subst q'. subst r. rewrite <- Hr0 in *.
  unfold Run.in_order, Run.after_slice. simpl.
  assert (Timing.queue_refs (EProc <$> refs) = refs) as Hrefs'.
  { unfold Timing.queue_refs. rewrite <- list_fmap_compose. apply list_fmap_id. }
  rewrite Hrefs'. split_and!; [done|done|]. by rewrite <- app_assoc.
- intros s σ idx e q' p' (Halg & _) _ _ Hrr. by rewrite Halg in Hrr.
Qed.

(** X4. Under FCFS [schedule] returns, and it completes the processes in
    the order of their arrival times, those that arrive together in the
    order of the list it was handed: the list returned is that list after
    a stable sort by [arrival_time]. *)
Theorem fcfs_completes_in_arrival_order quantum σ processes :
  ∃ fuel s' σ',
    schedule fuel (__init__ "FCFS" quantum) σ processes = Some (s', σ') ∧
    completed_processes s' ≡ₚ processes ∧
    (∀ i j ri rj,
       completed_processes s' !! i = Some ri →
       completed_processes s' !! j = Some rj → (i < j)%nat →
       Process.arrival_time (σ ri) ≤ Process.arrival_time (σ rj)) ∧
    (∀ t, filter (λ r, Process.arrival_time (σ r) = t) (completed_processes s') =
          filter (λ r, Process.arrival_time (σ r) = t) processes).
Proof.
destruct (schedule_returns "FCFS" quantum σ processes) as (fuel & s' & σ' & Hrun).
{ by left. }
exists fuel, s', σ'. split; [done|].
assert (Hinit : Run.in_order (sorted_by_arrival σ processes)
                  (__init__ "FCFS" quantum) σ 0).
{ split_and!; try done. }
destruct (schedule_result (Run.in_order (sorted_by_arrival σ processes))
            _ _ _ _ _ _ (in_order_step _) Hinit Hrun)
  as (idx' & (_ & _ & Hall) & Hidx & Hq).
rewrite Hq in Hall. simpl in Hall.
rewrite drop_ge, app_nil_r in Hall
  by by rewrite (Permutation_length (sorted_by_arrival_Permutation σ processes)).
rewrite Hall. split_and!.
- apply sorted_by_arrival_Permutation.
- intros i j ri rj. apply by_arrival_lookup, sorted_by_arrival_sorted.
- apply sorted_by_arrival_stable.
Qed.

(** ** The clock and the Gantt chart *)














(** ** The metrics of the processes *)

Lemma add_process_lookup s σ r x :
  (add_process s σ r).2 x = σ x ∨
  (add_process s σ r).2 x = Process.set_state "READY" (σ x).
Proof.
rewrite add_process_store. destruct (decide (x = r)) as [->|Hne];
  [right; by rewrite fn_lookup_insert|left; by rewrite fn_lookup_insert_ne].
Qed.









(** ** Policies that do not preempt *)

Lemma unpreempted_step all s σ idx s' σ' idx' :
  Run.unpreempted all s σ idx →
  schedule_step all (s, σ, idx) = Some (s', σ', idx') →
  Run.unpreempted all s' σ' idx'.
Proof.
apply (schedule_step_rule (Run.unpreempted all) all); clear.
- intros s σ idx (Halg & Hnd & Hnew & Hdone & Htrace) Hidx _.
  destruct (add_process_fields s σ (all !!! idx)) as (Ha & _ & _ & Hc & Hg).
  unfold Run.unpreempted, trace. rewrite Ha, Hc, Hg.
  rewrite (drop_lookup_total all idx Hidx) in Hnd, Hnew.
  assert (Hsame : ∀ r, Run.slice_of (add_process s σ (all !!! idx)).2 r = Run.slice_of σ r).
  { intros r. unfold Run.slice_of.
    by destruct (add_process_lookup s σ (all !!! idx) r) as [-> | ->]. }
  split_and!; [done| | | |].
  + destruct (add_process_spec s σ (all !!! idx)) as (q' & -> & [Hq'| ->]); simpl.
    * rewrite Hq', <- app_assoc. done.
    * rewrite !app_assoc, <- Permutation_middle in Hnd.
      apply NoDup_cons in Hnd as [_ Hnd]. by rewrite <- app_assoc in Hnd.
  + intros r Hr.
    assert (r ∈ Timing.queue_refs (ready_queue s) ++ all !!! idx :: drop (S idx) all)
      as Hr'.
    { apply elem_of_app in Hr as [Hr|Hr].
      - apply add_process_queue_refs in Hr as [?| ->].
        + apply elem_of_app. by left.
        + apply elem_of_app. right. by left.
      - apply elem_of_app. right. by right. }
    destruct (add_process_lookup s σ (all !!! idx) r) as [-> | ->]; by apply Hnew.
  + intros r Hr.
    destruct (add_process_lookup s σ (all !!! idx) r) as [-> | ->]; by apply Hdone.
  + unfold trace in Htrace. rewrite Htrace. apply list_fmap_ext. by intros _ r _.
- by intros s σ idx (? & ? & ? & ? & ?) _ _ _.
- intros s σ idx e q' p' (Halg & Hnd & Hnew & Hdone & Htrace) _ Hq r el Hran.
  pose proof (queue_refs_pop _ _ _ Hq) as Hrefs. fold r in Hrefs.
  rewrite Hrefs in Hnd.
  assert (Hr : r ∈ Timing.queue_refs (ready_queue s) ++ drop idx all).
  { apply elem_of_app. left. rewrite Hrefs. by left. }
  destruct (Hnew r Hr) as [Hstart Hrem].
  assert (Hel : el = Process.burst_time (σ r)).
  { subst el. unfold Run.time_slice.
    destruct (String.eqb_spec (algorithm s) "RR"); [done|]. lia. }
  assert (Hr_new : r ∉ completed_processes s).
  { intros Hin. apply NoDup_app in Hnd as (_ & Hdisj & _).
    apply (Hdisj r Hin). by left. }
  assert (Hr_once : r ∉ Timing.queue_refs q' ++ drop idx all).
  { apply NoDup_app in Hnd as (_ & _ & Hnd). simpl in Hnd.
    by apply NoDup_cons in Hnd as [? _]. }
  unfold Run.unpreempted, Run.after_slice, trace. simpl. split_and!; [done| | | |].
  + rewrite <- app_assoc. simpl. done.
  + intros x Hx. rewrite fn_lookup_insert_ne by (by intros ->).
    apply Hnew. rewrite Hrefs. simpl. by right.
  + intros x Hx. destruct (decide (x = r)) as [->|Hne].
    * rewrite fn_lookup_insert.
      rewrite (Run.ran_completion_time _ _ _ _ _ Hran),
        (Run.ran_start_time _ _ _ _ _ Hran), (Run.ran_response_time _ _ _ _ _ Hran),
        (Run.ran_waiting_time _ _ _ _ _ Hran), (Run.ran_burst_time _ _ _ _ _ Hran),
        (Run.ran_arrival_time _ _ _ _ _ Hran), Hstart. simpl. lia.
    * rewrite fn_lookup_insert_ne by done.
      apply elem_of_app in Hx as [Hx| ->%list_elem_of_singleton]; [|done].
      by apply Hdone.
  + unfold trace in Htrace. rewrite !fmap_app, Htrace. simpl. f_equal.
    * apply list_fmap_ext. intros _ x Hx%list_elem_of_lookup_2.
      unfold Run.slice_of. rewrite fn_lookup_insert_ne; [done|by intros ->].
    * unfold Run.slice_of. rewrite fn_lookup_insert.
      rewrite (Run.ran_completion_time _ _ _ _ _ Hran),
        (Run.ran_start_time _ _ _ _ _ Hran), (Run.ran_pid _ _ _ _ _ Hran), Hstart.
      done.
- intros s σ idx e q' p' (Halg & _) _ _ Hrr. done.
Qed.

(** X7. FCFS, SJF and Priority do not preempt: for distinct processes as
    [Process.__init__] builds them, [schedule] returns, the Gantt chart has
    exactly one entry for each completed process, in the order of
    completion, from its start time to its completion time, the two are
    [burst_time] apart, and the waiting time of a process is its response
    time. *)
Theorem non_preemptive_single_slice alg quantum σ processes :
  alg ≠ "RR"%string → NoDup processes →
  Forall (λ r, Process.start_time (σ r) = -1 ∧
               Process.remaining_time (σ r) = Process.burst_time (σ r)) processes →
  ∃ fuel s' σ',
    schedule fuel (__init__ alg quantum) σ processes = Some (s', σ') ∧
    trace s' = Run.slice_of σ' <$> completed_processes s' ∧
    ∀ r, r ∈ completed_processes s' →
      Process.completion_time (σ' r) =
        Process.start_time (σ' r) + Process.burst_time (σ' r) ∧
      Process.response_time (σ' r) =
        Process.start_time (σ' r) - Process.arrival_time (σ' r) ∧
      Process.waiting_time (σ' r) = Process.response_time (σ' r).
Proof.
intros Halg Hnd Hfresh.
destruct (schedule_returns alg quantum σ processes (or_introl Halg))
  as (fuel & s' & σ' & Hrun).
exists fuel, s', σ'. split; [done|].
assert (Hinit : Run.unpreempted (sorted_by_arrival σ processes)
                  (__init__ alg quantum) σ 0).
{ split_and!; simpl; [done| | |by intros r ?%elem_of_nil|done].
  - by rewrite drop_0, sorted_by_arrival_Permutation.
  - intros r Hr. rewrite drop_0, sorted_by_arrival_Permutation in Hr.
    by apply (proj1 (Forall_forall _ _) Hfresh). }
destruct (schedule_result (Run.unpreempted (sorted_by_arrival σ processes))
            _ _ _ _ _ _ (unpreempted_step _) Hinit Hrun)
  as (idx' & (_ & _ & _ & Hdone & Htrace) & _ & _).
by split.
Qed.

Lemma non_preemptive_single_slice_witness :
  ∃ fuel s' σ',
    schedule fuel (__init__ "SJF" 0) Demo.store Demo.processes = Some (s', σ') ∧
    trace s' = Run.slice_of σ' <$> completed_processes s' ∧
    ∀ r, r ∈ completed_processes s' →
      Process.completion_time (σ' r) =
        Process.start_time (σ' r) + Process.burst_time (σ' r) ∧
      Process.response_time (σ' r) =
        Process.start_time (σ' r) - Process.arrival_time (σ' r) ∧
      Process.waiting_time (σ' r) = Process.response_time (σ' r).
Proof.
apply (non_preemptive_single_slice "SJF" 0 Demo.store Demo.processes).
- discriminate.
- unfold Demo.processes. apply (bool_decide_unpack _). reflexivity.
- unfold Demo.processes.
  repeat (apply Forall_cons; split; [split; reflexivity|]).
  apply Forall_nil_2.
Defined.

(** ** The time the processor is busy *)









Lemma py_truediv_Some a b : b ≠ 0 →
  MemoryManager.py_truediv a b = Some (inject_Z a / inject_Z b)%Q.
Proof.
intros Hb. unfold MemoryManager.py_truediv.
by destruct (Z.eqb_spec b 0).
Qed.





(** ** The averages *)












End RunFacts.

(* ===================================================================== *)
(** * The three placement strategies *)
(* ===================================================================== *)

Section FitFacts.
Import MemoryManager.
Implicit Types (objs : ref → MemoryBlock.t) (blocks : list ref) (size : Z).

Lemma first_fit_loop_None objs size blocks :
  first_fit_loop objs blocks size = None →
  ∀ r', r' ∈ blocks → fits (objs r') size = false.
Proof.
induction blocks as [|x blocks IH]; simpl.
- by intros _ r' ?%elem_of_nil.
- destruct (fits (objs x) size) eqn:Hx; [done|].
  intros Hnone r' [->|Hr']%elem_of_cons; [done|by apply IH].
Qed.

Lemma best_fit_loop_spec objs size blocks :
  Placement.best_so_far objs size blocks (fold_left (best_fit_step objs size) blocks (None, None)).
Proof.
induction blocks as [|x blocks IH] using rev_ind; simpl.
- by intros r' ?%elem_of_nil.
- rewrite fold_left_app. simpl.
  destruct (fold_left _ blocks _) as [[r|] [d|]]; simpl in IH; try done.
  + destruct IH as (-> & i & Hi & Hr & Hbest).
    pose proof (lookup_lt_Some _ _ _ Hi) as Hlt.
    unfold best_fit_step. simpl. destruct (fits (objs x) size) eqn:Hx.
    * destruct (Z.ltb_spec (MemoryBlock.size (objs x) - size)
                           (MemoryBlock.size (objs r) - size)); simpl.
      -- split; [done|]. exists (length blocks). split_and!; [|done|].
         { by rewrite lookup_app_r, Nat.sub_diag by lia. }
         intros j r' Hj Hr'. apply lookup_app_Some in Hj as [Hj|[Hlen Hj]].
         ++ destruct (Hbest j r' Hj Hr'); [left; lia|left; lia].
         ++ apply list_lookup_singleton_Some in Hj as [Hj <-]. right. split; [done|lia].
      -- split; [done|]. exists i. split_and!; [|done|].
         { by rewrite lookup_app_l by lia. }
         intros j r' Hj Hr'. apply lookup_app_Some in Hj as [Hj|[Hlen Hj]].
         ++ by apply Hbest.
         ++ apply list_lookup_singleton_Some in Hj as [Hj <-].
            destruct (decide (MemoryBlock.size (objs r) = MemoryBlock.size (objs x)));
              [right; split; [done|lia]|left; lia].
    * split; [done|]. exists i. split_and!; [|done|].
      { by rewrite lookup_app_l by lia. }
      intros j r' Hj Hr'. apply lookup_app_Some in Hj as [Hj|[Hlen Hj]].
      -- by apply Hbest.
      -- apply list_lookup_singleton_Some in Hj as [Hj <-]. congruence.
  + unfold best_fit_step. simpl. destruct (fits (objs x) size) eqn:Hx; simpl.
    * split; [done|]. exists (length blocks). split_and!; [|done|].
      { by rewrite lookup_app_r, Nat.sub_diag by lia. }
      intros j r' Hj Hr'. apply lookup_app_Some in Hj as [Hj|[Hlen Hj]].
      -- apply list_elem_of_lookup_2 in Hj. rewrite (IH r' Hj) in Hr'. done.
      -- apply list_lookup_singleton_Some in Hj as [Hj <-]. right. split; [done|lia].
    * intros r' [Hr'| ->%list_elem_of_singleton]%elem_of_app; [by apply IH|done].
Qed.

Lemma worst_fit_loop_spec objs size blocks :
  Placement.worst_so_far objs size blocks (fold_left (worst_fit_step objs size) blocks (None, -1)).
Proof.
induction blocks as [|x blocks IH] using rev_ind; simpl.
- split; [done|]. by intros r' ?%elem_of_nil.
- rewrite fold_left_app. simpl.
  destruct (fold_left _ blocks _) as [[r|] max_size]; simpl in IH.
  + destruct IH as (-> & i & Hi & Hr & Hworst).
    pose proof (lookup_lt_Some _ _ _ Hi) as Hlt.
    unfold worst_fit_step. simpl. destruct (fits (objs x) size) eqn:Hx.
    * destruct (Z.ltb_spec (MemoryBlock.size (objs r)) (MemoryBlock.size (objs x))); simpl.
      -- split; [done|]. exists (length blocks). split_and!; [|done|].
         { by rewrite lookup_app_r, Nat.sub_diag by lia. }
         intros j r' Hj Hr'. apply lookup_app_Some in Hj as [Hj|[Hlen Hj]].
         ++ destruct (Hworst j r' Hj Hr'); [left; lia|left; lia].
         ++ apply list_lookup_singleton_Some in Hj as [Hj <-]. right. split; [done|lia].
      -- split; [done|]. exists i. split_and!; [|done|].
         { by rewrite lookup_app_l by lia. }
         intros j r' Hj Hr'. apply lookup_app_Some in Hj as [Hj|[Hlen Hj]].
         ++ by apply Hworst.
         ++ apply list_lookup_singleton_Some in Hj as [Hj <-].
            destruct (decide (MemoryBlock.size (objs x) = MemoryBlock.size (objs r)));
              [right; split; [done|lia]|left; lia].
    * split; [done|]. exists i. split_and!; [|done|].
      { by rewrite lookup_app_l by lia. }
      intros j r' Hj Hr'. apply lookup_app_Some in Hj as [Hj|[Hlen Hj]].
      -- by apply Hworst.
      -- apply list_lookup_singleton_Some in Hj as [Hj <-]. congruence.
  + destruct IH as [-> Hnone].
    unfold worst_fit_step. simpl. destruct (fits (objs x) size) eqn:Hx; simpl.
    * destruct (Z.ltb_spec (-1) (MemoryBlock.size (objs x))); simpl.
      -- split; [done|]. exists (length blocks). split_and!; [|done|].
         { by rewrite lookup_app_r, Nat.sub_diag by lia. }
         intros j r' Hj Hr'. apply lookup_app_Some in Hj as [Hj|[Hlen Hj]].
         ++ apply list_elem_of_lookup_2 in Hj. specialize (Hnone r' Hj Hr'). left. lia.
         ++ apply list_lookup_singleton_Some in Hj as [Hj <-]. right. split; [done|lia].
      -- split; [done|].
         intros r' [Hr'| ->%list_elem_of_singleton]%elem_of_app; [by apply Hnone|].
         intros _. lia.
    * split; [done|].
      intros r' [Hr'| ->%list_elem_of_singleton]%elem_of_app; [by apply Hnone|].
      congruence.
Qed.

(** X10. [_first_fit] returns the first block of the list that is free
    and large enough, and [None] exactly when there is none. *)
Theorem first_fit_takes_first m size :
  match _first_fit m size with
  | Some r =>
      ∃ i, memory_blocks m !! i = Some r ∧ fits (objects m r) size = true ∧
           ∀ j r', (j < i)%nat → memory_blocks m !! j = Some r' →
                   fits (objects m r') size = false
  | None => ∀ r', r' ∈ memory_blocks m → fits (objects m r') size = false
  end.
Proof.
unfold _first_fit. induction (memory_blocks m) as [|x blocks IH]; simpl.
- by intros r' ?%elem_of_nil.
- destruct (fits (objects m x) size) eqn:Hx.
  + exists 0%nat. split_and!; [done|done|]. intros j r' Hj. lia.
  + destruct (first_fit_loop (objects m) blocks size) as [r|].
    * destruct IH as (i & Hi & Hr & Hbefore). exists (S i). split_and!; [done|done|].
      intros [|j] r' Hj; simpl; [by intros [= <-]|]. apply Hbefore. lia.
    * intros r' [->|Hr']%elem_of_cons; [done|by apply IH].
Qed.

(** X11. [_best_fit] returns a smallest block among those that are free
    and large enough, the first of them in the list when several have
    that size, and [None] exactly when no block fits. *)
Theorem best_fit_takes_smallest m size :
  match _best_fit m size with
  | Some r =>
      ∃ i, memory_blocks m !! i = Some r ∧ fits (objects m r) size = true ∧
           ∀ j r', memory_blocks m !! j = Some r' → fits (objects m r') size = true →
             MemoryBlock.size (objects m r) < MemoryBlock.size (objects m r') ∨
             (MemoryBlock.size (objects m r) = MemoryBlock.size (objects m r') ∧
              (i ≤ j)%nat)
  | None => ∀ r', r' ∈ memory_blocks m → fits (objects m r') size = false
  end.
Proof.
unfold _best_fit. pose proof (best_fit_loop_spec (objects m) size (memory_blocks m)) as H.
destruct (fold_left _ _ _) as [[r|] [d|]]; simpl in *; try done.
by destruct H as (_ & H).
Qed.

(** X12. [_worst_fit] returns a largest block among those that are free
    and large enough, the first of them in the list when several have
    that size.  It returns [None] when no block fits, and also when every
    block that fits has a negative size, which the search cannot see
    above its starting value -1; with sizes that are not negative [None]
    means that no block fits. *)
Theorem worst_fit_takes_largest m size :
  match _worst_fit m size with
  | Some r =>
      ∃ i, memory_blocks m !! i = Some r ∧ fits (objects m r) size = true ∧
           ∀ j r', memory_blocks m !! j = Some r' → fits (objects m r') size = true →
             MemoryBlock.size (objects m r') < MemoryBlock.size (objects m r) ∨
             (MemoryBlock.size (objects m r') = MemoryBlock.size (objects m r) ∧
              (i ≤ j)%nat)
  | None =>
      (∀ r', r' ∈ memory_blocks m → fits (objects m r') size = true →
             MemoryBlock.size (objects m r') < 0) ∧
      (Forall (λ b, 0 ≤ MemoryBlock.size b) (block_list m) →
       ∀ r', r' ∈ memory_blocks m → fits (objects m r') size = false)
  end.
Proof.
unfold _worst_fit.
pose proof (worst_fit_loop_spec (objects m) size (memory_blocks m)) as H.
destruct (fold_left _ _ _) as [[r|] max_size]; simpl in *.
- by destruct H as (_ & H).
- destruct H as [_ H]. split; [done|]. intros Hpos r' Hr'.
  destruct (fits (objects m r') size) eqn:Hfits; [|done].
  specialize (H r' Hr' Hfits). rewrite Forall_forall in Hpos.
  assert (0 ≤ MemoryBlock.size (objects m r')); [|lia].
  apply Hpos. unfold block_list. by apply list_elem_of_fmap_2.
Qed.

End FitFacts.

(* ===================================================================== *)
(** * What [allocate] grants *)
(* ===================================================================== *)

Section AllocationFacts.
Import MemoryManager.
Implicit Types (m : MemoryManager.t) (process : Process.t).

Lemma suitable_block_None m size :
  Forall (λ b, 0 ≤ MemoryBlock.size b) (block_list m) →
  (suitable_block m size = None ↔
   ¬ Placement.known (strategy m) ∨
   ∀ r, r ∈ memory_blocks m → fits (objects m r) size = false).
Proof.
intros Hpos. unfold suitable_block, Placement.known.
assert (Hfound : ∀ r, suitable_block m size = Some r →
                      r ∈ memory_blocks m ∧ fits (objects m r) size = true)
  by apply suitable_block_found.
unfold suitable_block in Hfound.
destruct (String.eqb_spec (strategy m) "First-Fit") as [Hs|Hs1].
{ pose proof (first_fit_loop_None (objects m) size (memory_blocks m)) as H.
  unfold _first_fit in *. destruct (first_fit_loop _ _ _) as [r|].
  - split; [done|]. intros [Hk|Hnone]; [tauto|].
    destruct (Hfound r eq_refl) as [Hr Hfit]. rewrite (Hnone r Hr) in Hfit. done.
  - split; [intros _; right; by apply H|done]. }
destruct (String.eqb_spec (strategy m) "Best-Fit") as [Hs|Hs2].
{ pose proof (best_fit_loop_spec (objects m) size (memory_blocks m)) as H.
  unfold _best_fit in *. destruct (fold_left _ _ _) as [[r|] [d|]]; simpl in *; try done.
  - split; [done|]. intros [Hk|Hnone]; [tauto|].
    destruct (Hfound r eq_refl) as [Hr Hfit]. rewrite (Hnone r Hr) in Hfit. done.
  - split; [by right|done]. }
destruct (String.eqb_spec (strategy m) "Worst-Fit") as [Hs|Hs3].
{ pose proof (worst_fit_loop_spec (objects m) size (memory_blocks m)) as H.
  unfold _worst_fit in *. destruct (fold_left _ _ _) as [[r|] max_size]; simpl in *.
  - split; [done|]. intros [Hk|Hnone]; [tauto|].
    destruct (Hfound r eq_refl) as [Hr Hfit]. rewrite (Hnone r Hr) in Hfit. done.
  - split; [|done]. intros _. right. intros r Hr.
    destruct (fits (objects m r) size) eqn:Hfit; [|done].
    destruct H as [_ H]. specialize (H r Hr Hfit). rewrite Forall_forall in Hpos.
    assert (0 ≤ MemoryBlock.size (objects m r)); [|lia].
    apply Hpos. unfold block_list. by apply list_elem_of_fmap_2. }
split; [intros _; left; tauto|done].
Qed.

(** X13. [allocate] succeeds exactly when the strategy is one of the
    three it knows and some free block is large enough (block sizes not
    being negative); when it fails it leaves the manager and the process
    as they were. *)
Theorem allocate_succeeds_iff m process :
  Forall (λ b, 0 ≤ MemoryBlock.size b) (block_list m) →
  ((allocate m process).1.1 = true ↔
   Placement.known (strategy m) ∧
   ∃ b, b ∈ block_list m ∧ MemoryBlock.allocated b = false ∧
        Process.memory_required process ≤ MemoryBlock.size b) ∧
  ((allocate m process).1.1 = false → allocate m process = (false, m, process)).
Proof.
intros Hpos.
pose proof (suitable_block_None m (Process.memory_required process) Hpos) as Hnone.
unfold allocate.
destruct (suitable_block m (Process.memory_required process)) as [r|] eqn:Hsuit.
- destruct (_ <? _); simpl; (split; [|done]); (split; [intros _|done]).
  all: destruct (suitable_block_found _ _ _ Hsuit) as [Hr Hfit].
  all: apply fits_free_le in Hfit as [Hfree Hle].
  all: split; [|exists (objects m r); split_and!; [|done|done];
                unfold block_list; by apply list_elem_of_fmap_2].
  all: destruct (decide (Placement.known (strategy m))) as [|Hunknown]; [done|].
  all: assert (Some r = None) by (apply Hnone; by left); done.
- simpl. split; [|done]. split; [done|]. intros [Hknown (b & Hb & Hfree & Hle)].
  destruct (proj1 Hnone eq_refl) as [?|Hno]; [done|].
  unfold block_list in Hb. apply list_elem_of_fmap in Hb as (r & -> & Hr).
  specialize (Hno r Hr). unfold fits in Hno. rewrite Hfree in Hno. simpl in Hno.
  apply Z.leb_gt in Hno. lia.
Qed.

Lemma allocate_succeeds_iff_witness :
  (allocate Demo.manager Demo.p1).1.1 = true ↔
  Placement.known (strategy Demo.manager) ∧
  ∃ b, b ∈ block_list Demo.manager ∧ MemoryBlock.allocated b = false ∧
       Process.memory_required Demo.p1 ≤ MemoryBlock.size b.
Proof.
apply (allocate_succeeds_iff Demo.manager Demo.p1).
apply Forall_cons. split; [vm_compute; discriminate|apply Forall_nil_2].
Defined.

(** ** Utilization *)

Lemma total_size_split V :
  Layout.total_size V =
  Layout.total_size (filter (λ b, MemoryBlock.allocated b = true) V) +
  Layout.total_size (filter (λ b, MemoryBlock.allocated b = false) V).
Proof.
induction V as [|b V IH]; [done|]. rewrite !filter_cons. simpl.
destruct (MemoryBlock.allocated b) eqn:Hb.
- rewrite decide_True, decide_False by done. simpl. lia.
- rewrite decide_False, decide_True by done. simpl. lia.
Qed.

Lemma total_size_nonneg V :
  Layout.sizes_positive V → 0 ≤ Layout.total_size V.
Proof.
induction 1 as [|b V Hb _ IH]; simpl; lia.
Qed.

Lemma sizes_positive_filter (Q : MemoryBlock.t → Prop) `{!∀ b, Decision (Q b)} V :
  Layout.sizes_positive V → Layout.sizes_positive (filter Q V).
Proof.
unfold Layout.sizes_positive. rewrite !Forall_forall.
intros HV b [_ Hb]%list_elem_of_filter. by apply HV.
Qed.

(** X14. [get_utilization] raises exactly when [total_memory] is 0.  On
    the states a manager of positive size reaches, it returns the share
    of the memory that is not free, as a percentage between 0 and 100. *)
Theorem get_utilization_bounds total strat calls :
  0 < total → Forall Layout.valid_call calls →
  (∀ m, get_utilization m = None ↔ total_memory m = 0) ∧
  ∃ q, get_utilization (run (__init__ total strat) calls) = Some q ∧
       (q == inject_Z (total - Layout.total_size
                                  (Layout.free_blocks (run (__init__ total strat) calls)))
             / inject_Z total * 100)%Q ∧
       (0 <= q <= 100)%Q.
Proof.
intros Htotal Hvalid. split.
{ intros m. unfold get_utilization, py_truediv.
  destruct (Z.eqb_spec (total_memory m) 0); simpl; split; done. }
set (m := run (__init__ total strat) calls).
destruct (run_layout_ok total strat calls) as [(_ & _ & Hsize & _) Hmem].
pose proof (run_positive total strat calls Htotal Hvalid) as Hpos.
fold m in Hsize, Hmem, Hpos.
pose proof (total_size_split (block_list m)) as Hsplit.
fold (Layout.free_blocks m) in Hsplit.
pose proof (total_size_nonneg _
  (sizes_positive_filter (λ b, MemoryBlock.allocated b = true) _ Hpos)) as Hused.
pose proof (total_size_nonneg _
  (sizes_positive_filter (λ b, MemoryBlock.allocated b = false) _ Hpos)) as Hfree.
fold (Layout.free_blocks m) in Hfree.
unfold get_utilization. rewrite py_sum_total_size, Hmem.
rewrite py_truediv_Some by lia. simpl. eexists. split; [done|].
assert (Layout.total_size (filter (λ b, MemoryBlock.allocated b = true) (block_list m))
        = total - Layout.total_size (Layout.free_blocks m)) as -> by lia.
split; [done|]. apply ratio_bounds; lia.
Qed.

Lemma get_utilization_bounds_witness :
  ∃ q, get_utilization (run (__init__ 100 "First-Fit") Demo.calls) = Some q ∧
       (q == inject_Z (100 - Layout.total_size
                               (Layout.free_blocks
                                  (run (__init__ 100 "First-Fit") Demo.calls)))
             / inject_Z 100 * 100)%Q ∧
       (0 <= q <= 100)%Q.
Proof.
apply (get_utilization_bounds 100 "First-Fit" Demo.calls).
- lia.
- unfold Demo.calls.
  repeat (apply Forall_cons; split; [vm_compute; try reflexivity; exact I|]).
  apply Forall_nil_2.
Defined.

(** ** The block that is granted *)

Lemma allocate_detail m process r pre post :
  Layout.store_ok m →
  suitable_block m (Process.memory_required process) = Some r →
  memory_blocks m = pre ++ r :: post →
  let b := objects m r in
  let m' := (allocate m process).1.2 in
    memory_blocks m' =
      pre ++ r :: (if Process.memory_required process <? MemoryBlock.size b
                   then [next_ref m] else []) ++ post ∧
    objects m' r = Layout.granted b process ∧
    (∀ x, x ∈ pre ++ post → objects m' x = objects m x) ∧
    ((Process.memory_required process <? MemoryBlock.size b) = true →
     objects m' (next_ref m) =
       MemoryBlock.__init__ (MemoryBlock.start b + Process.memory_required process)
                            (MemoryBlock.size b - Process.memory_required process)).
Proof.
intros [Hnd Hlt] Hsuit Hblocks b m'.
destruct (suitable_block_found _ _ _ Hsuit) as [_ Hfit].
rewrite Hblocks in Hnd, Hlt.
assert (Hpre : r ∉ pre).
{ apply NoDup_app in Hnd as (_ & Hpre & _). intros Hin. apply (Hpre r Hin). left. }
assert (Hpost : r ∉ post).
{ apply NoDup_app in Hnd as (_ & _ & Hnd). by apply NoDup_cons in Hnd as [? _]. }
assert (Hr : (r < next_ref m)%nat).
{ apply Forall_app in Hlt as [_ Hlt]. by apply Forall_cons in Hlt as [? _]. }
assert (Hfresh : next_ref m ∉ pre ++ post).
{ intros Hx. assert (next_ref m ∈ pre ++ r :: post) as Hx'.
  { apply elem_of_app in Hx as [?|?]; apply elem_of_app; [by left|right; by right]. }
  pose proof (proj1 (Forall_forall _ _) Hlt _ Hx'). simpl in *. lia. }
assert (Hother : ∀ x, x ∈ pre ++ post → x ≠ r).
{ intros x [?|?]%elem_of_app ->; done. }
subst m' b. unfold allocate. rewrite Hsuit.
destruct (_ <? _) eqn:Hsplit; simpl.
- rewrite Hblocks, index_middle, list_insert_at_middle by done.
  split_and!; [done| | |].
  + rewrite fn_lookup_insert. rewrite fn_lookup_insert_ne; [done|lia].
  + intros x Hx. rewrite !fn_lookup_insert_ne; [done| |].
    all: intros Heq; rewrite <- Heq in Hx;
      first [by apply Hfresh|by apply (Hother _ Hx)].
  + intros _. rewrite fn_lookup_insert_ne; [|lia]. by rewrite fn_lookup_insert.
- rewrite Hblocks. split_and!; [done| | |done].
  + by rewrite fn_lookup_insert.
  + intros x Hx. rewrite fn_lookup_insert_ne; [done|].
    intros Heq. rewrite <- Heq in Hx. by apply (Hother _ Hx).
Qed.

(** X15. On the states a manager of positive size reaches, a successful
    [allocate] of a positive amount hands out addresses inside the
    memory: the range from [memory_start] to [memory_end] has exactly
    [memory_required] addresses, all of them in [[0, total_memory)], and
    the block on record for the pid is a block of the list that covers
    exactly this range and is allocated to the pid. *)
Theorem allocate_within_memory total strat calls process m' process' :
  0 < total → Forall Layout.valid_call calls →
  0 < Process.memory_required process →
  allocate (run (__init__ total strat) calls) process = (true, m', process') →
  Process.memory_allocated process' = true ∧
  0 ≤ Process.memory_start process' ∧
  Process.memory_end process' < total ∧
  Process.memory_end process' - Process.memory_start process' + 1 =
    Process.memory_required process ∧
  ∃ r, allocated_blocks m' !! Process.pid process = Some r ∧
       r ∈ memory_blocks m' ∧
       objects m' r =
         MemoryBlock.mk (Process.memory_start process')
           (Process.memory_required process) true (Some (Process.pid process)).
Proof.
intros Htotal Hvalid Hreq Halloc.
set (m := run (__init__ total strat) calls) in *.
destruct (run_layout_ok total strat calls) as [(Hstore & Hcont & Hsize & _) Hmem].
pose proof (run_positive total strat calls Htotal Hvalid) as Hpos.
fold m in Hstore, Hcont, Hsize, Hmem, Hpos.
destruct (suitable_block m (Process.memory_required process)) as [r|] eqn:Hsuit;
  [|by rewrite allocate_failure in Halloc].
destruct (allocate_success m process r Hstore Hsuit)
  as (pre & post & m1 & Heq & Hblocks & Hfit & _ & _ & _ & Hown & _).
destruct (allocate_detail m process r pre post Hstore Hsuit Hblocks)
  as (Hblocks' & Hobj & _).
rewrite Halloc in Heq, Hblocks', Hobj. simpl in Hblocks', Hobj.
injection Heq as <- ->. simpl.
apply fits_free_le in Hfit as [_ Hle].
assert (Hb : block_list m !! length pre = Some (objects m r)).
{ unfold block_list. rewrite Hblocks, list_lookup_fmap, lookup_app_r by lia.
  by rewrite Nat.sub_diag. }
pose proof (contiguous_from_lower _ _ _ _ Hcont Hpos Hb) as Hlow.
pose proof (contiguous_from_upper _ _ _ _ Hcont Hpos Hb) as Hup.
split_and!; [done|lia|lia|lia|].
exists r. split_and!.
- by rewrite Hown, lookup_insert_eq.
- rewrite Hblocks'. apply elem_of_app. right. by left.
- by rewrite Hobj.
Qed.

Lemma allocate_within_memory_witness :
  Process.memory_allocated Demo.p1_allocated = true ∧
  0 ≤ Process.memory_start Demo.p1_allocated ∧
  Process.memory_end Demo.p1_allocated < 100 ∧
  Process.memory_end Demo.p1_allocated - Process.memory_start Demo.p1_allocated + 1 =
    Process.memory_required Demo.p1 ∧
  ∃ r, allocated_blocks Demo.manager1 !! Process.pid Demo.p1 = Some r ∧
       r ∈ memory_blocks Demo.manager1 ∧
       objects Demo.manager1 r =
         MemoryBlock.mk (Process.memory_start Demo.p1_allocated)
           (Process.memory_required Demo.p1) true (Some (Process.pid Demo.p1)).
Proof.
apply (allocate_within_memory 100 "First-Fit" [] Demo.p1 Demo.manager1 Demo.p1_allocated).
- lia.
- apply Forall_nil_2.
- vm_compute. reflexivity.
- reflexivity.
Defined.

(** ** Freeing what has just been granted *)

Lemma coalesce_from_flags (Q : MemoryBlock.t → Prop) rest : ∀ cur,
  (∀ b sz, Q b → Q (MemoryBlock.set_size sz b)) →
  Forall Q (cur :: rest) → Forall Q (Layout.coalesce_from cur rest).
Proof.
induction rest as [|nb rest IH]; intros cur Hsize Hall; simpl; [done|].
apply Forall_cons in Hall as [Hcur Hrest].
destruct (_ && _).
- apply IH; [done|]. apply Forall_cons in Hrest as [_ Hrest].
  constructor; [by apply Hsize|done].
- constructor; [done|]. by apply IH.
Qed.

Lemma coalesce_flags (Q : MemoryBlock.t → Prop) V :
  (∀ b sz, Q b → Q (MemoryBlock.set_size sz b)) →
  Forall Q V → Forall Q (Layout.coalesce V).
Proof. destruct V; [done|]. apply coalesce_from_flags. Qed.

Lemma coalesce_from_fixed rest : ∀ cur,
  Layout.no_adjacent_free (cur :: rest) → Layout.coalesce_from cur rest = cur :: rest.
Proof.
induction rest as [|nb rest IH]; intros cur; [done|].
intros [Hpair Hrest]. simpl.
destruct (MemoryBlock.allocated cur), (MemoryBlock.allocated nb); simpl;
  try (by rewrite IH); by destruct Hpair.
Qed.

Lemma coalesce_from_keep A : ∀ cur y Y,
  Layout.no_adjacent_free (cur :: A ++ [y]) →
  Layout.coalesce_from cur (A ++ y :: Y) = cur :: A ++ Layout.coalesce_from y Y.
Proof.
induction A as [|a A IH]; intros cur y Y.
- intros [Hpair _]. simpl.
  destruct (MemoryBlock.allocated cur), (MemoryBlock.allocated y); simpl;
    try done; by destruct Hpair.
- intros [Hpair Hrest]. simpl.
  destruct (MemoryBlock.allocated cur), (MemoryBlock.allocated a); simpl;
    try (by rewrite IH); by destruct Hpair.
Qed.

Lemma no_adjacent_free_suffix A : ∀ B,
  Layout.no_adjacent_free (A ++ B) → Layout.no_adjacent_free B.
Proof.
induction A as [|a A IH]; intros B; [done|].
intros H. apply no_adjacent_free_cons in H as [_ H]. by apply IH.
Qed.

Lemma no_adjacent_free_prefix A : ∀ b B f,
  Layout.no_adjacent_free (A ++ b :: B) →
  MemoryBlock.allocated f = MemoryBlock.allocated b →
  Layout.no_adjacent_free (A ++ [f]).
Proof.
induction A as [|a A IH]; intros b B f; [done|].
intros H Hf. change ((a :: A) ++ b :: B) with (a :: (A ++ b :: B)) in H.
apply no_adjacent_free_cons in H as [Hhead H].
change ((a :: A) ++ [f]) with (a :: (A ++ [f])).
apply no_adjacent_free_cons. split; [|by eapply IH].
destruct A as [|a' A]; simpl in *; [by rewrite Hf|done].
Qed.

(** Coalescing gives back the free block that a grant has split. *)
Lemma coalesce_restore A b B process :
  Layout.no_adjacent_free (A ++ b :: B) →
  fits b (Process.memory_required process) = true →
  MemoryBlock.process_id b = None →
  Layout.coalesce (A ++ Layout.freed (Layout.granted b process)
                     :: Layout.remainder b process ++ B) = A ++ b :: B.
Proof.
intros Hnaf Hfit Hnone. apply fits_free_le in Hfit as [Hfree Hle].
set (f := Layout.freed (Layout.granted b process)).
assert (Hmerge : Layout.coalesce_from f (Layout.remainder b process ++ B) = b :: B).
{ pose proof (no_adjacent_free_suffix A _ Hnaf) as HB.
  unfold Layout.remainder. destruct (Z.ltb_spec (Process.memory_required process)
                                                (MemoryBlock.size b)); simpl.
  - assert (MemoryBlock.set_size
              (Process.memory_required process
               + (MemoryBlock.size b - Process.memory_required process)) f = b) as ->.
    { destruct b. simpl in *. subst. unfold MemoryBlock.set_size. simpl.
      f_equal. lia. }
    by apply coalesce_from_fixed.
  - assert (f = b) as ->.
    { destruct b. simpl in *. subst. unfold f, Layout.freed, Layout.granted.
      unfold MemoryBlock.set_process_id, MemoryBlock.set_allocated. simpl.
      f_equal. lia. }
    by apply coalesce_from_fixed. }
destruct A as [|a A]; simpl; [done|].
rewrite coalesce_from_keep, Hmerge; [done|].
apply (no_adjacent_free_prefix (a :: A) b B f Hnaf). by rewrite Hfree.
Qed.

Lemma allocate_tidy m process :
  Layout.store_ok m → Forall Placement.tidy (block_list m) →
  Forall Placement.tidy (block_list (allocate m process).1.2).
Proof.
intros Hstore Htidy.
destruct (suitable_block m (Process.memory_required process)) as [r|] eqn:Hsuit;
  [|by rewrite allocate_failure].
destruct (allocate_success m process r Hstore Hsuit)
  as (pre & post & m' & -> & Hblocks & _ & Hview & _).
simpl. rewrite Hview. unfold block_list in Htidy. rewrite Hblocks, fmap_app, fmap_cons in Htidy.
apply Forall_app in Htidy as [HA HB]. apply Forall_cons in HB as [_ HB].
apply Forall_app. split; [done|]. constructor; [done|].
apply Forall_app. split; [|done].
unfold Layout.remainder. destruct (_ <? _); by repeat constructor.
Qed.

Lemma deallocate_tidy m process :
  Layout.store_ok m → Forall Placement.tidy (block_list m) →
  Forall Placement.tidy (block_list (deallocate m process).1.2).
Proof.
intros Hstore Htidy.
destruct (allocated_blocks m !! Process.pid process) as [r|] eqn:Hown;
  [|by rewrite deallocate_failure].
destruct (deallocate_success m process r Hstore Hown) as (m' & -> & Hview & _).
simpl. rewrite Hview. apply coalesce_flags; [by intros [] sz|].
apply Forall_fmap, Forall_forall. intros x Hx. simpl.
destruct (decide (x = r)) as [->|Hne].
- by rewrite fn_lookup_insert.
- rewrite fn_lookup_insert_ne by done.
  apply (proj1 (Forall_forall _ _) Htidy). unfold block_list.
  by apply list_elem_of_fmap_2.
Qed.

Lemma run_tidy total strat calls :
  Forall Placement.tidy (block_list (run (__init__ total strat) calls)).
Proof.
induction calls as [|c calls IH] using rev_ind.
- by repeat constructor.
- rewrite run_snoc. destruct (run_layout_ok total strat calls) as [[Hstore _] _].
  destruct c; simpl; [by apply allocate_tidy|by apply deallocate_tidy].
Qed.

(** X16. On every state the manager reaches, a successful [allocate]
    followed by [deallocate] of the same process succeeds and leaves the
    block list exactly as it was before the two calls: the split is undone
    by the merge.  The ownership record is as before too when the pid had
    no entry in it. *)
Theorem allocate_deallocate_round_trip total strat calls process m1 process1 :
  allocate (run (__init__ total strat) calls) process = (true, m1, process1) →
  ∃ m2,
    deallocate m1 process1 = (true, m2, Process.set_memory_allocated false process1) ∧
    block_list m2 = block_list (run (__init__ total strat) calls) ∧
    (allocated_blocks (run (__init__ total strat) calls) !! Process.pid process = None →
     allocated_blocks m2 = allocated_blocks (run (__init__ total strat) calls)).
Proof.
intros Halloc. set (m := run (__init__ total strat) calls) in *.
destruct (run_layout_ok total strat calls) as [(Hstore & _ & _ & Hnaf) _].
pose proof (run_tidy total strat calls) as Htidy. fold m in Hstore, Hnaf, Htidy.
destruct (suitable_block m (Process.memory_required process)) as [r|] eqn:Hsuit;
  [|by rewrite allocate_failure in Halloc].
destruct (allocate_success m process r Hstore Hsuit)
  as (pre & post & m1' & Heq & Hblocks & Hfit & Hview & _ & _ & Hown & Hstore1).
destruct (allocate_detail m process r pre post Hstore Hsuit Hblocks)
  as (Hblocks1 & Hobj & _).
rewrite Halloc in Heq, Hblocks1, Hobj. simpl in Hblocks1, Hobj.
injection Heq as <- ->.
set (process1 := Process.set_memory_end _ _).
assert (Hpid : Process.pid process1 = Process.pid process) by done.
assert (Hown1 : allocated_blocks m1 !! Process.pid process1 = Some r).
{ by rewrite Hpid, Hown, lookup_insert_eq. }
destruct (deallocate_success m1 process1 r Hstore1 Hown1)
  as (m2 & Hdealloc & Hview2 & _).
exists m2. split; [done|].
assert (Hb_tidy : MemoryBlock.process_id (objects m r) = None).
{ apply fits_free_le in Hfit as [Hfree _].
  apply (proj1 (Forall_forall _ _) Htidy); [|done].
  unfold block_list. apply list_elem_of_fmap_2. rewrite Hblocks.
  apply elem_of_app. right. by left. }
split.
- rewrite Hview2. destruct Hstore1 as [Hnd1 _]. rewrite Hblocks1 in Hnd1 |- *.
  rewrite fmap_insert_nodup by done. rewrite Hobj.
  unfold block_list in Hview. rewrite Hblocks1, fmap_app, fmap_cons, Hobj in Hview.
  apply app_inj_1 in Hview as [HA Hrest]; [|by rewrite !length_fmap].
  injection Hrest as Hrest. rewrite HA, Hrest.
  unfold block_list in Hnaf |- *. rewrite Hblocks, fmap_app, fmap_cons in Hnaf |- *.
  by apply coalesce_restore.
- intros Hfresh.
  assert (allocated_blocks m2 = delete (Process.pid process1) (allocated_blocks m1)) as ->.
  { revert Hdealloc. unfold deallocate. rewrite Hown1. intros [= <-].
    by rewrite merge_keeps_allocated_blocks. }
  rewrite Hpid, Hown. by apply delete_insert_id.
Qed.

Lemma allocate_deallocate_round_trip_witness :
  ∃ m2,
    deallocate Demo.manager1 Demo.p1_allocated =
      (true, m2, Process.set_memory_allocated false Demo.p1_allocated) ∧
    block_list m2 = block_list (run (__init__ 100 "First-Fit") []) ∧
    (allocated_blocks (run (__init__ 100 "First-Fit") []) !! Process.pid Demo.p1 = None →
     allocated_blocks m2 = allocated_blocks (run (__init__ 100 "First-Fit") [])).
Proof.
apply (allocate_deallocate_round_trip 100 "First-Fit" [] Demo.p1 Demo.manager1
         Demo.p1_allocated).
reflexivity.
Defined.

End AllocationFacts.

(* ===================================================================== *)
(** * No block is lost *)
(* ===================================================================== *)

Section MergeFacts.
Implicit Types (objs : ref → MemoryBlock.t) (blocks : list ref).

(** The merge loop leaves the allocated blocks alone. *)
Lemma merge_loop_keeps post : ∀ objs pre,
  NoDup (pre ++ post) →
  ∀ r, MemoryBlock.allocated (objs r) = true →
    (MemoryManager.merge_loop objs (pre ++ post) (length pre)).1 r = objs r ∧
    (r ∈ pre ++ post →
     r ∈ (MemoryManager.merge_loop objs (pre ++ post) (length pre)).2).
Proof.
remember (length post) as n eqn:Hn. revert post Hn.
induction n as [n IH] using lt_wf_ind. intros post -> objs pre Hnd r Hr.
rewrite merge_loop_unfold.
destruct post as [|r1 [|r2 rest]].
- by rewrite merge_step_exit by (simpl; lia).
- by rewrite merge_step_exit by (simpl; lia).
- rewrite merge_step_pair.
  destruct (_ && _) eqn:Hfree.
  + apply andb_true_iff in Hfree as [Hf1 Hf2].
    apply negb_true_iff in Hf1, Hf2.
    set (merged := MemoryBlock.set_size _ _).
    assert (Hnd' : NoDup (pre ++ r1 :: rest)).
    { eapply sublist_NoDup; [exact Hnd|]. apply sublist_app; [done|].
      apply sublist_skip, sublist_cons, reflexivity. }
    assert (Hne1 : r ≠ r1) by (intros ->; congruence).
    assert (Hne2 : r ≠ r2) by (intros ->; congruence).
    destruct (IH (length (r1 :: rest)) ltac:(simpl; lia) (r1 :: rest) eq_refl
                (<[r1 := merged]> objs) pre Hnd' r) as [Hobj Hin].
    { by rewrite fn_lookup_insert_ne. }
    split.
    * rewrite Hobj. by rewrite fn_lookup_insert_ne.
    * intros Hx. apply Hin. set_solver.
  + destruct (IH (length (r2 :: rest)) ltac:(simpl; lia) (r2 :: rest) eq_refl
                objs (pre ++ [r1])) with (r := r) as [Hobj Hin].
    { by rewrite <- app_assoc. }
    { done. }
    rewrite length_app, Nat.add_1_r, <- app_assoc in Hobj, Hin. simpl in Hobj, Hin.
    done.
Qed.

Lemma coalesce_from_used rest : ∀ cur,
  filter (λ b, MemoryBlock.allocated b = true) (Layout.coalesce_from cur rest) =
  filter (λ b, MemoryBlock.allocated b = true) (cur :: rest).
Proof.
induction rest as [|nb rest IH]; intros cur; simpl; [done|].
destruct (MemoryBlock.allocated cur) eqn:Hc, (MemoryBlock.allocated nb) eqn:Hn; simpl.
- rewrite filter_cons, IH, !filter_cons. done.
- rewrite filter_cons, IH, !filter_cons. done.
- rewrite filter_cons, IH, !filter_cons. done.
- rewrite IH, !filter_cons. simpl. rewrite Hc, Hn.
  by rewrite !decide_False by done.
Qed.

Lemma coalesce_used V :
  filter (λ b, MemoryBlock.allocated b = true) (Layout.coalesce V) =
  filter (λ b, MemoryBlock.allocated b = true) V.
Proof. destruct V; [done|]. apply coalesce_from_used. Qed.

Lemma coalesce_nonempty V : V ≠ [] → Layout.coalesce V ≠ [].
Proof.
destruct V as [|b V]; [done|]. intros _. simpl.
by destruct (coalesce_from_head V b) as (b' & V' & -> & _).
Qed.

End MergeFacts.

Section OwnershipFacts.
Import MemoryManager.
Implicit Types (m : MemoryManager.t) (process : Process.t).

Lemma deallocate_store m process r :
  Layout.store_ok m →
  allocated_blocks m !! Process.pid process = Some r →
  let m' := (deallocate m process).1.2 in
  allocated_blocks m' = delete (Process.pid process) (allocated_blocks m) ∧
  ∀ x, x ≠ r → MemoryBlock.allocated (objects m x) = true →
       objects m' x = objects m x ∧ (x ∈ memory_blocks m → x ∈ memory_blocks m').
Proof.
intros [Hnd _] Hown m'. subst m'. unfold deallocate. rewrite Hown. simpl.
unfold _merge_free_blocks. simpl.
pose proof (merge_loop_keeps (memory_blocks m)
              (<[r := MemoryBlock.set_process_id None
                        (MemoryBlock.set_allocated false (objects m r))]> (objects m))
              [] Hnd) as Hkeep.
simpl in Hkeep. destruct (merge_loop _ _ _) as [objs' blocks']. simpl in *.
split; [done|]. intros x Hne Hx.
destruct (Hkeep x) as [Hobj Hin]; [by rewrite fn_lookup_insert_ne|].
rewrite Hobj. by rewrite fn_lookup_insert_ne.
Qed.

Lemma used_app V1 V2 :
  filter (λ b, MemoryBlock.allocated b = true) (V1 ++ V2) =
  filter (λ b, MemoryBlock.allocated b = true) V1 ++
  filter (λ b, MemoryBlock.allocated b = true) V2.
Proof. apply filter_app. Qed.

Lemma used_remainder b process :
  filter (λ b, MemoryBlock.allocated b = true) (Layout.remainder b process) = [].
Proof. unfold Layout.remainder. by destruct (_ <? _). Qed.

Lemma allocate_owned m process :
  Layout.store_ok m → Placement.owned m →
  allocated_blocks m !! Process.pid process = None →
  Placement.owned (allocate m process).1.2.
Proof.
intros Hstore (Hne & Hused & Hnd & Hown) Hfresh.
destruct (suitable_block m (Process.memory_required process)) as [r|] eqn:Hsuit;
  [|by rewrite allocate_failure].
destruct (allocate_success m process r Hstore Hsuit)
  as (pre & post & m1 & Heq & Hblocks & Hfit & Hview & _ & _ & Hmap & _).
destruct (allocate_detail m process r pre post Hstore Hsuit Hblocks)
  as (Hblocks1 & Hobj & Hsame & _).
rewrite Heq in Hblocks1, Hobj, Hsame |- *. simpl in *.
apply fits_free_le in Hfit as [Hfree _].
set (A := objects m <$> pre) in *. set (B := objects m <$> post) in *.
assert (Hused_m : Placement.used_blocks m =
                  filter (λ b, MemoryBlock.allocated b = true) A ++
                  filter (λ b, MemoryBlock.allocated b = true) B).
{ unfold Placement.used_blocks, block_list.
  rewrite Hblocks, fmap_app, fmap_cons, used_app, filter_cons_False; [done|].
  by rewrite Hfree. }
assert (Hused_m1 : Placement.used_blocks m1 =
                   filter (λ b, MemoryBlock.allocated b = true) A ++
                   Layout.granted (objects m r) process ::
                   filter (λ b, MemoryBlock.allocated b = true) B).
{ unfold Placement.used_blocks. rewrite Hview, used_app, filter_cons_True by done.
  by rewrite used_app, used_remainder. }
rewrite Hused_m in Hused, Hnd.
unfold Placement.owned. rewrite Hused_m1, Hmap, Hblocks1. split_and!.
- by destruct pre.
- apply Forall_app in Hused as [HA HB].
  assert (Hgrow : ∀ b, (∃ pid, MemoryBlock.process_id b = Some pid ∧
                               is_Some (allocated_blocks m !! pid)) →
                       ∃ pid, MemoryBlock.process_id b = Some pid ∧
                              is_Some (<[Process.pid process := r]> (allocated_blocks m)
                                         !! pid)).
  { intros b (pid & Hb & Hin). exists pid. split; [done|].
    apply lookup_insert_is_Some. destruct (decide (Process.pid process = pid)); auto. }
  apply Forall_app. split; [by eapply Forall_impl|].
  constructor; [|by eapply Forall_impl].
  exists (Process.pid process). split; [done|]. by rewrite lookup_insert_eq.
- rewrite fmap_app, fmap_cons. rewrite fmap_app in Hnd.
  apply NoDup_app in Hnd as (HndA & Hdisj & HndB).
  assert (Hnew : ∀ V, Forall (λ b, ∃ pid, MemoryBlock.process_id b = Some pid ∧
                                          is_Some (allocated_blocks m !! pid)) V →
                      Some (Process.pid process) ∉ MemoryBlock.process_id <$> V).
  { intros V HV (b & Hb & Hin)%list_elem_of_fmap.
    destruct (proj1 (Forall_forall _ _) HV b Hin) as (pid & Hpid & Hsome).
    simpl in Hb. rewrite Hpid in Hb. injection Hb as Hb. subst pid.
    rewrite Hfresh in Hsome. by destruct Hsome. }
  apply Forall_app in Hused as [HA HB].
  apply NoDup_app. split_and!; [done| |].
  + intros x Hx [->|Hx']%elem_of_cons; [by apply (Hnew _ HA)|by apply (Hdisj x)].
  + apply NoDup_cons. split; [by apply Hnew|done].
- intros pid r0 Hlook. apply lookup_insert_Some in Hlook as [[<- <-]|[Hne' Hlook]].
  + split_and!; [|by rewrite Hobj|by rewrite Hobj].
    apply elem_of_app. right. by left.
  + destruct (Hown pid r0 Hlook) as (Hin & Halloc & Hpid).
    assert (Hr0 : r0 ∈ pre ++ post).
    { rewrite Hblocks in Hin. apply elem_of_app in Hin as [?|Hin];
        [apply elem_of_app; by left|].
      apply elem_of_cons in Hin as [->|?]; [congruence|apply elem_of_app; by right]. }
    rewrite (Hsame r0 Hr0). split_and!; [|done|done].
    apply elem_of_app in Hr0 as [?|?]; apply elem_of_app; [by left|].
    right. right. apply elem_of_app. by right.
Qed.

Lemma deallocate_owned m process :
  Layout.store_ok m → Placement.owned m →
  Placement.owned (deallocate m process).1.2.
Proof.
intros Hstore (Hne & Hused & Hnd & Hown).
destruct (allocated_blocks m !! Process.pid process) as [r|] eqn:Hmap;
  [|by rewrite deallocate_failure].
destruct (Hown _ _ Hmap) as (Hin & Halloc & Hpid).
destruct (deallocate_success m process r Hstore Hmap) as (m2 & Heq & Hview & _).
destruct (deallocate_store m process r Hstore Hmap) as (Hmap2 & Hkeep).
rewrite Heq in Hmap2, Hkeep |- *. simpl in *.
apply list_elem_of_split in Hin as (pre & post & Hblocks).
pose proof (proj1 Hstore) as Hnodup. rewrite Hblocks in Hnodup, Hview.
rewrite fmap_insert_nodup in Hview by done.
set (A := objects m <$> pre) in *. set (B := objects m <$> post) in *.
assert (Hused_m : Placement.used_blocks m =
                  filter (λ b, MemoryBlock.allocated b = true) A ++
                  objects m r :: filter (λ b, MemoryBlock.allocated b = true) B).
{ unfold Placement.used_blocks, block_list.
  by rewrite Hblocks, fmap_app, fmap_cons, used_app, filter_cons_True. }
assert (Hused_m2 : Placement.used_blocks m2 =
                   filter (λ b, MemoryBlock.allocated b = true) A ++
                   filter (λ b, MemoryBlock.allocated b = true) B).
{ unfold Placement.used_blocks.
  by rewrite Hview, coalesce_used, used_app, filter_cons_False. }
rewrite Hused_m in Hused, Hnd. rewrite fmap_app, fmap_cons, Hpid in Hnd.
assert (Hnd' : (Some (Process.pid process) ∉
               (MemoryBlock.process_id <$> filter (λ b, MemoryBlock.allocated b = true) A)
               ++ (MemoryBlock.process_id <$> filter (λ b, MemoryBlock.allocated b = true) B))
               ∧ NoDup ((MemoryBlock.process_id
                           <$> filter (λ b, MemoryBlock.allocated b = true) A)
                        ++ (MemoryBlock.process_id
                              <$> filter (λ b, MemoryBlock.allocated b = true) B))).
{ rewrite <- Permutation_middle in Hnd. by apply NoDup_cons in Hnd. }
destruct Hnd' as [Hother Hnd'].
unfold Placement.owned. rewrite Hused_m2, Hmap2. split_and!.
- intros Hnil. apply (coalesce_nonempty (A ++ Layout.freed (objects m r) :: B)).
  + by destruct A.
  + rewrite <- Hview. unfold block_list. by rewrite Hnil.
- assert (Hsub : Forall (λ b, ∃ pid, MemoryBlock.process_id b = Some pid ∧
                                     is_Some (allocated_blocks m !! pid))
                   (filter (λ b, MemoryBlock.allocated b = true) A ++
                    filter (λ b, MemoryBlock.allocated b = true) B)).
  { apply Forall_app in Hused as [HA HB]. apply Forall_cons in HB as [_ HB].
    by apply Forall_app. }
  apply Forall_forall. intros b Hb.
  destruct (proj1 (Forall_forall _ _) Hsub b Hb) as (pid & Hbpid & Hsome).
  exists pid. split; [done|]. rewrite lookup_delete_ne; [done|].
  intros <-. apply Hother. rewrite <- fmap_app, <- Hbpid.
  by apply list_elem_of_fmap_2.
- by rewrite fmap_app.
- intros pid r0 Hlook. apply lookup_delete_Some in Hlook as [Hne' Hlook].
  destruct (Hown pid r0 Hlook) as (Hin0 & Halloc0 & Hpid0).
  assert (Hr0 : r0 ≠ r) by (intros ->; congruence).
  destruct (Hkeep r0 Hr0 Halloc0) as [Hobj Hmem].
  rewrite Hobj. split_and!; [|done|done]. by apply Hmem.
Qed.

Lemma init_owned total strat : Placement.owned (__init__ total strat).
Proof.
split_and!; [done| | |].
- unfold Placement.used_blocks, block_list.
  change (memory_blocks (__init__ total strat)) with [0%nat].
  rewrite fmap_cons, filter_cons_False by done. apply Forall_nil_2.
- unfold Placement.used_blocks, block_list.
  change (memory_blocks (__init__ total strat)) with [0%nat].
  rewrite fmap_cons, filter_cons_False by done. constructor.
- intros pid r Hlook. simpl in Hlook. by rewrite lookup_empty in Hlook.
Qed.

Lemma run_owned calls : ∀ m,
  Layout.layout_ok m → Placement.owned m → Placement.fresh_pids m calls →
  Placement.owned (run m calls) ∧ Layout.layout_ok (run m calls).
Proof.
induction calls as [|c calls IH]; intros m Hlayout Howned; [done|].
intros [Hc Hrest]. unfold run. simpl. apply IH; [| |done].
- destruct c; simpl; [by apply allocate_layout_ok|by apply deallocate_layout_ok].
- destruct Hlayout as [Hstore _].
  destruct c; simpl; [by apply allocate_owned|by apply deallocate_owned].
Qed.

Lemma empty_record_single_block total strat calls :
  Placement.fresh_pids (__init__ total strat) calls →
  allocated_blocks (run (__init__ total strat) calls) = ∅ →
  block_list (run (__init__ total strat) calls) = [MemoryBlock.__init__ 0 total].
Proof.
intros Hfresh Hempty.
destruct (run_owned calls (__init__ total strat) (init_layout_ok _ _) (init_owned _ _) Hfresh)
  as [(Hne & Hused & _ & _) _].
destruct (run_layout_ok total strat calls) as [(_ & Hcont & Hsize & Hnaf) Hmem].
pose proof (run_tidy total strat calls) as Htidy.
set (m := run (__init__ total strat) calls) in *. rewrite Hmem in Hsize.
assert (Hfree : Forall (λ b, MemoryBlock.allocated b = false) (block_list m)).
{ apply Forall_forall. intros b Hb.
  destruct (MemoryBlock.allocated b) eqn:Halloc; [|done].
  assert (b ∈ Placement.used_blocks m) as Hin by by apply list_elem_of_filter.
  destruct (proj1 (Forall_forall _ _) Hused b Hin) as (pid & _ & Hsome).
  rewrite Hempty, lookup_empty in Hsome. by destruct Hsome. }
unfold block_list in *. destruct (memory_blocks m) as [|r [|r' rest]]; [done| |].
- simpl in Hcont, Hsize, Hfree, Htidy |- *. destruct Hcont as [Hstart _].
  apply Forall_cons in Hfree as [Hfree _]. apply Forall_cons in Htidy as [Htidy _].
  specialize (Htidy Hfree). destruct (objects m r) as [st sz al pid].
  simpl in Hstart, Hsize, Hfree, Htidy. subst st al pid.
  unfold MemoryBlock.__init__. do 2 f_equal. lia.
- simpl in Hnaf, Hfree. destruct Hnaf as [[Ha|Ha] _].
  + apply Forall_cons in Hfree as [Hfree _]. congruence.
  + apply Forall_cons in Hfree as [_ Hfree].
    apply Forall_cons in Hfree as [Hfree _]. congruence.
Qed.

Lemma NoDup_fmap_inj {B C} (f : B → C) (l : list B) x y :
  NoDup (f <$> l) → x ∈ l → y ∈ l → f x = f y → x = y.
Proof.
induction l as [|z l IH]; [by intros _ ?%elem_of_nil|].
rewrite fmap_cons. intros [Hz Hnd]%NoDup_cons.
intros [->|Hx]%elem_of_cons [->|Hy]%elem_of_cons Heq; [done| | |by apply IH].
- exfalso. apply Hz. rewrite Heq. by apply list_elem_of_fmap_2.
- exfalso. apply Hz. rewrite <- Heq. by apply list_elem_of_fmap_2.
Qed.

(** X17. No memory is lost: from a fresh manager, through any sequence of
    calls that never allocates for a pid that already holds memory, every
    allocated block of the list is the block that the ownership record
    holds for the pid it carries, so that [deallocate] can free it; and
    once the record is empty again the block list is the single free
    block [MemoryBlock(0, total_memory)] it started from. *)
Theorem no_memory_leak total strat calls :
  Placement.fresh_pids (__init__ total strat) calls →
  (∀ b, b ∈ block_list (run (__init__ total strat) calls) →
        MemoryBlock.allocated b = true →
        ∃ pid r, MemoryBlock.process_id b = Some pid ∧
                 allocated_blocks (run (__init__ total strat) calls) !! pid = Some r ∧
                 r ∈ memory_blocks (run (__init__ total strat) calls) ∧
                 objects (run (__init__ total strat) calls) r = b) ∧
  (allocated_blocks (run (__init__ total strat) calls) = ∅ →
   block_list (run (__init__ total strat) calls) = [MemoryBlock.__init__ 0 total]).
Proof.
intros Hfresh. split; [|by apply empty_record_single_block].
destruct (run_owned calls (__init__ total strat) (init_layout_ok _ _) (init_owned _ _) Hfresh)
  as [(_ & Hused & Hnd & Hown) _].
set (m := run (__init__ total strat) calls) in *.
intros b Hb Halloc.
assert (Hin : b ∈ Placement.used_blocks m) by by apply list_elem_of_filter.
destruct (proj1 (Forall_forall _ _) Hused b Hin) as (pid & Hpid & [r Hr]).
exists pid, r. destruct (Hown pid r Hr) as (Hmem & Halloc_r & Hpid_r).
split_and!; [done|done|done|].
apply (NoDup_fmap_inj MemoryBlock.process_id (Placement.used_blocks m)); [done| |done|].
- apply list_elem_of_filter. split; [done|].
  unfold block_list. by apply list_elem_of_fmap_2.
- by rewrite Hpid, Hpid_r.
Qed.

Lemma no_memory_leak_witness :
  block_list (run (__init__ 100 "First-Fit") (Demo.calls ++ [Deallocate Demo.p3])) =
    [MemoryBlock.__init__ 0 100].
Proof.
apply (no_memory_leak 100 "First-Fit" (Demo.calls ++ [Deallocate Demo.p3])).
- vm_compute. repeat split.
- vm_compute. reflexivity.
Defined.

End OwnershipFacts.

(* ===================================================================== *)
(** * The simulation as a whole *)
(* ===================================================================== *)

Section SimulationFacts.
Import MemoryManager.
Implicit Types (m : MemoryManager.t) (σ : ref → Process.t) (process : Process.t).
















End SimulationFacts.

(* ===================================================================== *)
(** * Runs without idle time, and runs without end *)
(* ===================================================================== *)

Section MoreRunFacts.
Import Scheduler.
Implicit Types (s : Scheduler.t) (σ : ref → Process.t) (r : ref).





Lemma stalled_step all s σ idx s' σ' idx' :
  Run.stalled all s σ idx →
  schedule_step all (s, σ, idx) = Some (s', σ', idx') →
  Run.stalled all s' σ' idx'.
Proof.
apply (schedule_step_rule (Run.stalled all) all); clear.
- intros s σ idx (Halg & Hq & r & Hr & Hrem) Hidx _.
  rewrite add_process_rr by done. unfold Run.stalled. simpl.
  split_and!; [done|done|]. exists r. rewrite queue_refs_snoc. split.
  + destruct Hr as [Hr|Hr].
    * rewrite (drop_lookup_total all idx Hidx) in Hr.
      apply elem_of_cons in Hr as [->|Hr]; [right|by left].
      apply elem_of_app. right. by left.
    * right. apply elem_of_app. by left.
  + destruct (decide (all !!! idx = r)) as [->|Hne];
      [by rewrite fn_lookup_insert|by rewrite fn_lookup_insert_ne].
- intros s σ idx (Halg & Hq & r & Hr & Hrem) Hempty Hidx _.
  split_and!; [done|done|]. by exists r.
- intros s σ idx e q' p' (Halg & Hq & r & Hr & Hrem) _ Hperm%queue_refs_pop r0 el Hran.
  unfold Run.stalled, Run.after_slice. simpl. split_and!; [done|done|].
  exists r. destruct (decide (r = r0)) as [->|Hne].
  + (* the slice cannot have completed this process *)
    exfalso. pose proof (Run.ran_completed _ _ _ _ _ Hran) as Hc.
    symmetry in Hc. apply Z.eqb_eq in Hc.
    rewrite (Run.ran_remaining_time _ _ _ _ _ Hran) in Hc.
    subst el. unfold Run.time_slice in Hc. rewrite Halg in Hc. simpl in Hc. lia.
  + rewrite fn_lookup_insert_ne by done. split; [|done].
    destruct Hr as [?|Hr]; [by left|right]. rewrite Hperm in Hr.
    apply elem_of_cons in Hr as [?|?]; done.
- intros s σ idx e q' p' (Halg & Hq & r & Hr & Hrem) _ Hperm%queue_refs_pop _ r0 el Hran.
  unfold Run.stalled, Run.after_slice. simpl. split_and!; [done|done|].
  exists r. rewrite queue_refs_snoc. destruct (decide (r = r0)) as [->|Hne].
  + split; [right; apply elem_of_app; right; by left|].
    rewrite fn_lookup_insert. simpl.
    rewrite (Run.ran_remaining_time _ _ _ _ _ Hran). subst el. lia.
  + rewrite !fn_lookup_insert_ne by done. split; [|done].
    destruct Hr as [?|Hr]; [by left|right]. rewrite Hperm in Hr.
    apply elem_of_cons in Hr as [?|?]; [done|]. apply elem_of_app. by left.
Qed.

Lemma stalled_loop_runs all : ∀ fuel s σ idx,
  Run.stalled all s σ idx → schedule_loop fuel all (s, σ, idx) = None.
Proof.
induction fuel as [|fuel IH]; intros s σ idx Hstalled; simpl;
  (destruct (schedule_step all (s, σ, idx)) as [[[s' σ'] idx']|] eqn:Hstep;
   [|exfalso; apply schedule_step_None in Hstep as [Hidx Hq];
     destruct Hstalled as (_ & _ & r & [Hr|Hr] & _);
     [rewrite drop_ge in Hr by done|rewrite Hq in Hr]; by apply elem_of_nil in Hr]).
- done.
- apply IH. by eapply stalled_step.
Qed.

(** X20. Round-Robin with a quantum that is not positive never returns
    when some process needs more time than the quantum (any process that
    needs a positive time does): its slice completes nothing, the process
    goes back to the queue needing more than before, and [schedule] runs
    for ever, whatever the fuel. *)
Theorem rr_nonpositive_quantum_never_returns quantum σ processes r :
  quantum ≤ 0 → r ∈ processes → quantum < Process.remaining_time (σ r) →
  ∀ fuel, schedule fuel (__init__ "RR" quantum) σ processes = None.
Proof.
intros Hq Hr Hrem fuel. unfold schedule.
rewrite stalled_loop_runs; [done|].
split_and!; [done|done|]. exists r. split; [|done]. left.
rewrite drop_0. by rewrite sorted_by_arrival_Permutation.
Qed.

Lemma rr_nonpositive_quantum_never_returns_witness :
  schedule 1000 (__init__ "RR" (-1)) Demo.store Demo.processes = None.
Proof.
apply (rr_nonpositive_quantum_never_returns (-1) Demo.store Demo.processes 0%nat).
- lia.
- unfold Demo.processes. left.
- vm_compute. reflexivity.
Defined.

End MoreRunFacts.

(* ===================================================================== *)
(** * Allocating twice for one pid *)
(* ===================================================================== *)

Section OrphanFacts.
Import MemoryManager.
Implicit Types (m : MemoryManager.t) (process : Process.t).

Lemma allocate_orphan m process r0 :
  Layout.store_ok m → Placement.orphan m r0 →
  Placement.orphan (allocate m process).1.2 r0 ∧
  objects (allocate m process).1.2 r0 = objects m r0.
Proof.
intros Hstore (Hin & Halloc & Hnone).
destruct (suitable_block m (Process.memory_required process)) as [r|] eqn:Hsuit;
  [|by rewrite allocate_failure].
destruct (allocate_success m process r Hstore Hsuit)
  as (pre & post & m1 & Heq & Hblocks & Hfit & _ & _ & _ & Hmap & _).
destruct (allocate_detail m process r pre post Hstore Hsuit Hblocks)
  as (Hblocks1 & _ & Hsame & _).
rewrite Heq in Hblocks1, Hsame |- *. simpl in *.
apply fits_free_le in Hfit as [Hfree _].
assert (Hne : r0 ≠ r) by (intros ->; congruence).
assert (Hr0 : r0 ∈ pre ++ post).
{ rewrite Hblocks in Hin. set_solver. }
unfold Placement.orphan. rewrite (Hsame r0 Hr0). split; [|done]. split_and!; [|done|].
- rewrite Hblocks1. set_solver.
- intros pid. rewrite Hmap. intros [[_ ?]|[_ ?]]%lookup_insert_Some; [done|].
  by apply (Hnone pid).
Qed.

Lemma deallocate_orphan m process r0 :
  Layout.store_ok m → Placement.orphan m r0 →
  Placement.orphan (deallocate m process).1.2 r0 ∧
  objects (deallocate m process).1.2 r0 = objects m r0.
Proof.
intros Hstore (Hin & Halloc & Hnone).
destruct (allocated_blocks m !! Process.pid process) as [r|] eqn:Hown;
  [|by rewrite deallocate_failure].
destruct (deallocate_store m process r Hstore Hown) as (Hmap & Hkeep).
assert (Hne : r0 ≠ r) by (intros ->; by apply (Hnone (Process.pid process))).
destruct (Hkeep r0 Hne Halloc) as [Hobj Hmem].
unfold Placement.orphan. rewrite Hobj. split; [|done]. split_and!; [by apply Hmem|done|].
intros pid. rewrite Hmap. intros [_ ?]%lookup_delete_Some. by apply (Hnone pid).
Qed.

Lemma run_orphan calls : ∀ m r0,
  Layout.layout_ok m → Placement.orphan m r0 →
  Placement.orphan (run m calls) r0 ∧ objects (run m calls) r0 = objects m r0.
Proof.
induction calls as [|c calls IH]; intros m r0 Hlayout Horphan; [done|].
unfold run. simpl. fold (run (do_call m c) calls).
assert (Hstep : Placement.orphan (do_call m c) r0 ∧ objects (do_call m c) r0 = objects m r0).
{ destruct Hlayout as [Hstore _].
  destruct c; simpl; [by apply allocate_orphan|by apply deallocate_orphan]. }
destruct Hstep as [Horphan' Hobj].
destruct (IH (do_call m c) r0) as [Hfinal Hobj']; [|done|].
- destruct c; simpl; [by apply allocate_layout_ok|by apply deallocate_layout_ok].
- split; [done|]. by rewrite Hobj'.
Qed.

(** X21. A second [allocate] for a pid that already holds memory loses
    the first block for good: the ownership record now leads to the
    second block only, and whatever calls follow, [deallocate] of that
    process included, the first block stays in the list, allocated and
    with the addresses the first call handed out. *)
Theorem double_allocation_leaks total strat m process m1 process1 m2 process2 :
  Placement.reached total strat m →
  allocate m process = (true, m1, process1) →
  allocate m1 process1 = (true, m2, process2) →
  ∀ calls,
    ∃ b, b ∈ block_list (run m2 calls) ∧
         MemoryBlock.allocated b = true ∧
         MemoryBlock.process_id b = Some (Process.pid process) ∧
         MemoryBlock.start b = Process.memory_start process1 ∧
         MemoryBlock.size b = Process.memory_required process.
Proof.
intros (calls0 & -> & Hvalid & Hfresh) Halloc1 Halloc2 calls.
set (m := run (__init__ total strat) calls0) in *.
destruct (run_owned calls0 (__init__ total strat) (init_layout_ok _ _)
            (init_owned _ _) Hfresh) as [(_ & _ & _ & Hown) Hlayout].
fold m in Hown, Hlayout. pose proof Hlayout as [Hstore _].
(* the first call *)
destruct (suitable_block m (Process.memory_required process)) as [r1|] eqn:Hsuit1;
  [|by rewrite allocate_failure in Halloc1].
destruct (allocate_success m process r1 Hstore Hsuit1)
  as (pre1 & post1 & m1' & Heq1 & Hblocks & Hfit1 & _ & _ & _ & Hmap1 & Hstore1).
destruct (allocate_detail m process r1 pre1 post1 Hstore Hsuit1 Hblocks)
  as (Hblocks1 & Hobj1 & _).
rewrite Halloc1 in Heq1, Hblocks1, Hobj1. simpl in Hblocks1, Hobj1.
injection Heq1 as <- Hp1.
apply fits_free_le in Hfit1 as [Hfree1 _].
pose proof (allocate_layout_ok m process Hlayout) as Hlayout1.
rewrite Halloc1 in Hlayout1. simpl in Hlayout1.
(* the second call *)
assert (Hreq : Process.memory_required process1 = Process.memory_required process)
  by by rewrite Hp1.
assert (Hpid : Process.pid process1 = Process.pid process) by by rewrite Hp1.
destruct (suitable_block m1 (Process.memory_required process1)) as [r2|] eqn:Hsuit2;
  [|by rewrite allocate_failure in Halloc2].
destruct (allocate_success m1 process1 r2 Hstore1 Hsuit2)
  as (pre2 & post2 & m2' & Heq2 & Hblocks2 & Hfit2 & _ & _ & _ & Hmap2 & _).
destruct (allocate_detail m1 process1 r2 pre2 post2 Hstore1 Hsuit2 Hblocks2)
  as (Hblocks2' & _ & Hsame2 & _).
rewrite Halloc2 in Heq2, Hblocks2', Hsame2. simpl in Hblocks2', Hsame2.
injection Heq2 as <- _.
apply fits_free_le in Hfit2 as [Hfree2 _].
pose proof (allocate_layout_ok m1 process1 Hlayout1) as Hlayout2.
rewrite Halloc2 in Hlayout2. simpl in Hlayout2.
assert (Hne : r1 ≠ r2).
{ intros <-. rewrite Hobj1 in Hfree2. done. }
assert (Hr1 : r1 ∈ pre2 ++ post2).
{ assert (r1 ∈ memory_blocks m1) as Hin by (rewrite Hblocks1; set_solver).
  rewrite Hblocks2 in Hin. set_solver. }
assert (Horphan : Placement.orphan m2 r1).
{ split_and!.
  - rewrite Hblocks2'. set_solver.
  - by rewrite (Hsame2 r1 Hr1), Hobj1.
  - intros pid. rewrite Hmap2, Hmap1, Hpid.
    intros [[_ ?]|[Hpid' Hlook]]%lookup_insert_Some; [done|].
    rewrite lookup_insert_ne in Hlook by done.
    destruct (Hown pid r1 Hlook) as (_ & Halloc & _). congruence. }
destruct (run_orphan calls m2 r1 Hlayout2 Horphan) as [(Hin & _ & _) Hobj].
exists (objects (run m2 calls) r1). split.
{ unfold block_list. by apply list_elem_of_fmap_2. }
rewrite Hobj, (Hsame2 r1 Hr1), Hobj1, Hp1. done.
Qed.

Lemma double_allocation_leaks_witness :
  ∃ b, b ∈ block_list (run (allocate Demo.manager1 Demo.p1_allocated).1.2
                         [Deallocate Demo.p1; Deallocate Demo.p1]) ∧
       MemoryBlock.allocated b = true ∧
       MemoryBlock.process_id b = Some (Process.pid Demo.p1) ∧
       MemoryBlock.start b = Process.memory_start Demo.p1_allocated ∧
       MemoryBlock.size b = Process.memory_required Demo.p1.
Proof.
apply (double_allocation_leaks 100 "First-Fit" Demo.manager Demo.p1
         Demo.manager1 Demo.p1_allocated
         (allocate Demo.manager1 Demo.p1_allocated).1.2
         (allocate Demo.manager1 Demo.p1_allocated).2).
- exists []. split; [reflexivity|]. split; [apply Forall_nil_2|exact I].
- reflexivity.
- reflexivity.
Defined.

End OrphanFacts.
